(** * Resilient email service: a shallow embedding of EmailService.js and utils.js

    The service is a JavaScript class whose methods run on one event loop:
    code between two [await]s is atomic, and several [sendEmail] calls can be
    in flight at once.  The embedding keeps that shape.

    - The mutable fields of the class are the record [EmailService]; the
      constructor's options are [Options], the values it settles on are
      [Config].
    - The synchronous helpers ([_isCircuitOpen], [_recordFailure],
      [_recordSuccess], [_isRateLimited]) are functions on that record that
      take the reading of [Date.now()] as an argument.
    - [retryWithBackoff] (utils.js) is embedded twice from the same source
      lines: as a loop over an operation whose n-th invocation has a given
      outcome ([retryWithBackoff]), and, cut at its two [await]s, inside the
      small-step semantics of the whole service ([step]).
    - A [World] is the service together with the activations of
      [_processSend] and [_processQueue] that are suspended at an [await],
      the timers set with [setTimeout], and the trace of what happened
      (provider calls, sleeps, settled promises).

    One turn of the event loop is one [step]: a call of [sendEmail], the
    settling of a provider call, the end of a backoff sleep, the resumption
    of a suspended [_processQueue], or a timer.  Each turn runs the code up
    to the next [await] and reads the clock once ([now]); how provider
    calls settle and in which order the turns come is up to the
    environment, so every interleaving of overlapping sends is a schedule.

    The mock providers of providers.js are embedded apart from the
    service, as functions of the number that [Math.random()] returns;
    success rates and draws are rationals.

    A provider call can be rejected with any value; [Reason] tells apart
    what this code can tell apart: a value with a message, a falsy value,
    and [null] or [undefined], on which the read of [error.message] in
    the catch block of [retryWithBackoff] throws.

    Calls to the logger are left out: they do not touch the service; the
    arguments they read are kept where reading them can throw.
    [_cleanupIdempotencySet] is embedded but is no turn of the event loop:
    nothing in the class calls it.  Counts (retries, thresholds, requests
    per window) are naturals, times and delays in milliseconds are
    integers. *)

From Stdlib Require Import ZArith Lia.
From Stdlib Require QArith.
From stdpp Require Import gmap strings list pretty.

Local Open Scope Z_scope.

(** ** Data *)

(** [EmailStatus] as the typedef of EmailService.js lists it. *)
Inductive EmailStatus := pending | sent | failed | processing.

#[global] Instance EmailStatus_eq_dec : EqDecision EmailStatus.
Proof. solve_decision. Defined.

(** The text a status has in a template literal. *)
Definition statusText (s : EmailStatus) : string :=
  match s with
  | pending => "pending"
  | sent => "sent"
  | failed => "failed"
  | processing => "processing"
  end.

(** The argument of [sendEmail]. *)
Record EmailData := mkEmail {
  emailId : string;
  to : string;
  subject : string;
  body : string
}.

(** What a promise is rejected with, as far as this code looks at it.
    [Error m] is an [Error] of message [m], or any other truthy value:
    [m] is then the text that [error.message] has in a template literal
    ('undefined' for a value without a message).  [Falsy] is 0, '',
    false or NaN: it has no message either, and [lastError ? ... : ...]
    takes the other branch on it.  On [Null] and [Undefined] reading
    [error.message] throws. *)
Inductive Reason :=
| Error (message : string)
| Falsy
| Null
| Undefined.

(** How a promise settles. *)
Inductive Outcome :=
| Resolved (value : string)
| Rejected (reason : Reason).

(** A provider is a function of the integrator; the service tells providers
    apart by reference ([pid]) and prints [provider.name || 'unknown']. *)
Record Provider := mkProvider {
  pid : nat;
  pname : string
}.

Definition providerName (p : Provider) : string :=
  if decide (pname p = "") then "unknown" else pname p.

(** [CircuitState] of EmailService.js. *)
Record CircuitState := mkCircuit {
  isOpen : bool;
  lastFailureTime : Z;
  failureCount : nat;
  halfOpenAttempts : nat
}.

(** ** Construction *)

(** The [options] object: a field is absent ([None]) or holds a number. *)
Record Options := mkOptions {
  o_maxRetries : option nat;
  o_initialRetryDelay : option Z;
  o_idempotencyWindowMs : option Z;
  o_rateLimitWindowMs : option Z;
  o_maxRequestsPerWindow : option nat;
  o_circuitBreakerThreshold : option nat;
  o_circuitBreakerTimeoutMs : option Z;
  o_circuitBreakerHalfOpenAttempts : option nat
}.

Definition noOptions : Options :=
  mkOptions None None None None None None None None.

(** The fields the constructor computes once and nothing changes later. *)
Record Config := mkConfig {
  providers : list Provider;
  maxRetries : nat;
  initialRetryDelay : Z;
  idempotencyWindowMs : Z;
  rateLimitWindowMs : Z;
  maxRequestsPerWindow : nat;
  circuitBreakerThreshold : nat;
  circuitBreakerTimeoutMs : Z;
  circuitBreakerHalfOpenAttempts : nat
}.

(** [options.x || d] on a count: an absent field and 0 are both falsy. *)
Definition orDefaultNat (o : option nat) (d : nat) : nat :=
  match o with
  | Some v => if Nat.eqb v 0 then d else v
  | None => d
  end.

(** [options.x || d] on a number of milliseconds. *)
Definition orDefaultZ (o : option Z) (d : Z) : Z :=
  match o with
  | Some v => if v =? 0 then d else v
  | None => d
  end.

(** A queued submission: the email and the promise [sendEmail] returned for
    it (its [resolve] and [reject]). *)
Record QueueEntry := mkEntry {
  q_email : EmailData;
  q_promise : nat
}.

(** The mutable fields of the class. *)
Record EmailService := mkService {
  currentProviderIndex : nat;
  sentEmailIds : gset string;
  requestTimestamps : list Z;
  emailStatuses : gmap string EmailStatus;
  emailQueue : list QueueEntry;
  isProcessingQueue : bool;
  circuitBreakers : gmap nat CircuitState
}.

Definition closedCircuit : CircuitState := mkCircuit false 0 0 0.

(** [new Map(providers.map(p => [p, {...}]))]. *)
Definition initialBreakers (ps : list Provider) : gmap nat CircuitState :=
  list_to_map (map (fun p => (pid p, closedCircuit)) ps).

(** The constructor: [None] when it throws
    'At least one email provider is required.' *)
Definition constructor (ps : list Provider) (o : Options)
  : option (Config * EmailService) :=
  match ps with
  | [] => None
  | _ =>
    Some
      (mkConfig ps
         (orDefaultNat (o_maxRetries o) 3)
         (orDefaultZ (o_initialRetryDelay o) 100)
         (orDefaultZ (o_idempotencyWindowMs o) (60 * 1000))
         (orDefaultZ (o_rateLimitWindowMs o) 1000)
         (orDefaultNat (o_maxRequestsPerWindow o) 10)
         (orDefaultNat (o_circuitBreakerThreshold o) 3)
         (orDefaultZ (o_circuitBreakerTimeoutMs o) 5000)
         (orDefaultNat (o_circuitBreakerHalfOpenAttempts o) 1),
       mkService 0 ∅ [] ∅ [] false (initialBreakers ps))
  end.

(** ** Field updates *)

Definition set_currentProviderIndex (v : nat) (s : EmailService) :=
  mkService v (sentEmailIds s) (requestTimestamps s) (emailStatuses s)
    (emailQueue s) (isProcessingQueue s) (circuitBreakers s).

Definition set_sentEmailIds (v : gset string) (s : EmailService) :=
  mkService (currentProviderIndex s) v (requestTimestamps s) (emailStatuses s)
    (emailQueue s) (isProcessingQueue s) (circuitBreakers s).

Definition set_requestTimestamps (v : list Z) (s : EmailService) :=
  mkService (currentProviderIndex s) (sentEmailIds s) v (emailStatuses s)
    (emailQueue s) (isProcessingQueue s) (circuitBreakers s).

Definition set_emailStatuses (v : gmap string EmailStatus) (s : EmailService) :=
  mkService (currentProviderIndex s) (sentEmailIds s) (requestTimestamps s) v
    (emailQueue s) (isProcessingQueue s) (circuitBreakers s).

Definition set_emailQueue (v : list QueueEntry) (s : EmailService) :=
  mkService (currentProviderIndex s) (sentEmailIds s) (requestTimestamps s)
    (emailStatuses s) v (isProcessingQueue s) (circuitBreakers s).

Definition set_isProcessingQueue (v : bool) (s : EmailService) :=
  mkService (currentProviderIndex s) (sentEmailIds s) (requestTimestamps s)
    (emailStatuses s) (emailQueue s) v (circuitBreakers s).

Definition set_circuitBreakers (v : gmap nat CircuitState) (s : EmailService) :=
  mkService (currentProviderIndex s) (sentEmailIds s) (requestTimestamps s)
    (emailStatuses s) (emailQueue s) (isProcessingQueue s) v.

(** ** Circuit breaker *)

(** The body of [_isCircuitOpen] on one provider's state: the answer and
    the state it leaves. *)
Definition checkCircuit (timeoutMs now : Z) (st : CircuitState)
  : bool * CircuitState :=
  if isOpen st then
    if timeoutMs <? now - lastFailureTime st then
      (false, mkCircuit false (lastFailureTime st) (failureCount st) 0)
    else (true, st)
  else (false, st).

(** The body of [_recordFailure] on one provider's state. *)
Definition failCircuit (threshold : nat) (now : Z) (st : CircuitState)
  : CircuitState :=
  let count := S (failureCount st) in
  if negb (isOpen st) && (threshold <=? count)%nat then
    mkCircuit true now count (halfOpenAttempts st)
  else mkCircuit (isOpen st) now count (halfOpenAttempts st).

(** The body of [_recordSuccess] on one provider's state. *)
Definition succeedCircuit (st : CircuitState) : CircuitState :=
  mkCircuit false (lastFailureTime st) 0 0.

Section Service.

Variable cfg : Config.

(** [_isCircuitOpen(provider)] at clock reading [now]. *)
Definition _isCircuitOpen (now : Z) (p : Provider) (s : EmailService)
  : bool * EmailService :=
  match circuitBreakers s !! pid p with
  | None => (false, s)
  | Some st =>
    let '(blocked, st') := checkCircuit (circuitBreakerTimeoutMs cfg) now st in
    (blocked, set_circuitBreakers (<[pid p := st']> (circuitBreakers s)) s)
  end.

(** [_recordFailure(provider)] at clock reading [now]. *)
Definition _recordFailure (now : Z) (p : Provider) (s : EmailService)
  : EmailService :=
  match circuitBreakers s !! pid p with
  | None => s
  | Some st =>
    set_circuitBreakers
      (<[pid p := failCircuit (circuitBreakerThreshold cfg) now st]>
         (circuitBreakers s)) s
  end.

(** [_recordSuccess(provider)]. *)
Definition _recordSuccess (p : Provider) (s : EmailService) : EmailService :=
  match circuitBreakers s !! pid p with
  | None => s
  | Some st =>
    set_circuitBreakers (<[pid p := succeedCircuit st]> (circuitBreakers s)) s
  end.

(** ** Rate limiting *)

(** The filter of [_isRateLimited]: the timestamps still inside the window. *)
Definition pruneWindow (now : Z) (ts : list Z) : list Z :=
  filter (fun t => now - t < rateLimitWindowMs cfg) ts.

(** [_isRateLimited()] at clock reading [now]: [true] means denied. *)
Definition _isRateLimited (now : Z) (s : EmailService) : bool * EmailService :=
  let kept := pruneWindow now (requestTimestamps s) in
  if (maxRequestsPerWindow cfg <=? length kept)%nat then
    (true, set_requestTimestamps kept s)
  else (false, set_requestTimestamps (kept ++ [now]) s).

(** [_cleanupIdempotencySet()]; nothing in the class calls it. *)
Definition _cleanupIdempotencySet (s : EmailService) : EmailService :=
  set_sentEmailIds ∅ s.

(** [getEmailStatus(emailId)]. *)
Definition getEmailStatus (id : string) (s : EmailService)
  : option EmailStatus :=
  emailStatuses s !! id.

End Service.

(** ** retryWithBackoff (utils.js) *)

(** The catch block of [retryWithBackoff] after a failed attempt:
    [attempt++], and when [attempt <= maxRetries] the delay is doubled and
    slept ([Some] of the doubled delay); otherwise the loop is left. *)
Definition afterFailure (maxRetries attempt : nat) (currentDelay : Z)
  : nat * option Z :=
  let attempt' := S attempt in
  if (attempt' <=? maxRetries)%nat then (attempt', Some (currentDelay * 2))
  else (attempt', None).

(** [error.message] in the catch block: on [null] and [undefined] the
    read throws a TypeError, whose message (as Node.js words it) is
    returned; on every other value it gives a text for the logger. *)
Definition messageThrows (error : Reason) : option string :=
  match error with
  | Null => Some "Cannot read properties of null (reading 'message')"
  | Undefined =>
    Some "Cannot read properties of undefined (reading 'message')"
  | Error _ | Falsy => None
  end.

(** [lastError ? lastError.message : d] in a template literal. *)
Definition messageOr (d : string) (lastError : option Reason) : string :=
  match lastError with
  | Some (Error m) => m
  | Some Falsy | Some Null | Some Undefined | None => d
  end.

(** The message of the error thrown after the loop. *)
Definition exhaustedMessage (maxRetries : nat) (id : string)
    (lastError : option Reason) : string :=
  "Failed after " +:+ pretty (maxRetries + 1)%nat +:+ " attempts for email "
    +:+ id +:+ ". Last error: " +:+ messageOr "Unknown error" lastError.

(** What one call of [retryWithBackoff] did: how its promise settled, how
    often it invoked the operation, and the delays it slept, in order. *)
Record RetryRun := mkRun {
  r_outcome : Outcome;
  r_calls : nat;
  r_sleeps : list Z
}.

(** The [while (attempt <= maxRetries)] loop.  [fn n] is the outcome of the
    operation's invocation number [n] (from 0); [fuel] bounds the iterations
    left and is [S maxRetries] at the start.  The catch block reads
    [error.message] for the logger before it counts the attempt: when
    that read throws, the TypeError leaves the function. *)
Fixpoint retryLoop (fn : nat -> Outcome) (maxRetries : nat) (id : string)
    (fuel attempt : nat) (currentDelay : Z) (lastError : option Reason)
    (calls : nat) (sleeps : list Z) : RetryRun :=
  match fuel with
  | O =>
    mkRun (Rejected (Error (exhaustedMessage maxRetries id lastError)))
      calls sleeps
  | S fuel' =>
    if (attempt <=? maxRetries)%nat then
      match fn calls with
      | Resolved v => mkRun (Resolved v) (S calls) sleeps
      | Rejected error =>
        match messageThrows error with
        | Some typeError =>
          mkRun (Rejected (Error typeError)) (S calls) sleeps
        | None =>
          match afterFailure maxRetries attempt currentDelay with
          | (attempt', Some d) =>
            retryLoop fn maxRetries id fuel' attempt' d (Some error)
              (S calls) (sleeps ++ [d])
          | (attempt', None) =>
            retryLoop fn maxRetries id fuel' attempt' currentDelay
              (Some error) (S calls) sleeps
          end
        end
      end
    else
      mkRun (Rejected (Error (exhaustedMessage maxRetries id lastError)))
        calls sleeps
  end.

(** [retryWithBackoff(fn, maxRetries, delay, emailId, logger)]. *)
Definition retryWithBackoff (fn : nat -> Outcome) (maxRetries : nat)
    (delay : Z) (id : string) : RetryRun :=
  retryLoop fn maxRetries id (S maxRetries) 0 delay None 0 [].

(** ** The event loop *)

(** Who awaits a [_processSend]: [sendEmail] returned its promise to the
    caller, or the loop of [_processQueue] awaits it. *)
Inductive Caller := FromSendEmail | FromQueue.

(** An activation of [_processSend] suspended inside [retryWithBackoff]:
    at [await fn()] or at [await sleep(currentDelay)]. *)
Record Task := mkTask {
  t_caller : Caller;
  t_email : EmailData;
  t_i : nat;
  t_providerIndex : nat;
  t_provider : Provider;
  t_attempt : nat;
  t_currentDelay : Z;
  t_lastError : option Reason;
  t_sleeping : bool
}.

(** What an observer outside the service sees. *)
Inductive Event :=
| EvInvoke (p : Provider) (e : EmailData)
| EvSleep (promise : nat) (ms : Z)
| EvSetTimeout (ms : Z)
| EvSettle (promise : nat) (o : Outcome).

(** The service and everything that is suspended around it.  [tasks] are
    keyed by the promise of the [sendEmail] call they work for.  An element
    [(pr, r)] of [drains] is an activation of [_processQueue] suspended at
    [await this._processSend(emailData)] for the entry of promise [pr]; [r]
    is how that [_processSend] has settled, if it has.  [trace] has the
    newest event first. *)
Record World := mkWorld {
  service : EmailService;
  tasks : gmap nat Task;
  drains : list (nat * option Outcome);
  timers : nat;
  nextPromise : nat;
  trace : list Event
}.

Definition setService (s : EmailService) (w : World) : World :=
  mkWorld s (tasks w) (drains w) (timers w) (nextPromise w) (trace w).

Definition onService (f : EmailService -> EmailService) (w : World) : World :=
  setService (f (service w)) w.

Definition setTasks (t : gmap nat Task) (w : World) : World :=
  mkWorld (service w) t (drains w) (timers w) (nextPromise w) (trace w).

Definition setDrains (d : list (nat * option Outcome)) (w : World) : World :=
  mkWorld (service w) (tasks w) d (timers w) (nextPromise w) (trace w).

Definition setTimers (n : nat) (w : World) : World :=
  mkWorld (service w) (tasks w) (drains w) n (nextPromise w) (trace w).

Definition setNextPromise (n : nat) (w : World) : World :=
  mkWorld (service w) (tasks w) (drains w) (timers w) n (trace w).

Definition emit (ev : Event) (w : World) : World :=
  mkWorld (service w) (tasks w) (drains w) (timers w) (nextPromise w)
    (ev :: trace w).

(** [this.emailStatuses.set(id, st)]. *)
Definition setStatus (id : string) (st : EmailStatus) (w : World) : World :=
  onService (fun s => set_emailStatuses (<[id := st]> (emailStatuses s)) s) w.

(** The promise of a queued entry's [_processSend] settles: the activation
    of [_processQueue] that awaits it becomes ready to resume. *)
Definition markSettled (pr : nat) (o : Outcome)
    (ds : list (nat * option Outcome)) : list (nat * option Outcome) :=
  map (fun d => if decide (fst d = pr) then (pr, Some o) else d) ds.

(** A [_processSend] that has settled hands its outcome to whoever awaits
    it; one that is suspended ([None]) hands over nothing yet. *)
Definition deliver (c : Caller) (pr : nat) (r : option Outcome * World)
  : World :=
  match r with
  | (None, w) => w
  | (Some o, w) =>
    match c with
    | FromSendEmail => emit (EvSettle pr o) w
    | FromQueue => setDrains (markSettled pr o (drains w)) w
    end
  end.

Definition allFailedMessage (id : string) (lastError : option string)
  : string :=
  "All providers failed for email " +:+ id +:+ ". Last error: "
    +:+ default "Unknown error." lastError.

Section Dispatcher.

Variable cfg : Config.

(** The [_processQueue] that [_processSend] reaches through [this]. *)
Variable processQueueRec : Z -> World -> World.

(** The [for] loop of [_processSend] from index
    [i = providers.length - remaining], run until it is suspended at the
    first provider call ([None]) or has gone through all providers
    ([Some] of the rejection, after both writes of 'failed'). *)
Fixpoint forProviders (remaining : nat) (now : Z) (c : Caller) (pr : nat)
    (e : EmailData) (lastError : option string) (w : World)
  : option Outcome * World :=
  match remaining with
  | O =>
    let w1 := setStatus (emailId e) failed w in
    (Some (Rejected (Error (allFailedMessage (emailId e) lastError))),
     setStatus (emailId e) failed w1)
  | S remaining' =>
    let i := (length (providers cfg) - remaining)%nat in
    let providerIndex :=
      ((currentProviderIndex (service w) + i) mod length (providers cfg))%nat in
    match providers cfg !! providerIndex with
    | None =>
      (* not reached: the list is not empty and the index is below its length *)
      (Some (Rejected (Error "provider is not a function")),
       setStatus (emailId e) failed w)
    | Some provider =>
      let '(blocked, s1) := _isCircuitOpen cfg now provider (service w) in
      let w1 := setService s1 w in
      if blocked then
        forProviders remaining' now c pr e
          (Some ("Circuit open for " +:+ providerName provider)) w1
      else
        let t := mkTask c e i providerIndex provider 0
                   (initialRetryDelay cfg) None false in
        (None, emit (EvInvoke provider e)
                 (setTasks (<[pr := t]> (tasks w1)) w1))
    end
  end.

(** The [finally] block of [_processSend]: it runs when the function is
    left, not when it is suspended. *)
Definition finallyProcessQueue (now : Z) (r : option Outcome * World)
  : option Outcome * World :=
  match r with
  | (Some o, w) => (Some o, processQueueRec now w)
  | (None, w) => (None, w)
  end.

(** [_processSend(emailData)] up to its first suspension. *)
Definition processSendWith (now : Z) (c : Caller) (pr : nat) (e : EmailData)
    (w : World) : option Outcome * World :=
  finallyProcessQueue now
    (forProviders (length (providers cfg)) now c pr e None w).

(** The inner [catch] of [_processSend]: [retryWithBackoff] has thrown an
    error of message [err]; the failure is recorded and the loop goes on
    with the next provider. *)
Definition providerFailed (now : Z) (pr : nat) (t : Task) (err : string)
    (w : World) : option Outcome * World :=
  let w1 := onService (_recordFailure cfg now (t_provider t))
              (setTasks (delete pr (tasks w)) w) in
  finallyProcessQueue now
    (forProviders (length (providers cfg) - S (t_i t)) now (t_caller t) pr
       (t_email t) (Some err) w1).

(** [retryWithBackoff] has left its loop and thrown the exhaustion
    error. *)
Definition providerExhausted (now : Z) (pr : nat) (t : Task)
    (lastError : option Reason) (w : World) : option Outcome * World :=
  providerFailed now pr t
    (exhaustedMessage (maxRetries cfg) (emailId (t_email t)) lastError) w.

(** The promise of [fn()] that task [t] awaits settles with [o]. *)
Definition providerSettled (now : Z) (pr : nat) (t : Task) (o : Outcome)
    (w : World) : option Outcome * World :=
  match o with
  | Resolved result =>
    let w1 := onService (_recordSuccess (t_provider t))
                (setTasks (delete pr (tasks w)) w) in
    let w2 := setStatus (emailId (t_email t)) sent w1 in
    let w3 := onService (set_currentProviderIndex (t_providerIndex t)) w2 in
    finallyProcessQueue now (Some (Resolved result), w3)
  | Rejected error =>
    match messageThrows error with
    | Some typeError => providerFailed now pr t typeError w
    | None =>
      match afterFailure (maxRetries cfg) (t_attempt t) (t_currentDelay t) with
      | (attempt', Some d) =>
        let t' := mkTask (t_caller t) (t_email t) (t_i t) (t_providerIndex t)
                    (t_provider t) attempt' d (Some error) true in
        (None, emit (EvSleep pr d) (setTasks (<[pr := t']> (tasks w)) w))
      | (_, None) => providerExhausted now pr t (Some error) w
      end
    end
  end.

(** The sleep of task [t] is over: back to the [while] test and [fn()]. *)
Definition sleepEnded (now : Z) (pr : nat) (t : Task) (w : World)
  : option Outcome * World :=
  if (t_attempt t <=? maxRetries cfg)%nat then
    let t' := mkTask (t_caller t) (t_email t) (t_i t) (t_providerIndex t)
                (t_provider t) (t_attempt t) (t_currentDelay t)
                (t_lastError t) false in
    (None, emit (EvInvoke (t_provider t) (t_email t))
             (setTasks (<[pr := t']> (tasks w)) w))
  else providerExhausted now pr t (t_lastError t) w.

(** The code of [_processQueue] after its loop. *)
Definition afterLoop (w : World) : World :=
  let w1 := onService (set_isProcessingQueue false) w in
  match emailQueue (service w1) with
  | [] => w1
  | _ :: _ =>
    emit (EvSetTimeout (rateLimitWindowMs cfg + 10))
      (setTimers (S (timers w1)) w1)
  end.

(** The [while] loop of [_processQueue] from its test to the next [await]
    (or to the end of the function). *)
Definition whileQueue (now : Z) (w : World) : World :=
  match emailQueue (service w) with
  | [] => afterLoop w
  | entry :: rest =>
    let '(limited, s1) := _isRateLimited cfg now (service w) in
    if limited then afterLoop (setService s1 w)
    else
      let w1 := setService (set_emailQueue rest s1) w in
      let '(r, w2) :=
        processSendWith now FromQueue (q_promise entry) (q_email entry) w1 in
      setDrains ((q_promise entry, r) :: drains w2) w2
  end.

End Dispatcher.

(** [_processQueue()], by the depth of calls it may still nest:
    [_processQueue] calls [_processSend], whose [finally] calls
    [_processQueue] again. *)
Fixpoint processQueueAt (cfg : Config) (depth : nat) (now : Z) (w : World)
  : World :=
  match depth with
  | O => w
  | S depth' =>
    if isProcessingQueue (service w)
       || bool_decide (emailQueue (service w) = [])
    then w
    else
      whileQueue cfg (processQueueAt cfg depth') now
        (onService (set_isProcessingQueue true) w)
  end.

Section Steps.

Variable cfg : Config.

(** The nested call always finds [isProcessingQueue] set and returns at
    once, so depth 2 is all the code can use (see [processQueueAt_depth]). *)
Definition _processQueue : Z -> World -> World := processQueueAt cfg 2.

Definition _processSend : Z -> Caller -> nat -> EmailData -> World
    -> option Outcome * World :=
  processSendWith cfg _processQueue.

(** The test [!emailId || !to || !subject || !body]. *)
Definition invalidEmail (e : EmailData) : bool :=
  bool_decide (emailId e = "") || bool_decide (to e = "")
  || bool_decide (subject e = "") || bool_decide (body e = "").

Definition alreadySentMessage (id : string) (st : option EmailStatus)
  : string :=
  "Email with ID " +:+ id +:+ " was already sent. Current status: "
    +:+ match st with Some s => statusText s | None => "unknown" end.

(** [sendEmail(emailData)] up to its first suspension; the promise it
    returns is [nextPromise w]. *)
Definition sendEmail (now : Z) (e : EmailData) (w : World) : World :=
  let pr := nextPromise w in
  let w0 := setNextPromise (S pr) w in
  if invalidEmail e then
    emit (EvSettle pr
            (Rejected
               (Error "Email data must include emailId, to, subject, and body.")))
      w0
  else if decide (emailId e ∈ sentEmailIds (service w0)) then
    emit (EvSettle pr
            (Resolved (alreadySentMessage (emailId e)
                         (emailStatuses (service w0) !! emailId e))))
      w0
  else
    let '(limited, s1) := _isRateLimited cfg now (service w0) in
    if limited then
      _processQueue now
        (setService (set_emailQueue (emailQueue s1 ++ [mkEntry e pr]) s1) w0)
    else
      let s2 := set_sentEmailIds ({[emailId e]} ∪ sentEmailIds s1) s1 in
      let s3 := set_emailStatuses (<[emailId e := processing]> (emailStatuses s2)) s2 in
      deliver FromSendEmail pr
        (_processSend now FromSendEmail pr e (setService s3 w0)).

(** The suspended [_processQueue] at position [k] of [drains] resumes with
    the outcome [o] of the entry it awaited: [resolve(result)] or
    [reject(error)], then the loop. *)
Definition drainResumed (now : Z) (k : nat) (pr : nat) (o : Outcome)
    (w : World) : World :=
  whileQueue cfg _processQueue now
    (emit (EvSettle pr o) (setDrains (delete k (drains w)) w)).

(** What the event loop can run next. *)
Inductive Label :=
| CallSendEmail (e : EmailData)
| ProviderSettles (pr : nat) (o : Outcome)
| SleepEnds (pr : nat)
| DrainResumes (pr : nat)
| TimerFires.

(** One turn of the event loop at clock reading [now]; [None] when the
    label has nothing to run in [w]. *)
Definition step (now : Z) (l : Label) (w : World) : option World :=
  match l with
  | CallSendEmail e => Some (sendEmail now e w)
  | ProviderSettles pr o =>
    match tasks w !! pr with
    | Some t =>
      if t_sleeping t then None
      else Some (deliver (t_caller t) pr
                   (providerSettled cfg _processQueue now pr t o w))
    | None => None
    end
  | SleepEnds pr =>
    match tasks w !! pr with
    | Some t =>
      if t_sleeping t then
        Some (deliver (t_caller t) pr (sleepEnded cfg _processQueue now pr t w))
      else None
    | None => None
    end
  | DrainResumes pr =>
    match list_find (fun d => fst d = pr ∧ is_Some (snd d)) (drains w) with
    | Some (k, (_, Some o)) => Some (drainResumed now k pr o w)
    | _ => None
    end
  | TimerFires =>
    match timers w with
    | O => None
    | S n => Some (_processQueue now (setTimers n w))
    end
  end.

(** A schedule: the labels the event loop runs, each with its clock. *)
Fixpoint run (sched : list (Z * Label)) (w : World) : option World :=
  match sched with
  | [] => Some w
  | (now, l) :: rest =>
    match step now l w with
    | Some w' => run rest w'
    | None => None
    end
  end.

End Steps.

(** The world right after [new EmailService(providers, options)]. *)
Definition initialWorld (s : EmailService) : World :=
  mkWorld s ∅ [] 0 0 [].

(** The worlds a service built by the constructor can get into. *)
Definition reachable (cfg : Config) (w : World) : Prop :=
  ∃ ps o s sched,
    constructor ps o = Some (cfg, s) ∧ run cfg sched (initialWorld s) = Some w.

(** ** Vocabulary of the statements *)

(** The attempt failed and [retryWithBackoff] counts it: the promise was
    rejected with a value other than [null] and [undefined]. *)
Definition rejectsWithValue (o : Outcome) : Prop :=
  ∃ error, o = Rejected error ∧ messageThrows error = None.

(** The options object in which every numeric option is given as 0. *)
Definition zeroOptions : Options :=
  mkOptions (Some 0%nat) (Some 0) (Some 0) (Some 0) (Some 0%nat) (Some 0%nat)
    (Some 0) (Some 0%nat).

(** The operations on one provider's circuit, as the dispatcher issues
    them: a blocking check, a recorded failure, a recorded success. *)
Inductive CircuitOp :=
| OpCheck (now : Z)
| OpFailure (now : Z)
| OpSuccess.

Definition applyOp (cfg : Config) (st : CircuitState) (op : CircuitOp)
  : CircuitState :=
  match op with
  | OpCheck now => snd (checkCircuit (circuitBreakerTimeoutMs cfg) now st)
  | OpFailure now => failCircuit (circuitBreakerThreshold cfg) now st
  | OpSuccess => succeedCircuit st
  end.

Definition applyOps (cfg : Config) (st : CircuitState) (ops : list CircuitOp)
  : CircuitState :=
  foldl (applyOp cfg) st ops.

Definition isFailureOp (op : CircuitOp) : bool :=
  match op with OpFailure _ => true | _ => false end.


(** A circuit is open only with at least the threshold of failures on
    its count. *)
Definition armed (cfg : Config) (st : CircuitState) : Prop :=
  isOpen st = true → (circuitBreakerThreshold cfg ≤ failureCount st)%nat.

(** What a blocking check leaves of a circuit state. *)
Definition checked (cfg : Config) (now : Z) (st : CircuitState) : CircuitState :=
  snd (checkCircuit (circuitBreakerTimeoutMs cfg) now st).

(** [cb'] is [cb] after blocking checks at [now] on some of its providers. *)
Definition cbStep (cfg : Config) (now : Z) (cb cb' : gmap nat CircuitState)
  : Prop :=
  ∀ k, cb' !! k = cb !! k ∨ cb' !! k = checked cfg now <$> cb !! k.

(** The two ways the provider loop of [_processSend] can stop: suspended
    at the call of a provider whose circuit let it through, or through
    with every provider, the status set to 'failed'.  In between it has
    only run blocking checks. *)
Inductive ForResult (cfg : Config) (now : Z) (c : Caller) (pr : nat)
    (e : EmailData) (w : World) : option Outcome * World → Prop :=
| ForSuspended cb' t :
    cbStep cfg now (circuitBreakers (service w)) cb' →
    t_caller t = c → t_email t = e → t_sleeping t = false →
    t_attempt t = 0%nat →
    (∀ st, cb' !! pid (t_provider t) = Some st → isOpen st = false) →
    ForResult cfg now c pr e w
      (None,
       emit (EvInvoke (t_provider t) e)
         (setTasks (<[pr := t]> (tasks w))
            (onService (set_circuitBreakers cb') w)))
| ForAllFailed cb' msg :
    cbStep cfg now (circuitBreakers (service w)) cb' →
    ForResult cfg now c pr e w
      (Some (Rejected (Error msg)),
       setStatus (emailId e) failed (onService (set_circuitBreakers cb') w)).

(** How the loop of [_processQueue] gets from its test to its next
    [await], or to the end of the function, when [isProcessingQueue] is
    set: the queue is empty; or the head is denied and a retry is
    scheduled; or the head is taken off and handed to [_processSend], on
    whose promise the loop then waits. *)
Inductive DrainResult (cfg : Config) (now : Z) (w : World) : World → Prop :=
| DrainEmpty :
    emailQueue (service w) = [] →
    DrainResult cfg now w (onService (set_isProcessingQueue false) w)
| DrainLimited en rest :
    emailQueue (service w) = en :: rest →
    (maxRequestsPerWindow cfg
       ≤ length (pruneWindow cfg now (requestTimestamps (service w))))%nat →
    DrainResult cfg now w
      (emit (EvSetTimeout (rateLimitWindowMs cfg + 10))
         (setTimers (S (timers w))
            (onService
               (fun s =>
                  set_isProcessingQueue false
                    (set_requestTimestamps
                       (pruneWindow cfg now (requestTimestamps s)) s))
               w)))
| DrainPopped en rest r w2 :
    emailQueue (service w) = en :: rest →
    (length (pruneWindow cfg now (requestTimestamps (service w)))
       < maxRequestsPerWindow cfg)%nat →
    ForResult cfg now FromQueue (q_promise en) (q_email en)
      (onService
         (fun s =>
            set_emailQueue rest
              (set_requestTimestamps
                 (pruneWindow cfg now (requestTimestamps s) ++ [now]) s))
         w)
      (r, w2) →
    DrainResult cfg now w (setDrains ((q_promise en, r) :: drains w2) w2).

(** ** Invariants *)

(** What holds of the service's own tables in every world it can reach:
    no status is 'pending', the window holds at most
    [maxRequestsPerWindow] timestamps, and every open circuit has its
    threshold of failures. *)
Record Sound (cfg : Config) (w : World) : Prop := mkSound {
  sound_statuses :
    ∀ id st, emailStatuses (service w) !! id = Some st → st ≠ pending;
  sound_window :
    (length (requestTimestamps (service w)) ≤ maxRequestsPerWindow cfg)%nat;
  sound_circuits :
    ∀ k st, circuitBreakers (service w) !! k = Some st → armed cfg st
}.

(** The loop of [_processQueue] from its test to its next [await],
    whatever [isProcessingQueue] holds. *)
Inductive LoopResult (cfg : Config) (now : Z) (w : World) : World → Prop :=
| LoopEmpty :
    emailQueue (service w) = [] →
    LoopResult cfg now w (onService (set_isProcessingQueue false) w)
| LoopLimited en rest :
    emailQueue (service w) = en :: rest →
    (maxRequestsPerWindow cfg
       ≤ length (pruneWindow cfg now (requestTimestamps (service w))))%nat →
    LoopResult cfg now w
      (emit (EvSetTimeout (rateLimitWindowMs cfg + 10))
         (setTimers (S (timers w))
            (onService
               (fun s =>
                  set_isProcessingQueue false
                    (set_requestTimestamps
                       (pruneWindow cfg now (requestTimestamps s)) s))
               w)))
| LoopPopped en rest r w2 :
    emailQueue (service w) = en :: rest →
    (length (pruneWindow cfg now (requestTimestamps (service w)))
       < maxRequestsPerWindow cfg)%nat →
    ForResult cfg now FromQueue (q_promise en) (q_email en)
      (onService
         (fun s =>
            set_emailQueue rest
              (set_requestTimestamps
                 (pruneWindow cfg now (requestTimestamps s) ++ [now]) s))
         w)
      (r, w2) →
    LoopResult cfg now w
      (setDrains
         ((q_promise en, r)
            :: drains (snd (finallyProcessQueue (_processQueue cfg) now (r, w2))))
         (snd (finallyProcessQueue (_processQueue cfg) now (r, w2)))).

(** Task [t] as [retryWithBackoff] leaves it when it goes to sleep for
    [d] ms after an attempt failed with [error]. *)
Definition asleep (t : Task) (d : Z) (error : Reason) : Task :=
  mkTask (t_caller t) (t_email t) (t_i t) (t_providerIndex t) (t_provider t)
    (S (t_attempt t)) d (Some error) true.

(** Task [t] as it is when its sleep is over and [fn()] is called again. *)
Definition awake (t : Task) : Task :=
  mkTask (t_caller t) (t_email t) (t_i t) (t_providerIndex t) (t_provider t)
    (t_attempt t) (t_currentDelay t) (t_lastError t) false.

(** Everything one turn of the event loop can do, by cases. *)
Inductive StepResult (cfg : Config) (now : Z) (w : World)
  : Label → World → Prop :=
| SendInvalid e m :
    invalidEmail e = true →
    StepResult cfg now w (CallSendEmail e)
      (emit (EvSettle (nextPromise w) (Rejected m))
         (setNextPromise (S (nextPromise w)) w))
| SendDuplicate e :
    invalidEmail e = false →
    emailId e ∈ sentEmailIds (service w) →
    StepResult cfg now w (CallSendEmail e)
      (emit (EvSettle (nextPromise w)
               (Resolved (alreadySentMessage (emailId e)
                            (emailStatuses (service w) !! emailId e))))
         (setNextPromise (S (nextPromise w)) w))
| SendQueued e :
    invalidEmail e = false →
    emailId e ∉ sentEmailIds (service w) →
    (maxRequestsPerWindow cfg
       ≤ length (pruneWindow cfg now (requestTimestamps (service w))))%nat →
    StepResult cfg now w (CallSendEmail e)
      (_processQueue cfg now
         (onService
            (fun s =>
               set_emailQueue (emailQueue s ++ [mkEntry e (nextPromise w)])
                 (set_requestTimestamps
                    (pruneWindow cfg now (requestTimestamps s)) s))
            (setNextPromise (S (nextPromise w)) w)))
| SendStarted e r w2 :
    invalidEmail e = false →
    emailId e ∉ sentEmailIds (service w) →
    (length (pruneWindow cfg now (requestTimestamps (service w)))
       < maxRequestsPerWindow cfg)%nat →
    ForResult cfg now FromSendEmail (nextPromise w) e
      (onService
         (fun s =>
            set_emailStatuses (<[emailId e := processing]> (emailStatuses s))
              (set_sentEmailIds ({[emailId e]} ∪ sentEmailIds s)
                 (set_requestTimestamps
                    (pruneWindow cfg now (requestTimestamps s) ++ [now]) s)))
         (setNextPromise (S (nextPromise w)) w))
      (r, w2) →
    StepResult cfg now w (CallSendEmail e)
      (deliver FromSendEmail (nextPromise w)
         (finallyProcessQueue (_processQueue cfg) now (r, w2)))
| SettledOk pr t v :
    tasks w !! pr = Some t → t_sleeping t = false →
    StepResult cfg now w (ProviderSettles pr (Resolved v))
      (deliver (t_caller t) pr
         (Some (Resolved v),
          _processQueue cfg now
            (onService (set_currentProviderIndex (t_providerIndex t))
               (setStatus (emailId (t_email t)) sent
                  (onService (_recordSuccess (t_provider t))
                     (setTasks (delete pr (tasks w)) w))))))
| SettledRetry pr t error d :
    tasks w !! pr = Some t → t_sleeping t = false →
    messageThrows error = None →
    (S (t_attempt t) ≤ maxRetries cfg)%nat →
    d = t_currentDelay t * 2 →
    StepResult cfg now w (ProviderSettles pr (Rejected error))
      (emit (EvSleep pr d)
         (setTasks (<[pr := asleep t d error]> (tasks w)) w))
| SettledLast pr t error r w2 :
    tasks w !! pr = Some t → t_sleeping t = false →
    (messageThrows error = None → (maxRetries cfg < S (t_attempt t))%nat) →
    ForResult cfg now (t_caller t) pr (t_email t)
      (onService (_recordFailure cfg now (t_provider t))
         (setTasks (delete pr (tasks w)) w))
      (r, w2) →
    StepResult cfg now w (ProviderSettles pr (Rejected error))
      (deliver (t_caller t) pr
         (finallyProcessQueue (_processQueue cfg) now (r, w2)))
| SleepOver pr t :
    tasks w !! pr = Some t → t_sleeping t = true →
    (t_attempt t ≤ maxRetries cfg)%nat →
    StepResult cfg now w (SleepEnds pr)
      (emit (EvInvoke (t_provider t) (t_email t))
         (setTasks (<[pr := awake t]> (tasks w)) w))
| SleepLast pr t r w2 :
    tasks w !! pr = Some t → t_sleeping t = true →
    (maxRetries cfg < t_attempt t)%nat →
    ForResult cfg now (t_caller t) pr (t_email t)
      (onService (_recordFailure cfg now (t_provider t))
         (setTasks (delete pr (tasks w)) w))
      (r, w2) →
    StepResult cfg now w (SleepEnds pr)
      (deliver (t_caller t) pr
         (finallyProcessQueue (_processQueue cfg) now (r, w2)))
| Resumed pr k o w' :
    drains w !! k = Some (pr, Some o) →
    LoopResult cfg now
      (emit (EvSettle pr o) (setDrains (delete k (drains w)) w)) w' →
    StepResult cfg now w (DrainResumes pr) w'
| TimerFired n :
    timers w = S n →
    StepResult cfg now w TimerFires (_processQueue cfg now (setTimers n w)).

(** The emails with which the provider of identity [k] was called, newest
    first. *)
Definition invokesOf (k : nat) (tr : list Event) : list EmailData :=
  omap (fun ev =>
          match ev with
          | EvInvoke p e => if decide (pid p = k) then Some e else None
          | _ => None
          end) tr.



(** The promises that have been settled, newest first. *)
Definition settledIds (tr : list Event) : list nat :=
  omap (fun ev => match ev with EvSettle pr _ => Some pr | _ => None end) tr.

(** The promises of the entries waiting in the queue, head first. *)
Definition queuedIds (w : World) : list nat :=
  q_promise <$> emailQueue (service w).

(** The promises that suspended activations of [_processQueue] wait for. *)
Definition drainIds (w : World) : list nat := fst <$> drains w.

(** Every promise [sendEmail] has handed out is in one place only: its
    entry is in the queue, or a [_processQueue] holds it, or a direct
    [_processSend] works for it, or it is settled, once.  [n] is the next
    promise to hand out and [X] says which promises may be around. *)
Record Promises (n : nat) (X : nat → Prop) (w : World) : Prop := mkPromises {
  po_next : nextPromise w = n;
  po_nodup : NoDup (queuedIds w ++ drainIds w ++ settledIds (trace w));
  po_known :
    ∀ pr, pr ∈ queuedIds w ++ drainIds w ++ settledIds (trace w) → X pr;
  po_task :
    ∀ pr t, tasks w !! pr = Some t →
      X pr ∧ (pr ∉ queuedIds w) ∧ (pr ∉ settledIds (trace w)) ∧
      match t_caller t with
      | FromQueue => (pr, None) ∈ drains w
      | FromSendEmail => pr ∉ drainIds w
      end;
  po_ready : ∀ pr o, (pr, Some o) ∈ drains w → tasks w !! pr = None
}.

(** [isProcessingQueue] is set exactly while one [_processQueue] is
    suspended, and there is never a second one. *)
Definition OneDrain (w : World) : Prop :=
  length (drains w) = if isProcessingQueue (service w) then 1%nat else 0%nat.

(** Promise [pr] is nowhere in the world. *)
Definition Unused (pr : nat) (w : World) : Prop :=
  (pr ∉ queuedIds w ++ drainIds w ++ settledIds (trace w))
  ∧ tasks w !! pr = None.

(** The invariant of the queue and the promises. *)
Definition Orderly (w : World) : Prop :=
  Promises (nextPromise w) (fun pr => (pr < nextPromise w)%nat) w ∧ OneDrain w.

(** How many entries of the queue carry the email id [a]. *)
Definition occurrences (a : string) (w : World) : nat :=
  length (filter (fun en => emailId (q_email en) = a) (emailQueue (service w))).

(** No suspended [_processSend] works on an email of id [a]. *)
Definition NoTask (a : string) (w : World) : Prop :=
  ∀ pr t, tasks w !! pr = Some t → emailId (t_email t) ≠ a.

(** Whether the label is a [sendEmail] call that carries the id [a]. *)
Definition submits (a : string) (l : Label) : bool :=
  match l with
  | CallSendEmail e => bool_decide (emailId e = a)
  | _ => false
  end.

(** How many of the [sendEmail] calls of a schedule carry the id [a]. *)
Fixpoint submissions (a : string) (sched : list (Z * Label)) : nat :=
  match sched with
  | [] => 0
  | (_, l) :: rest => (if submits a l then 1 else 0) + submissions a rest
  end.

(** What is known of an id that was submitted [n] times: never submitted,
    it is nowhere; submitted once, it is in the queue at most once, and
    while it is there nothing works on it and it has no status. *)
Definition Once (a : string) (n : nat) (w : World) : Prop :=
  (n = 0%nat →
     occurrences a w = 0%nat ∧ NoTask a w ∧ emailStatuses (service w) !! a = None)
  ∧ (n = 1%nat →
     (occurrences a w ≤ 1)%nat ∧
     (occurrences a w = 1%nat →
        NoTask a w ∧ emailStatuses (service w) !! a = None)).

(** ** Sample services *)

Definition providerA : Provider := mkProvider 1 "providerA".
Definition providerB : Provider := mkProvider 2 "providerB".

(** [new EmailService([providerA])] with no options. *)
Definition defaultConfig : Config :=
  mkConfig [providerA] 3 100 60000 1000 10 3 5000 1.

Definition freshService (ps : list Provider) : EmailService :=
  mkService 0 ∅ [] ∅ [] false (initialBreakers ps).

(** An operation that fails twice and then succeeds. *)
Definition flakyOperation (n : nat) : Outcome :=
  if (n <? 2)%nat then Rejected (Error "temporary failure") else Resolved "delivered".

(** One provider, one retry, and a circuit that opens at the first
    recorded failure. *)
Definition eagerOptions : Options :=
  mkOptions (Some 1%nat) None None None None (Some 1%nat) None None.

Definition eagerConfig : Config :=
  mkConfig [providerA] 1 100 60000 1000 10 1 5000 1.

Definition emailOne : EmailData :=
  mkEmail "m-1" "ann@example.com" "hello" "first body".
Definition emailTwo : EmailData :=
  mkEmail "m-2" "bob@example.com" "hello" "second body".
Definition emailThree : EmailData :=
  mkEmail "m-3" "cat@example.com" "hello" "third body".

(** Where a schedule leads from a fresh service ([initialWorld] itself if
    the schedule cannot run). *)
Definition worldAfter (cfg : Config) (sched : list (Z * Label)) : World :=
  default (initialWorld (freshService (providers cfg)))
    (run cfg sched (initialWorld (freshService (providers cfg)))).

(** Two sends overlap; the first uses up its retries at 203 and opens the
    circuit while the second is still asleep between its two attempts. *)
Definition overlappingSends : list (Z * Label) :=
  [(0, CallSendEmail emailOne);
   (1, CallSendEmail emailTwo);
   (2, ProviderSettles 0 (Rejected (Error "down")));
   (3, ProviderSettles 1 (Rejected (Error "down")));
   (202, SleepEnds 0);
   (203, ProviderSettles 0 (Rejected (Error "down")))].

(** One request per window, so that a second submission inside the window
    is denied and queued. *)
Definition tightOptions : Options :=
  mkOptions None None None None (Some 1%nat) None None None.

Definition tightConfig : Config :=
  mkConfig [providerA] 3 100 60000 1000 1 3 5000 1.

Definition emailX : EmailData :=
  mkEmail "X" "xena@example.com" "hello" "body of X".
Definition emailA1 : EmailData :=
  mkEmail "A" "ann@example.com" "hello" "first".
Definition emailA2 : EmailData :=
  mkEmail "A" "ann@example.com" "hello" "second".

(** X takes the only slot of the window; A is denied and queued, and a
    timer is set for 1011. *)
Definition queueOne : list (Z * Label) :=
  [(0, CallSendEmail emailX); (1, CallSendEmail emailA1)].

(** The same, and at 1005, when the window has passed and the timer has
    not fired yet, A is submitted again while its first submission still
    waits in the queue. *)
Definition resubmitWhileQueued : list (Z * Label) :=
  queueOne ++ [(1005, CallSendEmail emailA2)].

(** The same, and then the timers of the queue fire: at 1011 the window is
    taken by the second submission and a new timer is set, at 2021 the
    first submission of A is taken off the queue. *)
Definition resubmitThenDrain : list (Z * Label) :=
  resubmitWhileQueued ++ [(1011, TimerFires); (2021, TimerFires)].

(** A is denied and queued; X is delivered at 100; the timer of 1011 finds
    the window free and A is sent from the queue and delivered at 1111. *)
Definition resubmitAfterDrain : list (Z * Label) :=
  queueOne ++
  [(100, ProviderSettles 0 (Resolved "sent X"));
   (1011, TimerFires);
   (1110, TimerFires);
   (1111, ProviderSettles 1 (Resolved "sent A"));
   (1111, DrainResumes 1)].

(** One send uses up its two attempts and opens the circuit at 203; after
    the timeout two more sends arrive one millisecond apart. *)
Definition openThenTwoProbes : list (Z * Label) :=
  [(0, CallSendEmail emailOne);
   (2, ProviderSettles 0 (Rejected (Error "down")));
   (202, SleepEnds 0);
   (203, ProviderSettles 0 (Rejected (Error "down")));
   (6000, CallSendEmail emailTwo);
   (6001, CallSendEmail emailThree)].

(** [new EmailService([providerA], {maxRetries: 0})], as the test of the
    circuit breaker builds it, and a send whose every attempt fails. *)
Definition noRetryOptions : Options :=
  mkOptions (Some 0%nat) None None None None None None None.

Definition failingSend : list (Z * Label) :=
  [(0, CallSendEmail emailOne);
   (1, ProviderSettles 0 (Rejected (Error "down")));
   (201, SleepEnds 0);
   (202, ProviderSettles 0 (Rejected (Error "down")));
   (602, SleepEnds 0);
   (603, ProviderSettles 0 (Rejected (Error "down")));
   (1403, SleepEnds 0);
   (1404, ProviderSettles 0 (Rejected (Error "down")))].
(** ** More vocabulary *)

(** The sum of the delays a run slept. *)
Definition totalDelay (sleeps : list Z) : Z := foldr Z.add 0 sleeps.

(** The configuration [cfg] with other values in the two fields that the
    constructor stores and no method reads: [idempotencyWindowMs] and
    [circuitBreakerHalfOpenAttempts]. *)
Definition withUnread (window : Z) (attempts : nat) (cfg : Config) : Config :=
  mkConfig (providers cfg) (maxRetries cfg) (initialRetryDelay cfg) window
    (rateLimitWindowMs cfg) (maxRequestsPerWindow cfg)
    (circuitBreakerThreshold cfg) (circuitBreakerTimeoutMs cfg) attempts.

(** A waiting queue is attended: a [_processQueue] is suspended in its
    loop ([isProcessingQueue]), or a timer is set that will call it. *)
Definition Attended (w : World) : Prop :=
  emailQueue (service w) ≠ [] →
  isProcessingQueue (service w) = true ∨ (0 < timers w)%nat.

(** From [w] to [w'] nothing is forgotten: every remembered id is still
    remembered and every tracked id is still tracked. *)
Definition Grows (w w' : World) : Prop :=
  sentEmailIds (service w) ⊆ sentEmailIds (service w') ∧
  ∀ id, is_Some (emailStatuses (service w) !! id) →
        is_Some (emailStatuses (service w') !! id).

(** ** The provider loop in full *)

(** The provider that the loop of [_processSend] takes in its iteration
    [i]: [this.providers[(this.currentProviderIndex + i) % length]]. *)
Definition rotation (cfg : Config) (s : EmailService) (i : nat)
  : option Provider :=
  providers cfg
    !! ((currentProviderIndex s + i) mod length (providers cfg))%nat.

(** [_isCircuitOpen(p)] answers [true] at clock reading [now]. *)
Definition blocking (cfg : Config) (now : Z) (s : EmailService) (p : Provider)
  : Prop :=
  fst (_isCircuitOpen cfg now p s) = true.

(** The last error of [_processSend] when its loop has run from iteration
    [length - remaining] to the end and found every circuit open. *)
Definition lastCircuitError (cfg : Config) (s : EmailService)
    (remaining : nat) (lastError : option string) : option string :=
  match remaining with
  | O => lastError
  | S _ =>
    match rotation cfg s (length (providers cfg) - 1) with
    | Some p => Some ("Circuit open for " +:+ providerName p)
    | None => lastError
    end
  end.

(** What the loop of [_processSend] does from iteration
    [length - remaining] on: it calls the first provider of the rotation
    whose circuit lets it through, and is suspended there; or every
    circuit blocks, and it writes 'failed' and throws. *)
Inductive ForPick (cfg : Config) (now : Z) (c : Caller) (pr : nat)
    (e : EmailData) (lastError : option string) (remaining : nat) (w : World)
  : option Outcome * World → Prop :=
| PickInvoked i p :
    (length (providers cfg) - remaining ≤ i < length (providers cfg))%nat →
    rotation cfg (service w) i = Some p →
    (∀ j q, (length (providers cfg) - remaining ≤ j < i)%nat →
            rotation cfg (service w) j = Some q → blocking cfg now (service w) q) →
    fst (_isCircuitOpen cfg now p (service w)) = false →
    ForPick cfg now c pr e lastError remaining w
      (None,
       emit (EvInvoke p e)
         (setTasks
            (<[pr := mkTask c e i
                       ((currentProviderIndex (service w) + i)
                          mod length (providers cfg))%nat
                       p 0 (initialRetryDelay cfg) None false]> (tasks w))
            (setService (snd (_isCircuitOpen cfg now p (service w))) w)))
| PickNone :
    (∀ j q, (length (providers cfg) - remaining ≤ j < length (providers cfg))%nat →
            rotation cfg (service w) j = Some q → blocking cfg now (service w) q) →
    ForPick cfg now c pr e lastError remaining w
      (Some (Rejected
               (Error
                  (allFailedMessage (emailId e)
                     (lastCircuitError cfg (service w) remaining lastError)))),
       setStatus (emailId e) failed w).

(** The loop of [_processQueue], with [isProcessingQueue] set, from its
    test to its next [await]: as [DrainResult], with the provider loop in
    full. *)
Inductive DrainPick (cfg : Config) (now : Z) (w : World) : World → Prop :=
| DrainPickEmpty :
    emailQueue (service w) = [] →
    DrainPick cfg now w (onService (set_isProcessingQueue false) w)
| DrainPickLimited en rest :
    emailQueue (service w) = en :: rest →
    (maxRequestsPerWindow cfg
       ≤ length (pruneWindow cfg now (requestTimestamps (service w))))%nat →
    DrainPick cfg now w
      (emit (EvSetTimeout (rateLimitWindowMs cfg + 10))
         (setTimers (S (timers w))
            (onService
               (fun s =>
                  set_isProcessingQueue false
                    (set_requestTimestamps
                       (pruneWindow cfg now (requestTimestamps s)) s))
               w)))
| DrainPickPopped en rest r w2 :
    emailQueue (service w) = en :: rest →
    (length (pruneWindow cfg now (requestTimestamps (service w)))
       < maxRequestsPerWindow cfg)%nat →
    ForPick cfg now FromQueue (q_promise en) (q_email en) None
      (length (providers cfg))
      (onService
         (fun s =>
            set_emailQueue rest
              (set_requestTimestamps
                 (pruneWindow cfg now (requestTimestamps s) ++ [now]) s))
         w)
      (r, w2) →
    DrainPick cfg now w (setDrains ((q_promise en, r) :: drains w2) w2).

(** The error [sendEmail] throws for an incomplete email. *)
Definition incompleteMessage : string :=
  "Email data must include emailId, to, subject, and body.".

(** One turn of the event loop by cases, as [StepResult], with the
    provider loop in full. *)
Inductive Turn (cfg : Config) (now : Z) (w : World) : Label → World → Prop :=
| TurnInvalid e :
    invalidEmail e = true →
    Turn cfg now w (CallSendEmail e)
      (emit (EvSettle (nextPromise w) (Rejected (Error incompleteMessage)))
         (setNextPromise (S (nextPromise w)) w))
| TurnDuplicate e :
    invalidEmail e = false →
    emailId e ∈ sentEmailIds (service w) →
    Turn cfg now w (CallSendEmail e)
      (emit (EvSettle (nextPromise w)
               (Resolved (alreadySentMessage (emailId e)
                            (emailStatuses (service w) !! emailId e))))
         (setNextPromise (S (nextPromise w)) w))
| TurnQueued e :
    invalidEmail e = false →
    emailId e ∉ sentEmailIds (service w) →
    (maxRequestsPerWindow cfg
       ≤ length (pruneWindow cfg now (requestTimestamps (service w))))%nat →
    Turn cfg now w (CallSendEmail e)
      (_processQueue cfg now
         (onService
            (fun s =>
               set_emailQueue (emailQueue s ++ [mkEntry e (nextPromise w)])
                 (set_requestTimestamps
                    (pruneWindow cfg now (requestTimestamps s)) s))
            (setNextPromise (S (nextPromise w)) w)))
| TurnStarted e r w2 :
    invalidEmail e = false →
    emailId e ∉ sentEmailIds (service w) →
    (length (pruneWindow cfg now (requestTimestamps (service w)))
       < maxRequestsPerWindow cfg)%nat →
    ForPick cfg now FromSendEmail (nextPromise w) e None
      (length (providers cfg))
      (onService
         (fun s =>
            set_emailStatuses (<[emailId e := processing]> (emailStatuses s))
              (set_sentEmailIds ({[emailId e]} ∪ sentEmailIds s)
                 (set_requestTimestamps
                    (pruneWindow cfg now (requestTimestamps s) ++ [now]) s)))
         (setNextPromise (S (nextPromise w)) w))
      (r, w2) →
    Turn cfg now w (CallSendEmail e)
      (deliver FromSendEmail (nextPromise w)
         (finallyProcessQueue (_processQueue cfg) now (r, w2)))
| TurnDelivered pr t v :
    tasks w !! pr = Some t → t_sleeping t = false →
    Turn cfg now w (ProviderSettles pr (Resolved v))
      (deliver (t_caller t) pr
         (Some (Resolved v),
          _processQueue cfg now
            (onService (set_currentProviderIndex (t_providerIndex t))
               (setStatus (emailId (t_email t)) sent
                  (onService (_recordSuccess (t_provider t))
                     (setTasks (delete pr (tasks w)) w))))))
| TurnThrew pr t error typeError r w2 :
    tasks w !! pr = Some t → t_sleeping t = false →
    messageThrows error = Some typeError →
    ForPick cfg now (t_caller t) pr (t_email t) (Some typeError)
      (length (providers cfg) - S (t_i t))
      (onService (_recordFailure cfg now (t_provider t))
         (setTasks (delete pr (tasks w)) w))
      (r, w2) →
    Turn cfg now w (ProviderSettles pr (Rejected error))
      (deliver (t_caller t) pr
         (finallyProcessQueue (_processQueue cfg) now (r, w2)))
| TurnRetry pr t error :
    tasks w !! pr = Some t → t_sleeping t = false →
    messageThrows error = None →
    (S (t_attempt t) ≤ maxRetries cfg)%nat →
    Turn cfg now w (ProviderSettles pr (Rejected error))
      (emit (EvSleep pr (t_currentDelay t * 2))
         (setTasks
            (<[pr := asleep t (t_currentDelay t * 2) error]> (tasks w)) w))
| TurnExhausted pr t error r w2 :
    tasks w !! pr = Some t → t_sleeping t = false →
    messageThrows error = None →
    (maxRetries cfg < S (t_attempt t))%nat →
    ForPick cfg now (t_caller t) pr (t_email t)
      (Some (exhaustedMessage (maxRetries cfg) (emailId (t_email t))
               (Some error)))
      (length (providers cfg) - S (t_i t))
      (onService (_recordFailure cfg now (t_provider t))
         (setTasks (delete pr (tasks w)) w))
      (r, w2) →
    Turn cfg now w (ProviderSettles pr (Rejected error))
      (deliver (t_caller t) pr
         (finallyProcessQueue (_processQueue cfg) now (r, w2)))
| TurnWoken pr t :
    tasks w !! pr = Some t → t_sleeping t = true →
    (t_attempt t ≤ maxRetries cfg)%nat →
    Turn cfg now w (SleepEnds pr)
      (emit (EvInvoke (t_provider t) (t_email t))
         (setTasks (<[pr := awake t]> (tasks w)) w))
| TurnOverslept pr t r w2 :
    tasks w !! pr = Some t → t_sleeping t = true →
    (maxRetries cfg < t_attempt t)%nat →
    ForPick cfg now (t_caller t) pr (t_email t)
      (Some (exhaustedMessage (maxRetries cfg) (emailId (t_email t))
               (t_lastError t)))
      (length (providers cfg) - S (t_i t))
      (onService (_recordFailure cfg now (t_provider t))
         (setTasks (delete pr (tasks w)) w))
      (r, w2) →
    Turn cfg now w (SleepEnds pr)
      (deliver (t_caller t) pr
         (finallyProcessQueue (_processQueue cfg) now (r, w2)))
| TurnResumed pr k o :
    drains w !! k = Some (pr, Some o) →
    Turn cfg now w (DrainResumes pr)
      (whileQueue cfg (_processQueue cfg) now
         (emit (EvSettle pr o) (setDrains (delete k (drains w)) w)))
| TurnTimer n :
    timers w = S n →
    Turn cfg now w TimerFires (_processQueue cfg now (setTimers n w)).

(** ** More invariants *)

(** The provider calls of a trace, newest first. *)
Definition invocations (tr : list Event) : list (Provider * EmailData) :=
  omap (fun ev => match ev with EvInvoke p e => Some (p, e) | _ => None end) tr.

(** The backoff delays of a trace, newest first. *)
Definition backoffs (tr : list Event) : list Z :=
  omap (fun ev => match ev with EvSleep _ d => Some d | _ => None end) tr.

(** A suspended [_processSend] is in the middle of the attempts against a
    listed provider, with a complete email, within its budget of retries
    and with the delay the doubling has reached; it sleeps only after an
    attempt. *)
Definition TaskOk (cfg : Config) (t : Task) : Prop :=
  providers cfg !! t_providerIndex t = Some (t_provider t) ∧
  (t_i t < length (providers cfg))%nat ∧
  invalidEmail (t_email t) = false ∧
  (t_attempt t ≤ maxRetries cfg)%nat ∧
  t_currentDelay t = initialRetryDelay cfg * 2 ^ Z.of_nat (t_attempt t) ∧
  (t_sleeping t = true → (1 ≤ t_attempt t)%nat).

(** What else holds in every world the service can reach. *)
Record Tidy (cfg : Config) (w : World) : Prop := mkTidy {
  tidy_index :
    (currentProviderIndex (service w) < length (providers cfg))%nat;
  tidy_tasks : ∀ pr t, tasks w !! pr = Some t → TaskOk cfg t;
  tidy_circuits :
    ∀ k, is_Some (circuitBreakers (service w) !! k) ↔ k ∈ pid <$> providers cfg;
  tidy_queue :
    ∀ en, en ∈ emailQueue (service w) → invalidEmail (q_email en) = false;
  tidy_invoked :
    ∀ p e, (p, e) ∈ invocations (trace w) →
           p ∈ providers cfg ∧ invalidEmail e = false;
  tidy_slept :
    ∀ d, d ∈ backoffs (trace w) →
         ∃ k, (1 ≤ k ≤ maxRetries cfg)%nat ∧
              d = initialRetryDelay cfg * 2 ^ Z.of_nat k;
  tidy_tracked :
    ∀ id, id ∈ sentEmailIds (service w) →
          is_Some (emailStatuses (service w) !! id)
}.

(** The promise [pr] of a [_processSend] has settled with [o]: for a
    direct send the promise of [sendEmail] settles in the same turn; for
    an entry of the queue the suspended [_processQueue] is ready to resume
    with [o]. *)
Definition handedOver (c : Caller) (pr : nat) (o : Outcome) (w : World)
  : Prop :=
  match c with
  | FromSendEmail => head (trace w) = Some (EvSettle pr o)
  | FromQueue => (pr, Some o) ∈ drains w
  end.

(** An upper bound on the turns a suspended send still takes: the
    providers it has not used up, with [2 * maxRetries + 1] turns each
    (an attempt, and a sleep and an attempt for each retry), less what it
    has spent on the current one. *)
Definition turnsLeft (cfg : Config) (t : Task) : nat :=
  (length (providers cfg) - t_i t) * (2 * maxRetries cfg + 1)
  + (if t_sleeping t then 1 else 0) - 2 * t_attempt t.

(** Promise [pr] is somewhere: its entry waits in the queue, a
    [_processQueue] holds it, it is settled, or a [_processSend] works for
    it. *)
Definition placed (pr : nat) (w : World) : Prop :=
  pr ∈ queuedIds w ∨ pr ∈ drainIds w ∨ pr ∈ settledIds (trace w)
  ∨ is_Some (tasks w !! pr).

(** Every promise [sendEmail] has handed out is somewhere. *)
Definition Accounted (w : World) : Prop :=
  ∀ pr, (pr < nextPromise w)%nat → placed pr w.

(** ** The mock providers (providers.js) *)

(** What a mock provider does, given the number that [Math.random()]
    returns in its timer: after [m_latency] ms its promise settles with
    [m_outcome]. *)
Record MockRun := mkMock {
  m_latency : Z;
  m_outcome : Outcome
}.

(** [Math.random() < successRate] on rationals. *)
Definition belowRate (draw rate : QArith_base.Q) : bool :=
  negb (QArith_base.Qle_bool rate draw).

(** [mockProvider1(to, subject, body, successRate = 0.7)]. *)
Definition mockProvider1 (to subject body : string)
    (successRate : option QArith_base.Q) (draw : QArith_base.Q) : MockRun :=
  let rate := default (QArith_base.Qmake 7 10) successRate in
  mkMock 100
    (if belowRate draw rate
     then Resolved ("Email sent successfully via Provider 1 to " +:+ to)
     else Rejected (Error ("Failed to send email via Provider 1 to " +:+ to))).

(** [mockProvider2(to, subject, body, successRate = 0.9)]. *)
Definition mockProvider2 (to subject body : string)
    (successRate : option QArith_base.Q) (draw : QArith_base.Q) : MockRun :=
  let rate := default (QArith_base.Qmake 9 10) successRate in
  mkMock 150
    (if belowRate draw rate
     then Resolved ("Email sent successfully via Provider 2 to " +:+ to)
     else Rejected (Error ("Failed to send email via Provider 2 to " +:+ to))).

(** Two providers, one retry, and circuits that open at the first
    recorded failure. *)
Definition pairOptions : Options :=
  mkOptions (Some 1%nat) None None None None (Some 1%nat) None None.

Definition pairConfig : Config :=
  mkConfig [providerA; providerB] 1 100 60000 1000 10 1 5000 1.

(** One send uses up its two attempts against the first provider, whose
    circuit opens at 203; with two providers the send goes on to the
    second one in the same turn. *)
Definition firstProviderDown : list (Z * Label) :=
  [(0, CallSendEmail emailOne);
   (2, ProviderSettles 0 (Rejected (Error "down")));
   (202, SleepEnds 0);
   (203, ProviderSettles 0 (Rejected (Error "down")))].

(** The first attempt of a send is rejected with [null]. *)
Definition rejectedWithNull : list (Z * Label) :=
  [(0, CallSendEmail emailOne); (2, ProviderSettles 0 (Rejected Null))].

(** The same, and the second provider delivers at 300. *)
Definition secondProviderDelivers : list (Z * Label) :=
  firstProviderDown ++ [(300, ProviderSettles 0 (Resolved "sent by B"))].

(** The queue of [w'] is the queue of [w], or that queue without its
    head, whose promise a [_processQueue] then holds. *)
Definition served (w w' : World) : Prop :=
  emailQueue (service w') = emailQueue (service w)
  ∨ ∃ en, emailQueue (service w) = en :: emailQueue (service w') ∧
          q_promise en ∈ drainIds w'.


(** The provider calls of a trace for emails of id [a], newest first. *)
Definition callsFor (a : string) (tr : list Event)
  : list (Provider * EmailData) :=
  filter (fun pe => emailId (snd pe) = a) (invocations tr).

(** Nothing is pending for the id [a]: no entry of the queue carries it
    and no suspended [_processSend] works on it. *)
Definition Idle (a : string) (w : World) : Prop :=
  occurrences a w = 0%nat ∧ NoTask a w.

(** From [w] to [w'] the id [a] is left alone: nothing is pending for
    it in [w'], its status is the same and no provider was called for
    it. *)
Definition Kept (a : string) (w w' : World) : Prop :=
  Idle a w' ∧
  emailStatuses (service w') !! a = emailStatuses (service w) !! a ∧
  callsFor a (trace w') = callsFor a (trace w).

(** A is queued and submitted again at 1005; the second submission is let
    through and delivered at 1105, and its id is remembered.  At 2021 the
    first submission is taken off the queue; its provider call is
    rejected with [null] at 2121. *)
Definition queuedAfterRemembered : list (Z * Label) :=
  resubmitWhileQueued ++
  [(1011, TimerFires);
   (1105, ProviderSettles 2 (Resolved "sent A"));
   (2021, TimerFires);
   (2121, ProviderSettles 1 (Rejected Null))].


(** * Properties *)

(** ** The backoff executor *)

Lemma string_append_assoc (a b c : string) :
  (a +:+ b) +:+ c = a +:+ (b +:+ c).
Proof.
  induction a as [|x a IH]; [reflexivity|].
  change (String x ((a +:+ b) +:+ c) = String x (a +:+ (b +:+ c))).
  by rewrite IH.
Qed.

Lemma exhaustedMessage_suffix mr id m :
  ∃ pre, exhaustedMessage mr id (Some (Error m)) = pre +:+ m.
Proof.
  exists ("Failed after " +:+ pretty (mr + 1)%nat +:+ " attempts for email "
            +:+ id +:+ ". Last error: ").
  unfold exhaustedMessage; cbn [messageOr].
  by rewrite !string_append_assoc.
Qed.

Lemma afterFailure_retry mr attempt d :
  (S attempt ≤ mr)%nat →
  afterFailure mr attempt d = (S attempt, Some (d * 2)).
Proof.
  intros H. unfold afterFailure.
  destruct (Nat.leb_spec (S attempt) mr); [done | lia].
Qed.

Lemma afterFailure_stop mr attempt d :
  (mr < S attempt)%nat → afterFailure mr attempt d = (S attempt, None).
Proof.
  intros H. unfold afterFailure.
  destruct (Nat.leb_spec (S attempt) mr); [lia | done].
Qed.

(** One iteration of the loop. *)
Lemma retryLoop_S fn mr id fuel attempt d le calls sl :
  retryLoop fn mr id (S fuel) attempt d le calls sl
  = if (attempt <=? mr)%nat then
      match fn calls with
      | Resolved v => mkRun (Resolved v) (S calls) sl
      | Rejected error =>
        match messageThrows error with
        | Some typeError => mkRun (Rejected (Error typeError)) (S calls) sl
        | None =>
          match afterFailure mr attempt d with
          | (attempt', Some d') =>
            retryLoop fn mr id fuel attempt' d' (Some error) (S calls)
              (sl ++ [d'])
          | (attempt', None) =>
            retryLoop fn mr id fuel attempt' d (Some error) (S calls) sl
          end
        end
      end
    else mkRun (Rejected (Error (exhaustedMessage mr id le))) calls sl.
Proof. reflexivity. Qed.

(** An operation that keeps failing with a value uses up the loop: every
    iteration left is one invocation, and the error thrown in the end is
    made from the last rejection. *)
Lemma retryLoop_all_rejected fn mr id :
  ∀ fuel attempt d le calls sl,
    (attempt + S fuel = S mr)%nat →
    (∀ n, (calls ≤ n < calls + S fuel)%nat → rejectsWithValue (fn n)) →
    let r := retryLoop fn mr id (S fuel) attempt d le calls sl in
    r_calls r = (calls + S fuel)%nat ∧
    ∃ error,
      fn (calls + fuel)%nat = Rejected error ∧
      r_outcome r = Rejected (Error (exhaustedMessage mr id (Some error))).
Proof.
  induction fuel as [|fuel IH]; intros attempt d le calls sl Hm Hrej.
  - destruct (Hrej calls) as (error & Hfn & Hmsg); [lia|].
    cbv zeta. rewrite retryLoop_S.
    destruct (Nat.leb_spec attempt mr); [|lia].
    rewrite Hfn, Hmsg, afterFailure_stop by lia. cbn.
    replace (calls + 0)%nat with calls by lia.
    split; [lia|]. by exists error.
  - destruct (Hrej calls) as (error & Hfn & Hmsg); [lia|].
    cbv zeta. rewrite retryLoop_S.
    destruct (Nat.leb_spec attempt mr); [|lia].
    rewrite Hfn, Hmsg, afterFailure_retry by lia.
    destruct (IH (S attempt) (d * 2) (Some error) (S calls) (sl ++ [d * 2]))
      as (Hc & error' & Hlast & Ho); [lia | intros n Hn; apply Hrej; lia |].
    cbv zeta in Hc, Ho. rewrite Hc. split; [lia|].
    exists error'. split; [|done].
    by replace (calls + S fuel)%nat with (S calls + fuel)%nat by lia.
Qed.

Lemma doubled_delays_shift (d : Z) (n a : nat) :
  map (fun k => d * 2 * 2 ^ Z.of_nat k) (seq a n)
    = map (fun k => d * 2 ^ Z.of_nat k) (seq (S a) n).
Proof.
  revert a. induction n as [|n IH]; intros a; [done|].
  cbn [seq map]. rewrite IH. f_equal.
  rewrite Nat2Z.inj_succ, Z.pow_succ_r by lia. lia.
Qed.

(** The delays slept by a run in which every attempt fails with a value:
    each is twice the one before, and the first is twice the delay passed
    in. *)
Lemma retryLoop_sleeps fn mr id :
  ∀ fuel attempt d le calls sl,
    (attempt + S fuel = S mr)%nat →
    (∀ n, (calls ≤ n < calls + S fuel)%nat → rejectsWithValue (fn n)) →
    r_sleeps (retryLoop fn mr id (S fuel) attempt d le calls sl) =
      sl ++ map (fun k => d * 2 ^ Z.of_nat k) (seq 1 fuel).
Proof.
  induction fuel as [|fuel IH]; intros attempt d le calls sl Hm Hrej.
  - destruct (Hrej calls) as (error & Hfn & Hmsg); [lia|].
    rewrite retryLoop_S. destruct (Nat.leb_spec attempt mr); [|lia].
    rewrite Hfn, Hmsg, afterFailure_stop by lia. cbn. by rewrite app_nil_r.
  - destruct (Hrej calls) as (error & Hfn & Hmsg); [lia|].
    rewrite retryLoop_S. destruct (Nat.leb_spec attempt mr); [|lia].
    rewrite Hfn, Hmsg, afterFailure_retry by lia.
    rewrite (IH (S attempt) (d * 2) (Some error) (S calls) (sl ++ [d * 2]));
      [| lia | intros n Hn; apply Hrej; lia].
    rewrite <- app_assoc. f_equal. rewrite doubled_delays_shift.
    cbn [seq map app]. f_equal; lia.
Qed.

(** An operation whose first success is its invocation number [j] (from 0),
    after failures with a value, is invoked [j + 1] times, and that result
    is returned. *)
Lemma retryLoop_first_success fn mr id :
  ∀ j fuel attempt d le calls sl v,
    (attempt + fuel = S mr)%nat → (j < fuel)%nat →
    (∀ n, (calls ≤ n < calls + j)%nat → rejectsWithValue (fn n)) →
    fn (calls + j)%nat = Resolved v →
    let r := retryLoop fn mr id fuel attempt d le calls sl in
    r_outcome r = Resolved v ∧ r_calls r = S (calls + j).
Proof.
  induction j as [|j IH]; intros fuel attempt d le calls sl v Hm Hj Hrej Hok;
    (destruct fuel as [|fuel]; [lia|]).
  - replace (calls + 0)%nat with calls in * by lia.
    cbv zeta. rewrite retryLoop_S. destruct (Nat.leb_spec attempt mr); [|lia].
    rewrite Hok. cbn. split; [done | lia].
  - destruct (Hrej calls) as (error & Hfn & Hmsg); [lia|].
    cbv zeta. rewrite retryLoop_S. destruct (Nat.leb_spec attempt mr); [|lia].
    rewrite Hfn, Hmsg, afterFailure_retry by lia.
    destruct (IH fuel (S attempt) (d * 2) (Some error) (S calls)
                (sl ++ [d * 2]) v)
      as [Ho Hc]; [lia | lia | intros n Hn; apply Hrej; lia | | ].
    + by replace (S calls + j)%nat with (calls + S j)%nat by lia.
    + cbv zeta in Ho, Hc. rewrite Ho, Hc. split; [done | lia].
Qed.

(** The whole call when every attempt fails with a value. *)
Lemma retryWithBackoff_all_rejected fn mr delay id :
  (∀ n, rejectsWithValue (fn n)) →
  r_calls (retryWithBackoff fn mr delay id) = S mr ∧
  ∃ error,
    fn mr = Rejected error ∧
    r_outcome (retryWithBackoff fn mr delay id)
      = Rejected (Error (exhaustedMessage mr id (Some error))).
Proof.
  intros Hrej. unfold retryWithBackoff.
  destruct (retryLoop_all_rejected fn mr id mr 0%nat delay None 0%nat [])
    as [Hc Ho]; [lia | intros n _; apply Hrej |].
  cbv zeta in Hc, Ho. by rewrite Hc.
Qed.

(** The attempts of the operations whose failures are rejections
    with an [Error]: one that fails on every invocation is invoked exactly
    [maxRetries + 1] times, after which [retryWithBackoff] rejects with the
    exhaustion error, whose message ends in the message of the last
    underlying error; one that first succeeds on attempt
    [k <= maxRetries + 1] is invoked exactly [k] times and the result of
    that attempt is returned. *)
Lemma retryWithBackoff_attempt_count :
  ∀ (fn : nat → Outcome) (mr : nat) (delay : Z) (id : string),
    ((∀ n, ∃ m, fn n = Rejected (Error m)) →
       r_calls (retryWithBackoff fn mr delay id) = (mr + 1)%nat ∧
       ∃ m pre,
         fn mr = Rejected (Error m) ∧
         r_outcome (retryWithBackoff fn mr delay id)
           = Rejected (Error (exhaustedMessage mr id (Some (Error m)))) ∧
         exhaustedMessage mr id (Some (Error m)) = pre +:+ m) ∧
    (∀ k v,
       (1 ≤ k ≤ mr + 1)%nat →
       (∀ n, (n < k - 1)%nat → rejectsWithValue (fn n)) →
       fn (k - 1)%nat = Resolved v →
       r_outcome (retryWithBackoff fn mr delay id) = Resolved v ∧
       r_calls (retryWithBackoff fn mr delay id) = k).
Proof.
  intros fn mr delay id. split.
  - intros Hrej.
    destruct (retryWithBackoff_all_rejected fn mr delay id)
      as (Hc & error & Hlast & Ho).
    { intros n. destruct (Hrej n) as [m Hm]. by exists (Error m). }
    split; [rewrite Hc; lia|].
    destruct (Hrej mr) as [m Hm].
    destruct (exhaustedMessage_suffix mr id m) as [pre Hpre].
    exists m, pre. split; [done|]. split; [|done].
    rewrite Ho. rewrite Hm in Hlast. by injection Hlast as <-.
  - intros k v Hk Hrej Hok. unfold retryWithBackoff.
    destruct (retryLoop_first_success fn mr id (k - 1)%nat (S mr) 0%nat delay
                None 0%nat [] v) as [Ho Hc];
      [lia | lia | intros n Hn; apply Hrej; lia | done |].
    cbv zeta in Ho, Hc. split; [done|]. rewrite Hc. lia.
Qed.

(** When the first rejection with [null] or [undefined] comes at
    invocation number [j], [retryWithBackoff] ends there: the catch block
    throws while it reads [error.message], and the TypeError is what the
    call rejects with. *)
Lemma retryLoop_throws fn mr id :
  ∀ j fuel attempt d le calls sl error typeError,
    (attempt + fuel = S mr)%nat → (j < fuel)%nat →
    (∀ n, (calls ≤ n < calls + j)%nat → rejectsWithValue (fn n)) →
    fn (calls + j)%nat = Rejected error →
    messageThrows error = Some typeError →
    let r := retryLoop fn mr id fuel attempt d le calls sl in
    r_outcome r = Rejected (Error typeError) ∧ r_calls r = S (calls + j).
Proof.
  induction j as [|j IH];
    intros fuel attempt d le calls sl error typeError Hm Hj Hrej Hbad Hthrows;
    (destruct fuel as [|fuel]; [lia|]).
  - replace (calls + 0)%nat with calls in * by lia.
    cbv zeta. rewrite retryLoop_S. destruct (Nat.leb_spec attempt mr); [|lia].
    rewrite Hbad, Hthrows. cbn. split; [done | lia].
  - destruct (Hrej calls) as (error0 & Hfn & Hmsg); [lia|].
    cbv zeta. rewrite retryLoop_S. destruct (Nat.leb_spec attempt mr); [|lia].
    rewrite Hfn, Hmsg, afterFailure_retry by lia.
    destruct (IH fuel (S attempt) (d * 2) (Some error0) (S calls)
                (sl ++ [d * 2]) error typeError)
      as [Ho Hc]; [lia | lia | intros n Hn; apply Hrej; lia | | done | ].
    + by replace (S calls + j)%nat with (calls + S j)%nat by lia.
    + cbv zeta in Ho, Hc. rewrite Ho, Hc. split; [done | lia].
Qed.

(** C6. At the failing input: with three retries allowed, an operation
    that rejects with [null] on every invocation is invoked once, not
    four times; nothing is slept, and [retryWithBackoff] rejects with the
    TypeError of its own catch block, not with the exhaustion error
    'Failed after 4 attempts ...'. *)
Example retryWithBackoff_stops_at_null_rejection :
  r_calls (retryWithBackoff (fun _ => Rejected Null) 3 100 "id-1") = 1%nat ∧
  r_sleeps (retryWithBackoff (fun _ => Rejected Null) 3 100 "id-1") = [] ∧
  r_outcome (retryWithBackoff (fun _ => Rejected Null) 3 100 "id-1")
    = Rejected (Error "Cannot read properties of null (reading 'message')").
Proof. repeat split. Qed.

(** The operation of the sample [flakyOperation] is invoked three times. *)
Example flaky_operation_third_attempt :
  r_outcome (retryWithBackoff flakyOperation 3 100 "id-1") = Resolved "delivered"
  ∧ r_calls (retryWithBackoff flakyOperation 3 100 "id-1") = 3%nat.
Proof.
  refine (proj2 (retryWithBackoff_attempt_count flakyOperation 3 100 "id-1")
            3%nat "delivered" _ _ _).
  - lia.
  - intros n Hn. unfold flakyOperation.
    destruct (Nat.ltb_spec n 2); [by eexists | lia].
  - reflexivity.
Qed.

(** The delays of a run whose attempts all fail. *)
Lemma retryWithBackoff_delays fn mr delay id :
  (∀ n, rejectsWithValue (fn n)) →
  r_sleeps (retryWithBackoff fn mr delay id)
    = map (fun k => delay * 2 ^ Z.of_nat k) (seq 1 mr).
Proof.
  intros Hrej. unfold retryWithBackoff.
  rewrite (retryLoop_sleeps fn mr id mr 0%nat delay None 0%nat []);
    [done | lia | intros n _; apply Hrej].
Qed.

(** At the failing input of C5 (one retry, delay 100, every attempt
    fails) the only delay slept is 200, not 100. *)
Example retryWithBackoff_first_delay_doubled :
  r_sleeps (retryWithBackoff (fun _ => Rejected (Error "down")) 1 100 "id-1") = [200].
Proof. reflexivity. Qed.

(** ** Construction *)

Lemma constructor_config ps o cfg s :
  constructor ps o = Some (cfg, s) →
  cfg = mkConfig ps
          (orDefaultNat (o_maxRetries o) 3)
          (orDefaultZ (o_initialRetryDelay o) 100)
          (orDefaultZ (o_idempotencyWindowMs o) 60000)
          (orDefaultZ (o_rateLimitWindowMs o) 1000)
          (orDefaultNat (o_maxRequestsPerWindow o) 10)
          (orDefaultNat (o_circuitBreakerThreshold o) 3)
          (orDefaultZ (o_circuitBreakerTimeoutMs o) 5000)
          (orDefaultNat (o_circuitBreakerHalfOpenAttempts o) 1)
  ∧ s = mkService 0 ∅ [] ∅ [] false (initialBreakers ps)
  ∧ ps ≠ [].
Proof.
  unfold constructor. destruct ps as [|p ps]; [done|].
  intros [= <- <-]. done.
Qed.

(** C9. Whatever else the options hold, a numeric option passed as 0 is
    replaced by its default (3, 100, 60000, 1000, 10, 3, 5000, 1); with
    [maxRetries: 0] the service therefore retries with a budget of 3, and an
    operation that always fails (each time with an error, or any value
    other than [null] and [undefined]) is invoked 4 times by
    [retryWithBackoff]. *)
Theorem constructor_zero_means_default :
  ∀ ps o cfg s,
    constructor ps o = Some (cfg, s) →
    (o_maxRetries o = Some 0%nat → maxRetries cfg = 3%nat) ∧
    (o_initialRetryDelay o = Some 0 → initialRetryDelay cfg = 100) ∧
    (o_idempotencyWindowMs o = Some 0 → idempotencyWindowMs cfg = 60000) ∧
    (o_rateLimitWindowMs o = Some 0 → rateLimitWindowMs cfg = 1000) ∧
    (o_maxRequestsPerWindow o = Some 0%nat → maxRequestsPerWindow cfg = 10%nat) ∧
    (o_circuitBreakerThreshold o = Some 0%nat →
       circuitBreakerThreshold cfg = 3%nat) ∧
    (o_circuitBreakerTimeoutMs o = Some 0 → circuitBreakerTimeoutMs cfg = 5000) ∧
    (o_circuitBreakerHalfOpenAttempts o = Some 0%nat →
       circuitBreakerHalfOpenAttempts cfg = 1%nat) ∧
    (o_maxRetries o = Some 0%nat →
       ∀ fn id, (∀ n, rejectsWithValue (fn n)) →
         r_calls (retryWithBackoff fn (maxRetries cfg) (initialRetryDelay cfg) id)
           = 4%nat).
Proof.
  intros ps o cfg s Hc.
  destruct (constructor_config _ _ _ _ Hc) as (-> & _ & _). cbn.
  repeat split; try (intros ->; reflexivity).
  intros -> fn id Hrej. cbn [orDefaultNat Nat.eqb].
  destruct (retryWithBackoff_all_rejected fn 3
              (orDefaultZ (o_initialRetryDelay o) 100) id Hrej) as [Hcalls _].
  exact Hcalls.
Qed.

Lemma constructor_zero_means_default_witness :
  maxRetries defaultConfig = 3%nat.
Proof.
  refine (proj1 (constructor_zero_means_default [providerA]
                   (mkOptions (Some 0%nat) None None None None None None None)
                   defaultConfig (freshService [providerA]) _) _);
    reflexivity.
Defined.

(** The same on the event loop: built with [maxRetries: 0], the service
    calls the failing provider four times, sleeping 200, 400 and 800 ms in
    between, before it gives the send up. *)
Example zero_retries_run_four_attempts :
  ∃ w,
    constructor [providerA] noRetryOptions
      = Some (defaultConfig, freshService [providerA]) ∧
    run defaultConfig failingSend (initialWorld (freshService [providerA]))
      = Some w ∧
    invokesOf (pid providerA) (trace w)
      = [emailOne; emailOne; emailOne; emailOne] ∧
    getEmailStatus "m-1" (service w) = Some failed ∧
    trace w
      = [EvSettle 0
           (Rejected
              (Error
                 (allFailedMessage "m-1"
                    (Some (exhaustedMessage 3 "m-1" (Some (Error "down")))))));
         EvInvoke providerA emailOne; EvSleep 0 800;
         EvInvoke providerA emailOne; EvSleep 0 400;
         EvInvoke providerA emailOne; EvSleep 0 200;
         EvInvoke providerA emailOne].
Proof.
  eexists. split; [reflexivity|].
  split; [vm_compute; reflexivity|].
  repeat split; vm_compute; reflexivity.
Qed.

(** ** The circuit breaker of one provider *)


Lemma checkCircuit_blocking t now st :
  isOpen st = true → now - lastFailureTime st ≤ t →
  checkCircuit t now st = (true, st).
Proof.
  intros Ho Ht. unfold checkCircuit. rewrite Ho.
  destruct (Z.ltb_spec t (now - lastFailureTime st)); [lia | done].
Qed.

Lemma checkCircuit_half_open t now st :
  isOpen st = true → t < now - lastFailureTime st →
  checkCircuit t now st
    = (false, mkCircuit false (lastFailureTime st) (failureCount st) 0).
Proof.
  intros Ho Ht. unfold checkCircuit. rewrite Ho.
  destruct (Z.ltb_spec t (now - lastFailureTime st)); [done | lia].
Qed.

Lemma checkCircuit_closed t now st :
  isOpen st = false → checkCircuit t now st = (false, st).
Proof. intros Ho. unfold checkCircuit. by rewrite Ho. Qed.

Lemma checkCircuit_true t now st st' :
  checkCircuit t now st = (true, st') →
  st' = st ∧ isOpen st = true ∧ now - lastFailureTime st ≤ t.
Proof.
  unfold checkCircuit. destruct (isOpen st); [|done].
  destruct (Z.ltb_spec t (now - lastFailureTime st)); [done|].
  intros [= <-]. done.
Qed.

Lemma failCircuit_count th now st :
  failureCount (failCircuit th now st) = S (failureCount st).
Proof. unfold failCircuit. by case_match. Qed.

Lemma failCircuit_time th now st :
  lastFailureTime (failCircuit th now st) = now.
Proof. unfold failCircuit. by case_match. Qed.

Lemma failCircuit_opens th now st :
  (th ≤ S (failureCount st))%nat → isOpen (failCircuit th now st) = true.
Proof.
  intros H. unfold failCircuit. destruct (isOpen st); cbn; [done|].
  destruct (Nat.leb_spec th (S (failureCount st))); [done | lia].
Qed.

Lemma succeedCircuit_closed st :
  isOpen (succeedCircuit st) = false ∧ failureCount (succeedCircuit st) = 0%nat.
Proof. done. Qed.


Lemma applyOp_armed cfg st op : armed cfg st → armed cfg (applyOp cfg st op).
Proof.
  unfold armed. intros Ha. destruct op as [now|now|]; cbn.
  - unfold checkCircuit. destruct (isOpen st) eqn:Ho; cbn.
    + destruct (circuitBreakerTimeoutMs cfg <? now - lastFailureTime st); cbn;
        [done | rewrite Ho; auto].
    + rewrite Ho. done.
  - unfold failCircuit.
    destruct (isOpen st) eqn:Ho; cbn.
    + intros _. specialize (Ha eq_refl). lia.
    + destruct (Nat.leb_spec (circuitBreakerThreshold cfg) (S (failureCount st)));
        cbn; [done | done].
  - done.
Qed.

Lemma applyOps_armed cfg ops :
  ∀ st, armed cfg st → armed cfg (applyOps cfg st ops).
Proof.
  unfold applyOps. induction ops as [|op ops IH]; intros st Ha; [done|].
  cbn [foldl]. by apply IH, applyOp_armed.
Qed.

(** The half-open round trip on a circuit that was opened by the code:
    once the timeout has passed the check lets the request through and
    keeps the count; a success then closes the circuit with count 0, a
    failure at [now'] opens it again with [now'] as the last failure. *)
Lemma half_open_round_trip cfg st now now' :
  armed cfg st → isOpen st = true →
  circuitBreakerTimeoutMs cfg < now - lastFailureTime st →
  let probe := checkCircuit (circuitBreakerTimeoutMs cfg) now st in
  fst probe = false ∧
  isOpen (snd probe) = false ∧
  failureCount (snd probe) = failureCount st ∧
  succeedCircuit (snd probe) = mkCircuit false (lastFailureTime st) 0 0 ∧
  isOpen (failCircuit (circuitBreakerThreshold cfg) now' (snd probe)) = true ∧
  lastFailureTime (failCircuit (circuitBreakerThreshold cfg) now' (snd probe))
    = now'.
Proof.
  intros Ha Ho Ht. cbv zeta. rewrite checkCircuit_half_open by done. cbn [fst snd].
  repeat split; try done.
  - apply failCircuit_opens. cbn. specialize (Ha Ho). lia.
  - apply failCircuit_time.
Qed.

(** ** What the functions of the dispatcher leave behind *)

Lemma service_eta s :
  mkService (currentProviderIndex s) (sentEmailIds s) (requestTimestamps s)
    (emailStatuses s) (emailQueue s) (isProcessingQueue s) (circuitBreakers s)
  = s.
Proof. by destruct s. Qed.

Lemma world_eta w :
  mkWorld (service w) (tasks w) (drains w) (timers w) (nextPromise w) (trace w)
  = w.
Proof. by destruct w. Qed.

Lemma set_circuitBreakers_same s : set_circuitBreakers (circuitBreakers s) s = s.
Proof. by destruct s. Qed.

Lemma onService_same_breakers w :
  onService (set_circuitBreakers (circuitBreakers (service w))) w = w.
Proof. destruct w as [s ? ? ? ? ?]. by destruct s. Qed.

Lemma checked_idem cfg now st :
  checked cfg now (checked cfg now st) = checked cfg now st.
Proof.
  unfold checked, checkCircuit.
  destruct (isOpen st) eqn:Ho; cbn; [|by rewrite Ho].
  destruct (circuitBreakerTimeoutMs cfg <? now - lastFailureTime st) eqn:Ht;
    cbn; [done|]. by rewrite Ho, Ht.
Qed.

Lemma checkCircuit_false_closed t now st :
  fst (checkCircuit t now st) = false →
  isOpen (snd (checkCircuit t now st)) = false.
Proof.
  unfold checkCircuit. destruct (isOpen st) eqn:Ho; cbn; [|done].
  by destruct (t <? now - lastFailureTime st).
Qed.

Lemma cbStep_refl cfg now cb : cbStep cfg now cb cb.
Proof. intros k. by left. Qed.

Lemma cbStep_trans cfg now cb1 cb2 cb3 :
  cbStep cfg now cb1 cb2 → cbStep cfg now cb2 cb3 → cbStep cfg now cb1 cb3.
Proof.
  intros H12 H23 k. destruct (H23 k) as [-> | ->], (H12 k) as [-> | ->]; auto.
  right. destruct (cb1 !! k); cbn; [|done]. by rewrite checked_idem.
Qed.

Lemma cbStep_check cfg now cb k st :
  cb !! k = Some st → cbStep cfg now cb (<[k := checked cfg now st]> cb).
Proof.
  intros Hk j. destruct (decide (k = j)) as [<- | Hne].
  - right. by rewrite lookup_insert_eq, Hk.
  - left. by rewrite lookup_insert_ne.
Qed.

(** The service after [_isCircuitOpen]: only the checked provider's state
    can differ. *)
Lemma isCircuitOpen_form cfg now p s :
  ∃ cb',
    snd (_isCircuitOpen cfg now p s) = set_circuitBreakers cb' s ∧
    cbStep cfg now (circuitBreakers s) cb' ∧
    (fst (_isCircuitOpen cfg now p s) = false →
       ∀ st, cb' !! pid p = Some st → isOpen st = false).
Proof.
  unfold _isCircuitOpen. destruct (circuitBreakers s !! pid p) as [st|] eqn:Hp.
  - destruct (checkCircuit (circuitBreakerTimeoutMs cfg) now st) as [b st'] eqn:Hc.
    exists (<[pid p := st']> (circuitBreakers s)). cbn [fst snd].
    assert (st' = checked cfg now st) as -> by (unfold checked; by rewrite Hc).
    split; [done|]. split; [by apply cbStep_check|].
    intros -> st0. rewrite lookup_insert_eq. intros [= <-].
    apply checkCircuit_false_closed. by rewrite Hc.
  - exists (circuitBreakers s). cbn [fst snd].
    split; [by rewrite set_circuitBreakers_same|].
    split; [apply cbStep_refl|]. intros _ st. by rewrite Hp.
Qed.

Lemma setStatus_twice id st w :
  setStatus id st (setStatus id st w) = setStatus id st w.
Proof.
  unfold setStatus, onService, setService, set_emailStatuses. cbn.
  by rewrite insert_insert_eq.
Qed.

(** The provider loop ends in one of the two shapes of [ForResult]. *)
Lemma forProviders_result cfg :
  ∀ remaining now c pr e le w,
    ForResult cfg now c pr e w (forProviders cfg remaining now c pr e le w).
Proof.
  induction remaining as [|remaining IH]; intros now c pr e le w.
  - cbn [forProviders]. rewrite setStatus_twice.
    rewrite <- (onService_same_breakers w) at 2.
    apply ForAllFailed, cbStep_refl.
  - cbn [forProviders].
    destruct (providers cfg !! _) as [provider|] eqn:Hp.
    + destruct (isCircuitOpen_form cfg now provider (service w))
        as (cb1 & Hs & Hstep & Hclosed).
      destruct (_isCircuitOpen cfg now provider (service w)) as [blocked s1].
      cbn [fst snd] in Hs, Hclosed. subst s1. destruct blocked.
      * specialize (IH now c pr e
          (Some ("Circuit open for " +:+ providerName provider))
          (setService (set_circuitBreakers cb1 (service w)) w)).
        inversion IH as [cb' t Hst Hc He Hsl Hat Hcl Heq | cb' msg Hst Heq].
        -- replace (emit _ _) with
             (emit (EvInvoke (t_provider t) e)
                (setTasks (<[pr := t]> (tasks w))
                   (onService (set_circuitBreakers cb') w))) by done.
           apply ForSuspended; try done. by eapply cbStep_trans.
        -- replace (setStatus _ _ _) with
             (setStatus (emailId e) failed
                (onService (set_circuitBreakers cb') w)) by done.
           apply ForAllFailed. by eapply cbStep_trans.
      * match goal with
        | |- ForResult _ _ _ _ _ _ (None, emit _ (setTasks (<[pr := ?t]> _) _)) =>
          change (ForResult cfg now c pr e w
                    (None,
                     emit (EvInvoke (t_provider t) e)
                       (setTasks (<[pr := t]> (tasks w))
                          (onService (set_circuitBreakers cb1) w))))
        end.
        apply ForSuspended; auto.
    + rewrite <- (onService_same_breakers w) at 2.
      apply ForAllFailed, cbStep_refl.
Qed.

(** ** Rate limiting and the queue *)

Lemma isRateLimited_cases cfg now s :
  let kept := pruneWindow cfg now (requestTimestamps s) in
  ((maxRequestsPerWindow cfg ≤ length kept)%nat ∧
   _isRateLimited cfg now s = (true, set_requestTimestamps kept s))
  ∨ ((length kept < maxRequestsPerWindow cfg)%nat ∧
     _isRateLimited cfg now s = (false, set_requestTimestamps (kept ++ [now]) s)).
Proof.
  cbv zeta. unfold _isRateLimited.
  destruct (Nat.leb_spec (maxRequestsPerWindow cfg)
              (length (pruneWindow cfg now (requestTimestamps s)))); auto.
Qed.

Lemma pruneWindow_idem cfg now ts :
  pruneWindow cfg now (pruneWindow cfg now ts) = pruneWindow cfg now ts.
Proof.
  unfold pruneWindow. induction ts as [|t ts IH]; [done|].
  rewrite filter_cons. case_decide as H; [|done].
  rewrite filter_cons. case_decide; [|done]. by rewrite IH.
Qed.

Lemma pruneWindow_length cfg now ts :
  (length (pruneWindow cfg now ts) ≤ length ts)%nat.
Proof. apply length_filter. Qed.

(** A re-entrant call: while [isProcessingQueue] is set, [_processQueue]
    returns at once. *)
Lemma processQueueAt_busy cfg d now w :
  isProcessingQueue (service w) = true → processQueueAt cfg d now w = w.
Proof. intros H. destruct d; cbn [processQueueAt]; [done|]. by rewrite H. Qed.

Lemma processQueueAt_empty cfg d now w :
  emailQueue (service w) = [] → processQueueAt cfg d now w = w.
Proof.
  intros H. destruct d; cbn [processQueueAt]; [done|]. rewrite H.
  by rewrite orb_true_r.
Qed.

Lemma ForResult_flag cfg now c pr e w r w' :
  ForResult cfg now c pr e w (r, w') →
  isProcessingQueue (service w') = isProcessingQueue (service w).
Proof. inversion 1; subst; done. Qed.

(** With [isProcessingQueue] set, the loop does one of the three things
    of [DrainResult], whatever the depth of the nested calls. *)
Lemma whileQueue_busy cfg d now w :
  isProcessingQueue (service w) = true →
  DrainResult cfg now w (whileQueue cfg (processQueueAt cfg d) now w).
Proof.
  intros Hflag. unfold whileQueue.
  destruct (emailQueue (service w)) as [|en rest] eqn:Hq.
  - unfold afterLoop. cbn. rewrite Hq. by apply DrainEmpty.
  - destruct (isRateLimited_cases cfg now (service w)) as [[Hlen ->] | [Hlen ->]].
    + unfold afterLoop. cbn. rewrite Hq. by eapply DrainLimited.
    + unfold processSendWith.
      pose proof (forProviders_result cfg (length (providers cfg)) now FromQueue
                    (q_promise en) (q_email en) None
                    (setService
                       (set_emailQueue rest
                          (set_requestTimestamps
                             (pruneWindow cfg now (requestTimestamps (service w))
                                ++ [now]) (service w))) w)) as Hfor.
      destruct (forProviders _ _ _ _ _ _ _ _) as [r w2] eqn:Hfp.
      assert (isProcessingQueue (service w2) = true) as Hflag2.
      { erewrite ForResult_flag by exact Hfor. done. }
      destruct r as [o|]; cbn [finallyProcessQueue].
      * rewrite processQueueAt_busy by done.
        eapply DrainPopped; [done | done | exact Hfor].
      * eapply DrainPopped; [done | done | exact Hfor].
Qed.

(** [_processQueue] either returns at its guard or sets the flag and runs
    the loop. *)
Lemma processQueueAt_form cfg d now w :
  (processQueueAt cfg (S d) now w = w ∧
   (isProcessingQueue (service w) = true ∨ emailQueue (service w) = []))
  ∨ (isProcessingQueue (service w) = false ∧ emailQueue (service w) ≠ [] ∧
     DrainResult cfg now (onService (set_isProcessingQueue true) w)
       (processQueueAt cfg (S d) now w)).
Proof.
  cbn [processQueueAt].
  destruct (isProcessingQueue (service w)) eqn:Hflag; cbn [orb]; [by left; auto|].
  destruct (emailQueue (service w)) as [|en rest] eqn:Hq.
  - left. rewrite bool_decide_eq_true_2 by done. auto.
  - right. rewrite bool_decide_eq_false_2 by done.
    split; [done|]. split; [done|]. by apply whileQueue_busy.
Qed.


(** ** The service's tables stay sound *)

Ltac ws :=
  cbn [service tasks drains timers nextPromise trace setService onService
       setTasks setDrains setTimers setNextPromise emit setStatus deliver
       currentProviderIndex sentEmailIds requestTimestamps emailStatuses
       emailQueue isProcessingQueue circuitBreakers set_currentProviderIndex
       set_sentEmailIds set_requestTimestamps set_emailStatuses set_emailQueue
       set_isProcessingQueue set_circuitBreakers fst snd] in *.

Lemma checked_armed cfg now st : armed cfg st → armed cfg (checked cfg now st).
Proof. apply (applyOp_armed cfg st (OpCheck now)). Qed.

Lemma cbStep_armed cfg now cb cb' :
  cbStep cfg now cb cb' →
  (∀ k st, cb !! k = Some st → armed cfg st) →
  ∀ k st, cb' !! k = Some st → armed cfg st.
Proof.
  intros Hstep Ha k st Hk. destruct (Hstep k) as [Heq | Heq]; rewrite Heq in Hk.
  - by eapply Ha.
  - destruct (cb !! k) as [st0|] eqn:Hk0; [|done]. cbn in Hk.
    inversion Hk; subst. eapply checked_armed, Ha, Hk0.
Qed.

Lemma Sound_for cfg now c pr e w r w' :
  Sound cfg w → ForResult cfg now c pr e w (r, w') → Sound cfg w'.
Proof.
  intros [Hs Hw Hc]. inversion 1; subst; split; ws; try done.
  - by eapply cbStep_armed.
  - intros id st. rewrite lookup_insert. case_decide; [by intros [= <-] | apply Hs].
  - by eapply cbStep_armed.
Qed.

Lemma Sound_drain cfg now w w' :
  Sound cfg w → DrainResult cfg now w w' → Sound cfg w'.
Proof.
  intros HS. inversion 1 as [Hq | en rest Hq Hlen | en rest r w2 Hq Hlen Hfor];
    subst.
  - destruct HS. by split.
  - destruct HS as [Hs Hw Hc]. split; ws; try done.
    etrans; [apply pruneWindow_length|done].
  - eapply Sound_for in Hfor; [destruct Hfor; by split|].
    destruct HS as [Hs Hw Hc]. split; ws; try done.
    rewrite length_app. cbn [length]. lia.
Qed.

Lemma Sound_processQueueAt cfg d now w :
  Sound cfg w → Sound cfg (processQueueAt cfg d now w).
Proof.
  intros HS. destruct d; [done|].
  destruct (processQueueAt_form cfg d now w) as [[-> _] | (_ & _ & Hd)]; [done|].
  eapply Sound_drain; [|exact Hd]. destruct HS. by split.
Qed.

Lemma alter_as_insert {A} (f : A → A) (k : nat) (m : gmap nat A) x :
  m !! k = Some x → <[k := f x]> m = alter f k m.
Proof.
  intros Hk. apply map_eq. intros j. rewrite lookup_alter, lookup_insert.
  case_decide; [by rewrite Hk | done].
Qed.

Lemma alter_absent {A} (f : A → A) (k : nat) (m : gmap nat A) :
  m !! k = None → alter f k m = m.
Proof.
  intros Hk. apply map_eq. intros j. rewrite lookup_alter.
  case_decide; [subst; by rewrite Hk | done].
Qed.

(** [_recordFailure] and [_recordSuccess] rewrite one provider's state. *)
Lemma recordFailure_form cfg now p s :
  _recordFailure cfg now p s
  = set_circuitBreakers
      (alter (failCircuit (circuitBreakerThreshold cfg) now) (pid p)
         (circuitBreakers s)) s.
Proof.
  unfold _recordFailure. destruct (circuitBreakers s !! pid p) eqn:Hp.
  - by erewrite alter_as_insert.
  - by rewrite alter_absent, set_circuitBreakers_same.
Qed.

Lemma recordSuccess_form p s :
  _recordSuccess p s
  = set_circuitBreakers (alter succeedCircuit (pid p) (circuitBreakers s)) s.
Proof.
  unfold _recordSuccess. destruct (circuitBreakers s !! pid p) eqn:Hp.
  - by erewrite alter_as_insert.
  - by rewrite alter_absent, set_circuitBreakers_same.
Qed.

Lemma onService_recordFailure cfg now p w :
  onService (_recordFailure cfg now p) w
  = onService
      (fun s =>
         set_circuitBreakers
           (alter (failCircuit (circuitBreakerThreshold cfg) now) (pid p)
              (circuitBreakers s)) s) w.
Proof. unfold onService. by rewrite recordFailure_form. Qed.

Lemma onService_recordSuccess p w :
  onService (_recordSuccess p) w
  = onService
      (fun s =>
         set_circuitBreakers (alter succeedCircuit (pid p) (circuitBreakers s)) s)
      w.
Proof. unfold onService. by rewrite recordSuccess_form. Qed.

Lemma Sound_recordFailure cfg now p w :
  Sound cfg w → Sound cfg (onService (_recordFailure cfg now p) w).
Proof.
  intros [Hs Hw Hc]. unfold onService. rewrite recordFailure_form.
  split; ws; try done.
  intros k st'. rewrite lookup_alter. case_decide; [|apply Hc]. subst k.
  destruct (circuitBreakers (service w) !! pid p) as [st|] eqn:Hp; [|done].
  intros [= <-]. apply (applyOp_armed cfg st (OpFailure now)). eauto.
Qed.

Lemma Sound_recordSuccess cfg p w :
  Sound cfg w → Sound cfg (onService (_recordSuccess p) w).
Proof.
  intros [Hs Hw Hc]. unfold onService. rewrite recordSuccess_form.
  split; ws; try done.
  intros k st'. rewrite lookup_alter. case_decide; [|apply Hc]. subst k.
  destruct (circuitBreakers (service w) !! pid p) as [st|] eqn:Hp; [|done].
  by intros [= <-].
Qed.

Lemma Sound_frame cfg w w' :
  emailStatuses (service w') = emailStatuses (service w) →
  requestTimestamps (service w') = requestTimestamps (service w) →
  circuitBreakers (service w') = circuitBreakers (service w) →
  Sound cfg w → Sound cfg w'.
Proof. intros H1 H2 H3 [Hs Hw Hc]. split; by rewrite ?H1, ?H2, ?H3. Qed.

(** [H] proves soundness of a world with the same three tables. *)
Ltac sound_frame H := refine (Sound_frame _ _ _ _ _ _ H); reflexivity.

Lemma Sound_setStatus cfg id st w :
  st ≠ pending → Sound cfg w → Sound cfg (setStatus id st w).
Proof.
  intros Hne [Hs Hw Hc]. split; ws; try done.
  intros id' st'. rewrite lookup_insert. case_decide; [by intros [= <-] | apply Hs].
Qed.

Lemma Sound_deliver cfg c pr r w :
  Sound cfg w → Sound cfg (deliver c pr (r, w)).
Proof. intros HS. destruct r as [o|], c; sound_frame HS. Qed.

Lemma Sound_finally cfg d now r w :
  Sound cfg w →
  Sound cfg (snd (finallyProcessQueue (processQueueAt cfg d) now (r, w))).
Proof. intros HS. destruct r; cbn; [by apply Sound_processQueueAt | done]. Qed.

Lemma finally_fst pq now r w :
  fst (finallyProcessQueue pq now (r, w)) = r.
Proof. by destruct r. Qed.

Lemma Sound_providerFailed cfg d now pr t err w :
  Sound cfg w →
  Sound cfg (snd (providerFailed cfg (processQueueAt cfg d) now pr t err w)).
Proof.
  intros HS. unfold providerFailed.
  pose proof (forProviders_result cfg (length (providers cfg) - S (t_i t)) now
                (t_caller t) pr (t_email t) (Some err)
                (onService (_recordFailure cfg now (t_provider t))
                   (setTasks (delete pr (tasks w)) w))) as Hfor.
  destruct (forProviders _ _ _ _ _ _ _ _) as [r w2].
  apply Sound_finally. eapply Sound_for; [|exact Hfor].
  apply Sound_recordFailure. sound_frame HS.
Qed.

Lemma Sound_providerExhausted cfg d now pr t le w :
  Sound cfg w →
  Sound cfg (snd (providerExhausted cfg (processQueueAt cfg d) now pr t le w)).
Proof. apply Sound_providerFailed. Qed.

Lemma Sound_sendEmail cfg now e w : Sound cfg w → Sound cfg (sendEmail cfg now e w).
Proof.
  intros HS. unfold sendEmail.
  destruct (invalidEmail e); [sound_frame HS|].
  case_decide; [sound_frame HS|].
  destruct (isRateLimited_cases cfg now (service (setNextPromise (S (nextPromise w)) w)))
    as [[Hlen ->] | [Hlen ->]].
  - apply Sound_processQueueAt. destruct HS as [Hs Hw Hc]. split; ws; try done.
    etrans; [apply pruneWindow_length|done].
  - unfold _processSend, processSendWith.
    match goal with
    | |- context [forProviders cfg ?n now ?c ?pr e None ?w0] =>
      pose proof (forProviders_result cfg n now c pr e None w0) as Hfor;
      destruct (forProviders cfg n now c pr e None w0) as [r w2]
    end.
    match goal with
    | |- Sound _ (deliver _ _ ?x) =>
      rewrite (surjective_pairing x), finally_fst
    end.
    apply Sound_deliver, Sound_finally. eapply Sound_for; [|exact Hfor].
    destruct HS as [Hs Hw Hc]. split; ws; try done.
    + intros id st. rewrite lookup_insert.
      case_decide; [by intros [= <-] | apply Hs].
    + rewrite length_app. cbn [length]. lia.
Qed.

(** Every turn of the event loop keeps the tables sound. *)
Lemma Sound_step cfg now l w w' :
  Sound cfg w → step cfg now l w = Some w' → Sound cfg w'.
Proof.
  intros HS. destruct l as [e | pr o | pr | pr | ]; cbn [step].
  - intros [= <-]. by apply Sound_sendEmail.
  - destruct (tasks w !! pr) as [t|]; [|done].
    destruct (t_sleeping t); [done|]. intros [= <-].
    match goal with
    | |- Sound _ (deliver _ _ ?x) => rewrite (surjective_pairing x)
    end.
    apply Sound_deliver. unfold providerSettled. destruct o as [v|m].
    + apply Sound_finally.
      assert (Sound cfg
                (setStatus (emailId (t_email t)) sent
                   (onService (_recordSuccess (t_provider t))
                      (setTasks (delete pr (tasks w)) w)))) as HS2.
      { apply Sound_setStatus; [done|]. apply Sound_recordSuccess.
        sound_frame HS. }
      sound_frame HS2.
    + destruct (messageThrows m); [by apply Sound_providerFailed|].
      destruct (afterFailure _ _ _) as [a [d|]].
      * sound_frame HS.
      * by apply Sound_providerExhausted.
  - destruct (tasks w !! pr) as [t|]; [|done].
    destruct (t_sleeping t); [|done]. intros [= <-].
    match goal with
    | |- Sound _ (deliver _ _ ?x) => rewrite (surjective_pairing x)
    end.
    apply Sound_deliver. unfold sleepEnded. case_match.
    + sound_frame HS.
    + by apply Sound_providerExhausted.
  - destruct (list_find _ _) as [[k [pr' [o|]]]|]; [|done..].
    intros [= <-]. unfold drainResumed, whileQueue, _processQueue.
    match goal with
    | |- context [emit ?ev (setDrains ?ds w)] =>
      set (w1 := emit ev (setDrains ds w));
      assert (Sound cfg w1) as HS1 by (sound_frame HS)
    end.
    destruct (emailQueue (service w1)) as [|en rest] eqn:Hq.
    { unfold afterLoop. ws. rewrite Hq. sound_frame HS. }
    destruct (isRateLimited_cases cfg now (service w1)) as [[Hlen ->] | [Hlen ->]].
    { unfold afterLoop. ws. rewrite Hq. destruct HS as [Hs Hw Hc].
      split; ws; try done. etrans; [apply pruneWindow_length|done]. }
    unfold processSendWith.
    match goal with
    | |- context [forProviders cfg ?n now ?c ?p ?e None ?w0] =>
      pose proof (forProviders_result cfg n now c p e None w0) as Hfor;
      destruct (forProviders cfg n now c p e None w0) as [r w2]
    end.
    match goal with
    | |- context [finallyProcessQueue ?pq now (r, w2)] =>
      pose proof (Sound_finally cfg 2 now r w2) as Hfin;
      destruct (finallyProcessQueue pq now (r, w2)) as [r' w3]
    end.
    cbn [snd] in Hfin.
    assert (Sound cfg w3) as HS3.
    { apply Hfin. eapply Sound_for; [|exact Hfor].
      destruct HS as [Hs Hw Hc]. split; ws; try done.
      rewrite length_app. cbn [length]. lia. }
    sound_frame HS3.
  - destruct (timers w) as [|n]; [done|]. intros [= <-].
    apply Sound_processQueueAt. sound_frame HS.
Qed.


Lemma Sound_run cfg sched :
  ∀ w w', Sound cfg w → run cfg sched w = Some w' → Sound cfg w'.
Proof.
  induction sched as [|[now l] sched IH]; intros w w' HS; cbn [run].
  - by intros [= <-].
  - destruct (step cfg now l w) as [w1|] eqn:Hstep; [|done].
    apply IH. by eapply Sound_step.
Qed.

Lemma initialBreakers_closed ps k st :
  initialBreakers ps !! k = Some st → st = closedCircuit.
Proof.
  unfold initialBreakers. intros H.
  apply elem_of_list_to_map_2, list_elem_of_fmap in H as (p & [= _ ->] & _).
  done.
Qed.

Lemma Sound_reachable cfg w : reachable cfg w → Sound cfg w.
Proof.
  intros (ps & o & s & sched & Hc & Hrun).
  eapply Sound_run; [|exact Hrun].
  destruct (constructor_config _ _ _ _ Hc) as (_ & -> & _).
  split; cbn; [done | lia |].
  intros k st Hk. apply initialBreakers_closed in Hk as ->. done.
Qed.

Lemma reachable_initial ps o cfg s :
  constructor ps o = Some (cfg, s) → reachable cfg (initialWorld s).
Proof. intros H. by exists ps, o, s, []. Qed.

Lemma reachable_step cfg now l w w' :
  reachable cfg w → step cfg now l w = Some w' → reachable cfg w'.
Proof.
  intros (ps & o & s & sched & Hc & Hrun) Hstep.
  exists ps, o, s, (sched ++ [(now, l)]). split; [done|].
  clear Hc. revert Hrun. generalize (initialWorld s).
  induction sched as [|[n0 l0] sched IH]; intros w0; cbn [run app].
  - intros [= ->]. by rewrite Hstep.
  - destruct (step cfg n0 l0 w0); [apply IH | done].
Qed.

Lemma pruneWindow_elem cfg now ts t :
  t ∈ pruneWindow cfg now ts ↔ t ∈ ts ∧ now - t < rateLimitWindowMs cfg.
Proof. unfold pruneWindow. rewrite list_elem_of_filter. tauto. Qed.

(** C7. In every world the service can reach, an admission check at clock
    [now] keeps of the window exactly the timestamps younger than
    [rateLimitWindowMs] (so every older one is gone), denies if and only if
    the kept ones number [maxRequestsPerWindow] or more, records nothing
    when it denies and [now] at the end when it lets the request through,
    and leaves at most [maxRequestsPerWindow] timestamps. *)
Theorem isRateLimited_window :
  ∀ cfg w now,
    reachable cfg w →
    let ts := requestTimestamps (service w) in
    let kept := pruneWindow cfg now ts in
    let r := _isRateLimited cfg now (service w) in
    (∀ t, t ∈ kept ↔ t ∈ ts ∧ now - t < rateLimitWindowMs cfg) ∧
    (∀ t, rateLimitWindowMs cfg < now - t → t ∉ kept) ∧
    (fst r = true ↔ (maxRequestsPerWindow cfg ≤ length kept)%nat) ∧
    (fst r = true → requestTimestamps (snd r) = kept) ∧
    (fst r = false → requestTimestamps (snd r) = kept ++ [now]) ∧
    (length (requestTimestamps (snd r)) ≤ maxRequestsPerWindow cfg)%nat.
Proof.
  intros cfg w now Hreach. cbv zeta.
  pose proof (sound_window _ _ (Sound_reachable _ _ Hreach)) as Hw.
  pose proof (pruneWindow_length cfg now (requestTimestamps (service w))) as Hp.
  split; [intros t; apply pruneWindow_elem|].
  split; [intros t Ht Hin; apply pruneWindow_elem in Hin; lia|].
  destruct (isRateLimited_cases cfg now (service w)) as [[Hlen ->] | [Hlen ->]];
    cbn [fst snd requestTimestamps set_requestTimestamps].
  - repeat split; try done. lia.
  - repeat split; try done; try lia.
    rewrite length_app. cbn [length]. lia.
Qed.

Lemma isRateLimited_window_witness :
  (length (requestTimestamps
             (snd (_isRateLimited defaultConfig 5 (freshService [providerA]))))
   ≤ maxRequestsPerWindow defaultConfig)%nat.
Proof.
  refine (proj2 (proj2 (proj2 (proj2 (proj2
    (isRateLimited_window defaultConfig
       (initialWorld (freshService [providerA])) 5 _)))))).
  exists [providerA], noOptions, (freshService [providerA]), [].
  split; reflexivity.
Defined.

(** ** One turn of the event loop, by cases *)

Lemma whileQueue_result cfg now w :
  LoopResult cfg now w (whileQueue cfg (_processQueue cfg) now w).
Proof.
  unfold whileQueue.
  destruct (emailQueue (service w)) as [|en rest] eqn:Hq.
  - unfold afterLoop. cbn. rewrite Hq. by apply LoopEmpty.
  - destruct (isRateLimited_cases cfg now (service w)) as [[Hlen ->] | [Hlen ->]].
    + unfold afterLoop. cbn. rewrite Hq. by eapply LoopLimited.
    + unfold processSendWith.
      pose proof (forProviders_result cfg (length (providers cfg)) now FromQueue
                    (q_promise en) (q_email en) None
                    (setService
                       (set_emailQueue rest
                          (set_requestTimestamps
                             (pruneWindow cfg now (requestTimestamps (service w))
                                ++ [now]) (service w))) w)) as Hfor.
      destruct (forProviders _ _ _ _ _ _ _ _) as [r w2] eqn:Hfp.
      pose proof (LoopPopped cfg now w en rest r w2 Hq Hlen Hfor) as HL.
      destruct (finallyProcessQueue (_processQueue cfg) now (r, w2)) as [r' w3] eqn:Hfin.
      assert (r' = r) as ->.
      { pose proof (finally_fst (_processQueue cfg) now r w2) as Hf.
        by rewrite Hfin in Hf. }
      exact HL.
Qed.

Lemma providerFailed_result cfg now pr t err w :
  ∃ r w2,
    ForResult cfg now (t_caller t) pr (t_email t)
      (onService (_recordFailure cfg now (t_provider t))
         (setTasks (delete pr (tasks w)) w))
      (r, w2) ∧
    providerFailed cfg (_processQueue cfg) now pr t err w
      = finallyProcessQueue (_processQueue cfg) now (r, w2).
Proof.
  unfold providerFailed.
  match goal with
  | |- context [forProviders cfg ?n now ?c pr ?e ?l ?w0] =>
    pose proof (forProviders_result cfg n now c pr e l w0) as Hfor;
    destruct (forProviders cfg n now c pr e l w0) as [r w2]
  end.
  by exists r, w2.
Qed.

Lemma providerExhausted_result cfg now pr t le w :
  ∃ r w2,
    ForResult cfg now (t_caller t) pr (t_email t)
      (onService (_recordFailure cfg now (t_provider t))
         (setTasks (delete pr (tasks w)) w))
      (r, w2) ∧
    providerExhausted cfg (_processQueue cfg) now pr t le w
      = finallyProcessQueue (_processQueue cfg) now (r, w2).
Proof. apply providerFailed_result. Qed.

(** [step] does one of the things [StepResult] lists. *)
Lemma step_result cfg now l w w' :
  step cfg now l w = Some w' → StepResult cfg now w l w'.
Proof.
  destruct l as [e | pr o | pr | pr | ]; cbn [step].
  - intros [= <-]. unfold sendEmail.
    destruct (invalidEmail e) eqn:Hinv; [exact (SendInvalid cfg now w e _ Hinv)|].
    case_decide as Hdup; [exact (SendDuplicate cfg now w e Hinv Hdup)|].
    destruct (isRateLimited_cases cfg now
                (service (setNextPromise (S (nextPromise w)) w)))
      as [[Hlen ->] | [Hlen ->]].
    + exact (SendQueued cfg now w e Hinv Hdup Hlen).
    + unfold _processSend, processSendWith.
      match goal with
      | |- context [forProviders cfg ?n now ?c ?p e None ?w0] =>
        pose proof (forProviders_result cfg n now c p e None w0) as Hfor;
        destruct (forProviders cfg n now c p e None w0) as [r w2]
      end.
      exact (SendStarted cfg now w e r w2 Hinv Hdup Hlen Hfor).
  - destruct (tasks w !! pr) as [t|] eqn:Ht; [|done].
    destruct (t_sleeping t) eqn:Hsl; [done|]. intros [= <-].
    unfold providerSettled. destruct o as [v|m].
    + by apply SettledOk.
    + destruct (messageThrows m) as [typeError|] eqn:Hmsg.
      { destruct (providerFailed_result cfg now pr t typeError w)
          as (r & w2 & Hfor & ->).
        eapply SettledLast; [done | done | | done]. by rewrite Hmsg. }
      unfold afterFailure.
      destruct (Nat.leb_spec (S (t_attempt t)) (maxRetries cfg)).
      * by apply SettledRetry.
      * destruct (providerExhausted_result cfg now pr t (Some m) w)
          as (r & w2 & Hfor & ->).
        by eapply SettledLast.
  - destruct (tasks w !! pr) as [t|] eqn:Ht; [|done].
    destruct (t_sleeping t) eqn:Hsl; [|done]. intros [= <-].
    unfold sleepEnded.
    destruct (Nat.leb_spec (t_attempt t) (maxRetries cfg)).
    + by apply SleepOver.
    + destruct (providerExhausted_result cfg now pr t (t_lastError t) w)
        as (r & w2 & Hfor & ->).
      by eapply SleepLast.
  - destruct (list_find _ _) as [[k [pr' [o|]]]|] eqn:Hfind; [|done..].
    intros [= <-]. apply list_find_Some in Hfind as (Hk & [Hpr _] & _).
    cbn in Hpr. subst pr'.
    eapply Resumed; [exact Hk|]. apply whileQueue_result.
  - destruct (timers w) as [|n] eqn:Hn; [done|]. intros [= <-].
    by apply TimerFired.
Qed.

(** ** An open circuit keeps new attempts away from its provider *)

Section HeldCircuit.

Variable cfg : Config.
Variable now : Z.
Variable k : nat.
Variable st : CircuitState.
Variable seen : list EmailData.

Hypothesis st_open : isOpen st = true.
Hypothesis st_recent : now - lastFailureTime st ≤ circuitBreakerTimeoutMs cfg.













End HeldCircuit.





(** ** Promises are settled once, and one drain runs at a time *)

Lemma Promises_frame n X w w' :
  nextPromise w' = nextPromise w →
  emailQueue (service w') = emailQueue (service w) →
  drains w' = drains w →
  settledIds (trace w') = settledIds (trace w) →
  tasks w' = tasks w →
  Promises n X w → Promises n X w'.
Proof.
  intros H1 H2 H3 H4 H5 [Hn Hnd Hk Ht Hr].
  split; unfold queuedIds, drainIds in *; rewrite ?H1, ?H2, ?H3, ?H4, ?H5; done.
Qed.

Ltac promises_frame H :=
  match type of H with
  | Promises ?n ?X ?w =>
    refine (Promises_frame n X w _ _ _ _ _ _ H); reflexivity
  end.

Lemma Promises_weaken n (X Y : nat → Prop) w :
  (∀ pr, X pr → Y pr) → Promises n X w → Promises n Y w.
Proof.
  intros HXY [Hn Hnd Hk Ht Hr]. split; try done.
  - intros pr Hpr. auto.
  - intros pr t Hpt. destruct (Ht pr t Hpt) as (? & ? & ? & ?). auto.
Qed.

(** An unused promise can be excluded, and an excluded one is unused. *)
Lemma Promises_exclude n X w pr :
  Promises n X w → Unused pr w → Promises n (fun i => X i ∧ i ≠ pr) w.
Proof.
  intros [Hn Hnd Hk Ht Hr] [Hu1 Hu2]. split; try done.
  - intros i Hi. split; [auto|]. intros ->. done.
  - intros i t Hit. destruct (Ht i t Hit) as (? & ? & ? & ?).
    repeat split; try done. intros ->. congruence.
Qed.

Lemma Promises_excluded n X w pr :
  Promises n (fun i => X i ∧ i ≠ pr) w → Unused pr w.
Proof.
  intros [Hn Hnd Hk Ht Hr]. split.
  - intros Hin. by destruct (Hk pr Hin).
  - destruct (tasks w !! pr) as [t|] eqn:Hpt; [|done].
    by destruct (Ht pr t Hpt) as ([_ ?] & _).
Qed.

(** A task takes the place of another with the same caller, or starts for
    a promise that is nowhere else. *)
Lemma Promises_task n X w w' pr t :
  nextPromise w' = nextPromise w →
  emailQueue (service w') = emailQueue (service w) →
  drains w' = drains w →
  settledIds (trace w') = settledIds (trace w) →
  tasks w' = <[pr := t]> (tasks w) →
  X pr → pr ∉ queuedIds w → pr ∉ settledIds (trace w) →
  match t_caller t with
  | FromQueue => (pr, None) ∈ drains w
  | FromSendEmail => pr ∉ drainIds w
  end →
  (∀ o, (pr, Some o) ∉ drains w) →
  Promises n X w → Promises n X w'.
Proof.
  intros H1 H2 H3 H4 H5 HX Hq Hs Hc Hrd [Hn Hnd Hk Ht Hr].
  split; unfold queuedIds, drainIds in *; rewrite ?H1, ?H2, ?H3, ?H4, ?H5;
    try done.
  - intros i t'. rewrite lookup_insert. case_decide as Hi.
    + intros [= <-]. by subst i.
    + apply Ht.
  - intros i o Hio. rewrite lookup_insert. case_decide as Hi.
    + subst i. by destruct (Hrd o).
    + by eapply Hr.
Qed.

Lemma Promises_untask n X w w' pr :
  nextPromise w' = nextPromise w →
  emailQueue (service w') = emailQueue (service w) →
  drains w' = drains w →
  settledIds (trace w') = settledIds (trace w) →
  tasks w' = delete pr (tasks w) →
  Promises n X w → Promises n X w'.
Proof.
  intros H1 H2 H3 H4 H5 [Hn Hnd Hk Ht Hr].
  split; unfold queuedIds, drainIds in *; rewrite ?H1, ?H2, ?H3, ?H4, ?H5;
    try done.
  - intros i t'. rewrite lookup_delete. case_decide; [done | apply Ht].
  - intros i o Hio. rewrite lookup_delete. case_decide; [done | by eapply Hr].
Qed.

(** Settling a promise that is nowhere in the world. *)
Lemma Promises_settle n X w w' pr :
  nextPromise w' = nextPromise w →
  emailQueue (service w') = emailQueue (service w) →
  drains w' = drains w →
  settledIds (trace w') = pr :: settledIds (trace w) →
  tasks w' = tasks w →
  X pr → Unused pr w →
  Promises n X w → Promises n X w'.
Proof.
  intros H1 H2 H3 H4 H5 HX [Hu Hut] [Hn Hnd Hk Ht Hr].
  split; unfold queuedIds, drainIds in *; rewrite ?H1, ?H2, ?H3, ?H4, ?H5;
    try done.
  - rewrite !NoDup_app in *. rewrite NoDup_cons.
    destruct Hnd as (Hq & Hqd & Hd & Hds & Hs).
    repeat split; try done.
    + intros i Hi. specialize (Hqd i Hi). set_solver.
    + intros i Hi. specialize (Hds i Hi). set_solver.
    + set_solver.
  - intros i Hi. destruct (decide (i = pr)) as [->|]; [done|].
    apply Hk. set_solver.
  - intros i t Hit. destruct (Ht i t Hit) as (? & ? & ? & ?).
    repeat split; try done. set_solver.
Qed.

Lemma markSettled_ids pr o ds : fst <$> markSettled pr o ds = fst <$> ds.
Proof.
  unfold markSettled. induction ds as [|[i r] ds IH]; [done|].
  cbn. rewrite IH. by case_decide; subst.
Qed.

Lemma markSettled_elem pr o ds i r :
  (i, r) ∈ markSettled pr o ds →
  (i = pr ∧ r = Some o ∧ pr ∈ (fst <$> ds)) ∨ (i ≠ pr ∧ (i, r) ∈ ds).
Proof.
  unfold markSettled. intros Hin0.
  apply list_elem_of_fmap in Hin0 as ([j q] & Heq & Hin).
  cbn in Heq. case_decide as Hj.
  - inversion Heq; subst. left. repeat split; try done.
    apply list_elem_of_fmap. by exists (pr, q).
  - inversion Heq; subst. by right.
Qed.

Lemma markSettled_keeps pr o ds i r :
  i ≠ pr → (i, r) ∈ ds → (i, r) ∈ markSettled pr o ds.
Proof.
  intros Hne Hin. unfold markSettled. apply list_elem_of_fmap.
  exists (i, r). cbn. by rewrite decide_False.
Qed.

Lemma markSettled_length pr o ds : length (markSettled pr o ds) = length ds.
Proof. unfold markSettled. by rewrite length_map. Qed.

(** The [_processSend] of a queued entry is over: its outcome goes to the
    [_processQueue] that waits for it. *)
Lemma Promises_mark n X w w' pr o :
  nextPromise w' = nextPromise w →
  emailQueue (service w') = emailQueue (service w) →
  drains w' = markSettled pr o (drains w) →
  settledIds (trace w') = settledIds (trace w) →
  tasks w' = tasks w →
  tasks w !! pr = None →
  Promises n X w → Promises n X w'.
Proof.
  intros H1 H2 H3 H4 H5 Hnone [Hn Hnd Hk Ht Hr].
  split; unfold queuedIds, drainIds in *;
    rewrite ?H1, ?H2, ?H3, ?H4, ?H5, ?markSettled_ids; try done.
  - intros i t Hit. destruct (Ht i t Hit) as (? & ? & ? & Hc).
    repeat split; try done. destruct (t_caller t); [done|].
    apply markSettled_keeps; [congruence | done].
  - intros i r Hir. apply markSettled_elem in Hir as [(-> & _ & _) | [_ Hin]];
      [done | by eapply Hr].
Qed.

Lemma Unused_frame pr w w' :
  emailQueue (service w') = emailQueue (service w) →
  drains w' = drains w →
  settledIds (trace w') = settledIds (trace w) →
  tasks w' = tasks w →
  Unused pr w → Unused pr w'.
Proof.
  intros H2 H3 H4 H5 [Hu Ht].
  split; unfold queuedIds, drainIds in *; rewrite ?H2, ?H3, ?H4, ?H5; done.
Qed.

(** A direct [_processSend] for a promise that is nowhere else either
    suspends as the task of that promise or fails at once and leaves the
    promise unused. *)
Lemma Promises_for_direct cfg now n X pr e w r w' :
  Promises n X w → Unused pr w → X pr →
  ForResult cfg now FromSendEmail pr e w (r, w') →
  Promises n X w' ∧ (r ≠ None → Unused pr w').
Proof.
  intros HP [Hu Hut] HX.
  inversion 1 as [cb' t Hstep Hc He Hsl Hat Hcl | cb' msg Hstep]; subst.
  - split; [|done].
    refine (Promises_task n X w _ pr t _ _ _ _ _ HX _ _ _ _ HP);
      try reflexivity.
    + set_solver.
    + set_solver.
    + rewrite Hc. set_solver.
    + intros o Ho. apply Hu. unfold drainIds.
      rewrite !elem_of_app. right; left.
      apply list_elem_of_fmap. by exists (pr, Some o).
  - split; [promises_frame HP|]. intros _.
    refine (Unused_frame pr w _ _ _ _ _ _); try reflexivity. by split.
Qed.

(** The [_processSend] of a queued entry whose promise a [_processQueue]
    already waits for. *)
Lemma Promises_for_queue cfg now n X pr e w r w' :
  Promises n X w → (pr, None) ∈ drains w → tasks w !! pr = None →
  ForResult cfg now FromQueue pr e w (r, w') →
  Promises n X w' ∧ drains w' = drains w ∧
  (r ≠ None → tasks w' !! pr = None).
Proof.
  intros HP Hd Hnone.
  inversion 1 as [cb' t Hstep Hc He Hsl Hat Hcl | cb' msg Hstep]; subst.
  - split; [|done].
    assert (pr ∈ drainIds w) as Hin.
    { unfold drainIds. apply list_elem_of_fmap. by exists (pr, None). }
    destruct HP as [Hn Hnd Hk Ht Hr].
    assert (X pr) as HX by (apply Hk; set_solver).
    rewrite !NoDup_app in Hnd. destruct Hnd as (Hq & Hqd & Hdn & Hds & Hs).
    refine (Promises_task n X w _ pr t _ _ _ _ _ HX _ _ _ _
              (mkPromises _ _ _ Hn _ Hk Ht Hr));
      try reflexivity.
    + intros Hpq. specialize (Hqd pr Hpq). set_solver.
    + intros Hps. by specialize (Hds pr Hin).
    + by rewrite Hc.
    + intros o Ho.
      assert (NoDup (fst <$> drains w)) as Hnd' by done.
      apply list_elem_of_lookup in Hd as [i Hi], Ho as [j Hj].
      assert (i = j) as ->.
      { eapply NoDup_lookup; [exact Hnd'| |]; rewrite list_lookup_fmap.
        - by rewrite Hi. - by rewrite Hj. }
      congruence.
    + rewrite !NoDup_app. done.
  - split; [promises_frame HP|]. done.
Qed.

(** The head of the queue goes to a [_processQueue] that waited for
    nothing. *)
Lemma Promises_pop n X w w' en rest r :
  emailQueue (service w) = en :: rest →
  drains w = [] →
  nextPromise w' = nextPromise w →
  emailQueue (service w') = rest →
  drains w' = [(q_promise en, r)] →
  settledIds (trace w') = settledIds (trace w) →
  tasks w' = tasks w →
  Promises n X w → Promises n X w'.
Proof.
  intros Hq Hd H1 H2 H3 H4 H5 [Hn Hnd Hk Ht Hr].
  unfold queuedIds, drainIds in *. rewrite Hq, Hd in *. cbn in Hnd, Hk.
  split; unfold queuedIds, drainIds; rewrite ?H1, ?H2, ?H3, ?H4, ?H5; try done.
  - cbn. apply NoDup_cons in Hnd as [Hne Hnd]. rewrite NoDup_app in *.
    destruct Hnd as (Hr1 & Hr2 & Hr3).
    repeat split; try done.
    + intros i Hi. rewrite elem_of_cons. intros [-> | Hs]; [set_solver|].
      by apply (Hr2 i).
    + apply NoDup_cons. split; [set_solver | done].
  - intros i Hi. apply Hk. cbn in Hi. set_solver.
  - intros i t Hit. destruct (Ht i t Hit) as (HX & Hiq & His & Hc).
    repeat split; try done; [set_solver|].
    destruct (t_caller t); [|set_solver].
    cbn. set_solver.
  - intros i o Hio. apply list_elem_of_singleton in Hio. inversion Hio; subst.
    destruct (tasks w !! q_promise en) as [t|] eqn:Hit; [|done].
    destruct (Ht _ t Hit) as (_ & Hiq & _). set_solver.
Qed.

Lemma Orderly_drain cfg now n X w w' :
  Promises n X w → isProcessingQueue (service w) = true → drains w = [] →
  DrainResult cfg now w w' → Promises n X w' ∧ OneDrain w'.
Proof.
  intros HP Hflag Hd.
  inversion 1 as [Hq | en rest Hq Hlen | en rest r w2 Hq Hlen Hfor]; subst.
  - split; [promises_frame HP|]. unfold OneDrain. cbn. by rewrite Hd.
  - split; [promises_frame HP|]. unfold OneDrain. cbn. by rewrite Hd.
  - inversion Hfor as [cb' t Hstep Hc He Hsl Hat Hcl | cb' msg Hstep]; subst.
    + split; [|unfold OneDrain; cbn; by rewrite Hd, Hflag].
      pose proof HP as [Hn Hnd Hk Ht Hr].
      unfold queuedIds, drainIds in Hnd, Hk. rewrite Hq, Hd in Hnd, Hk.
      cbn in Hnd, Hk. apply NoDup_cons in Hnd as [Hne Hnd].
      refine (Promises_task n X
                (setDrains [(q_promise en, None)]
                   (onService (set_emailQueue rest) w))
                _ (q_promise en) t _ _ _ _ _ _ _ _ _ _ _); cbn;
        rewrite ?Hd; try reflexivity.
      * apply Hk. set_solver.
      * unfold queuedIds. cbn. set_solver.
      * set_solver.
      * rewrite Hc. set_solver.
      * intros o Ho. apply list_elem_of_singleton in Ho. done.
      * by eapply (Promises_pop n X w _ en rest None).
    + split; [|unfold OneDrain; cbn; by rewrite Hd, Hflag].
      eapply (Promises_pop n X w _ en rest); try done; cbn; by rewrite ?Hd.
Qed.

(** [_processQueue] keeps the promises in order, and so keeps unused what
    was unused. *)
Lemma Orderly_processQueueAt cfg d now n X w :
  Promises n X w → OneDrain w →
  Promises n X (processQueueAt cfg d now w) ∧
  OneDrain (processQueueAt cfg d now w).
Proof.
  intros HP HO. destruct d; [done|].
  destruct (processQueueAt_form cfg d now w)
    as [[-> _] | (Hflag & _ & Hd)]; [done|].
  unfold OneDrain in HO. rewrite Hflag in HO.
  apply nil_length_inv in HO.
  eapply Orderly_drain; [| | |exact Hd]; [promises_frame HP | done | done].
Qed.

Lemma Unused_processQueueAt cfg d now n X w pr :
  Promises n X w → OneDrain w → Unused pr w →
  Unused pr (processQueueAt cfg d now w).
Proof.
  intros HP HO HU. eapply Promises_excluded.
  eapply Orderly_processQueueAt; [|done]. by apply Promises_exclude.
Qed.

Lemma OneDrain_frame w w' :
  drains w' = drains w →
  isProcessingQueue (service w') = isProcessingQueue (service w) →
  OneDrain w → OneDrain w'.
Proof. unfold OneDrain. by intros -> ->. Qed.

Ltac onedrain_frame H :=
  match type of H with
  | OneDrain ?w => refine (OneDrain_frame w _ _ _ H); reflexivity
  end.

(** The end of a direct [_processSend]: the [finally] block, then the
    promise of [sendEmail] settles. *)
Lemma Orderly_finish_direct cfg now n X pr r w :
  Promises n X w → OneDrain w → X pr → (r ≠ None → Unused pr w) →
  let w' := deliver FromSendEmail pr
              (finallyProcessQueue (_processQueue cfg) now (r, w)) in
  Promises n X w' ∧ OneDrain w'.
Proof.
  intros HP HO HX HU. destruct r as [o|]; cbn [finallyProcessQueue deliver];
    [|done].
  destruct (Orderly_processQueueAt cfg 2 now n X w HP HO) as [HP' HO'].
  pose proof (Unused_processQueueAt cfg 2 now n X w pr HP HO (HU ltac:(done)))
    as HU'.
  fold (_processQueue cfg) in *.
  split; [|onedrain_frame HO'].
  refine (Promises_settle n X (_processQueue cfg now w) _ pr _ _ _ _ _ HX HU' HP');
    reflexivity.
Qed.

(** The end of a queued entry's [_processSend]: the [finally] block finds
    [isProcessingQueue] set, and the outcome goes to the waiting loop. *)
Lemma Orderly_finish_queue cfg now n X pr r w :
  Promises n X w → OneDrain w → (pr, None) ∈ drains w →
  (r ≠ None → tasks w !! pr = None) →
  let w' := deliver FromQueue pr
              (finallyProcessQueue (_processQueue cfg) now (r, w)) in
  Promises n X w' ∧ OneDrain w'.
Proof.
  intros HP HO Hd Hnone. destruct r as [o|]; cbn [finallyProcessQueue deliver];
    [|done].
  assert (isProcessingQueue (service w) = true) as Hflag.
  { unfold OneDrain in HO. destruct (isProcessingQueue (service w)); [done|].
    apply nil_length_inv in HO. rewrite HO in Hd. set_solver. }
  unfold _processQueue. rewrite processQueueAt_busy by done. split.
  - refine (Promises_mark n X w _ pr o _ _ _ _ _ _ HP); try reflexivity. auto.
  - unfold OneDrain in *. cbn. by rewrite markSettled_length.
Qed.

Lemma LoopResult_busy cfg now w w' :
  isProcessingQueue (service w) = true →
  LoopResult cfg now w w' → DrainResult cfg now w w'.
Proof.
  intros Hflag.
  inversion 1 as [Hq | en rest Hq Hlen | en rest r w2 Hq Hlen Hfor]; subst.
  - by apply DrainEmpty.
  - by eapply DrainLimited.
  - assert (isProcessingQueue (service w2) = true) as Hflag2.
    { erewrite ForResult_flag by exact Hfor. done. }
    destruct r as [o|]; cbn [finallyProcessQueue snd].
    + unfold _processQueue. rewrite processQueueAt_busy by done.
      by eapply DrainPopped.
    + by eapply DrainPopped.
Qed.

Lemma OneDrain_for cfg now c pr e w r w' :
  ForResult cfg now c pr e w (r, w') → OneDrain w → OneDrain w'.
Proof. inversion 1; subst; intros HO; onedrain_frame HO. Qed.

(** A new promise: nothing in the world knows it yet. *)
Lemma Promises_alloc w :
  Promises (nextPromise w) (fun pr => (pr < nextPromise w)%nat) w →
  Promises (S (nextPromise w)) (fun pr => (pr < S (nextPromise w))%nat)
    (setNextPromise (S (nextPromise w)) w)
  ∧ Unused (nextPromise w) (setNextPromise (S (nextPromise w)) w).
Proof.
  intros HP. split.
  - assert (Promises (nextPromise w) (fun pr => (pr < S (nextPromise w))%nat) w)
      as [Hn Hnd Hk Ht Hr].
    { eapply Promises_weaken; [|exact HP]. cbn. intros; lia. }
    by split.
  - destruct HP as [Hn Hnd Hk Ht Hr]. split.
    + intros Hin. specialize (Hk _ Hin). cbn in Hk. lia.
    + cbn. destruct (tasks w !! nextPromise w) as [t|] eqn:Hit; [|done].
      destruct (Ht _ t Hit) as (Hlt & _). lia.
Qed.

(** An entry for an unused promise joins the queue at its tail. *)
Lemma Promises_push n X w w' pr e :
  nextPromise w' = nextPromise w →
  emailQueue (service w') = emailQueue (service w) ++ [mkEntry e pr] →
  drains w' = drains w →
  settledIds (trace w') = settledIds (trace w) →
  tasks w' = tasks w →
  X pr → Unused pr w →
  Promises n X w → Promises n X w'.
Proof.
  intros H1 H2 H3 H4 H5 HX [Hu Hut] [Hn Hnd Hk Ht Hr].
  split; unfold queuedIds, drainIds in *; rewrite ?H1, ?H2, ?H3, ?H4, ?H5;
    try done.
  - rewrite fmap_app. cbn. rewrite !NoDup_app in *.
    destruct Hnd as (Hq & Hqd & Hd & Hds & Hs).
    repeat split; try done.
    + set_solver.
    + apply NoDup_singleton.
    + intros i Hi. apply elem_of_app in Hi as [Hi | Hi]; [by apply Hqd|].
      set_solver.
  - intros i Hi. rewrite fmap_app in Hi. cbn in Hi.
    destruct (decide (i = pr)) as [->|]; [done|]. apply Hk. set_solver.
  - intros i t Hit. destruct (Ht i t Hit) as (? & ? & ? & ?).
    repeat split; try done. rewrite fmap_app. cbn.
    intros Hin. apply elem_of_app in Hin as [Hin | Hin]; [done|].
    apply list_elem_of_singleton in Hin. congruence.
Qed.

(** The only suspended [_processQueue] resumes and settles the promise it
    waited for. *)
Lemma Promises_resume n X w w' pr o :
  drains w = [(pr, Some o)] →
  nextPromise w' = nextPromise w →
  emailQueue (service w') = emailQueue (service w) →
  drains w' = [] →
  settledIds (trace w') = pr :: settledIds (trace w) →
  tasks w' = tasks w →
  Promises n X w → Promises n X w'.
Proof.
  intros Hd H1 H2 H3 H4 H5 [Hn Hnd Hk Ht Hr].
  unfold queuedIds, drainIds in *. rewrite Hd in *. cbn in Hnd, Hk.
  split; unfold queuedIds, drainIds; rewrite ?H1, ?H2, ?H3, ?H4, ?H5; try done.
  - intros i t Hit. destruct (Ht i t Hit) as (HX & Hiq & His & Hc).
    destruct (t_caller t).
    + repeat split; try done; [|set_solver]. cbn in Hc. set_solver.
    + apply list_elem_of_singleton in Hc. done.
  - intros i r Hir. set_solver.
Qed.

Lemma Orderly_task_facts n X w pr t :
  Promises n X w → tasks w !! pr = Some t →
  X pr ∧ (pr ∉ queuedIds w) ∧ (pr ∉ settledIds (trace w)) ∧
  (∀ o, (pr, Some o) ∉ drains w) ∧
  match t_caller t with
  | FromQueue => (pr, None) ∈ drains w
  | FromSendEmail => pr ∉ drainIds w
  end.
Proof.
  intros [Hn Hnd Hk Ht Hr] Hit. destruct (Ht pr t Hit) as (? & ? & ? & ?).
  repeat split; try done. intros o Ho. specialize (Hr pr o Ho). congruence.
Qed.

(** The world after a task has left its [retryWithBackoff] for good. *)
Lemma Promises_task_gone n X w w' pr t :
  Promises n X w → tasks w !! pr = Some t →
  nextPromise w' = nextPromise w →
  emailQueue (service w') = emailQueue (service w) →
  drains w' = drains w →
  settledIds (trace w') = settledIds (trace w) →
  tasks w' = delete pr (tasks w) →
  Promises n X w' ∧ tasks w' !! pr = None ∧
  match t_caller t with
  | FromQueue => (pr, None) ∈ drains w'
  | FromSendEmail => Unused pr w'
  end.
Proof.
  intros HP Hit H1 H2 H3 H4 H5.
  destruct (Orderly_task_facts n X w pr t HP Hit) as (HX & Hq & Hs & Hrd & Hc).
  split; [by eapply (Promises_untask n X w w' pr)|].
  split; [by rewrite H5, lookup_delete_eq|].
  destruct (t_caller t).
  - split; [|by rewrite H5, lookup_delete_eq].
    unfold queuedIds, drainIds in *. rewrite H2, H3, H4. set_solver.
  - by rewrite H3.
Qed.

(** Every turn of the event loop keeps the promises in order. *)
Lemma Orderly_step cfg now l w w' :
  Orderly w → step cfg now l w = Some w' → Orderly w'.
Proof.
  intros [HP HO] Hstep. apply step_result in Hstep.
  assert (∀ w1, Promises (nextPromise w) (fun pr => (pr < nextPromise w)%nat) w1
                ∧ OneDrain w1 → Orderly w1) as Hsame.
  { intros w1 [HP1 HO1]. split; [|done].
    by rewrite (po_next _ _ _ HP1). }
  assert (∀ w1, Promises (S (nextPromise w))
                  (fun pr => (pr < S (nextPromise w))%nat) w1
                ∧ OneDrain w1 → Orderly w1) as Hnext.
  { intros w1 [HP1 HO1]. split; [|done].
    by rewrite (po_next _ _ _ HP1). }
  destruct (Promises_alloc w HP) as [HP0 HU0].
  assert (OneDrain (setNextPromise (S (nextPromise w)) w)) as HO0
      by (onedrain_frame HO).
  inversion Hstep as
    [ e m Hinv | e Hinv Hdup | e Hinv Hdup Hlen | e r w2 Hinv Hdup Hlen Hfor
    | pr t v Ht Hsl | pr t m d Ht Hsl Hmsg Hat Hd | pr t m r w2 Ht Hsl Hat Hfor
    | pr t Ht Hsl Hat | pr t r w2 Ht Hsl Hat Hfor
    | pr j o w1 Hj Hloop | k Hk ]; subst.
  - apply Hnext. split; [|onedrain_frame HO].
    refine (Promises_settle _ _ _ _ (nextPromise w) _ _ _ _ _ _ HU0 HP0);
      try reflexivity. cbn. lia.
  - apply Hnext. split; [|onedrain_frame HO].
    refine (Promises_settle _ _ _ _ (nextPromise w) _ _ _ _ _ _ HU0 HP0);
      try reflexivity. cbn. lia.
  - apply Hnext. apply Orderly_processQueueAt; [|onedrain_frame HO].
    refine (Promises_push _ _ _ _ (nextPromise w) e _ _ _ _ _ _ HU0 HP0);
      try reflexivity. cbn. lia.
  - apply Hnext.
    match type of Hfor with
    | ForResult _ _ _ _ _ ?w3 _ =>
      assert (Promises (S (nextPromise w))
                (fun pr => (pr < S (nextPromise w))%nat) w3) as HP3
        by (promises_frame HP0);
      assert (Unused (nextPromise w) w3) as HU3
        by (refine (Unused_frame _ _ w3 _ _ _ _ HU0); reflexivity);
      assert (OneDrain w3) as HO3 by (onedrain_frame HO)
    end.
    destruct (Promises_for_direct _ _ _ _ _ _ _ _ _ HP3 HU3 ltac:(cbn; lia) Hfor)
      as [HP2 HU2].
    apply Orderly_finish_direct; try done.
    + by eapply OneDrain_for.
    + cbn. lia.
  - apply Hsame. rewrite onService_recordSuccess.
    match goal with
    | |- context [_processQueue cfg now ?w3] =>
      destruct (Promises_task_gone _ _ w w3 pr t HP Ht
                  eq_refl eq_refl eq_refl eq_refl eq_refl) as (HP3 & Hnone & Hc);
      assert (OneDrain w3) as HO3 by (onedrain_frame HO);
      change (deliver (t_caller t) pr (Some (Resolved v), _processQueue cfg now w3))
        with (deliver (t_caller t) pr
                (finallyProcessQueue (_processQueue cfg) now
                   (Some (Resolved v), w3)))
    end.
    destruct (Orderly_task_facts _ _ w pr t HP Ht) as (HX & _).
    destruct (t_caller t).
    + by apply Orderly_finish_direct.
    + by apply Orderly_finish_queue.
  - apply Hsame. split; [|onedrain_frame HO].
    destruct (Orderly_task_facts _ _ w pr t HP Ht) as (HX & Hq & Hs & Hrd & Hc).
    refine (Promises_task _ _ w _ pr (asleep t _ m) _ _ _ _ _ HX Hq Hs Hc Hrd HP);
      reflexivity.
  - apply Hsame. rewrite onService_recordFailure in Hfor.
    match type of Hfor with
    | ForResult _ _ _ _ _ ?w3 _ =>
      destruct (Promises_task_gone _ _ w w3 pr t HP Ht
                  eq_refl eq_refl eq_refl eq_refl eq_refl) as (HP3 & Hnone & Hc);
      assert (OneDrain w3) as HO3 by (onedrain_frame HO)
    end.
    destruct (Orderly_task_facts _ _ w pr t HP Ht) as (HX & _).
    pose proof (OneDrain_for _ _ _ _ _ _ _ _ Hfor HO3) as HO2.
    destruct (t_caller t).
    + destruct (Promises_for_direct _ _ _ _ _ _ _ _ _ HP3 Hc HX Hfor)
        as [HP2 HU2].
      by apply Orderly_finish_direct.
    + destruct (Promises_for_queue _ _ _ _ _ _ _ _ _ HP3 Hc Hnone Hfor)
        as (HP2 & Hd2 & Hn2).
      apply Orderly_finish_queue; try done. by rewrite Hd2.
  - apply Hsame. split; [|onedrain_frame HO].
    destruct (Orderly_task_facts _ _ w pr t HP Ht) as (HX & Hq & Hs & Hrd & Hc).
    refine (Promises_task _ _ w _ pr (awake t) _ _ _ _ _ HX Hq Hs Hc Hrd HP);
      reflexivity.
  - apply Hsame. rewrite onService_recordFailure in Hfor.
    match type of Hfor with
    | ForResult _ _ _ _ _ ?w3 _ =>
      destruct (Promises_task_gone _ _ w w3 pr t HP Ht
                  eq_refl eq_refl eq_refl eq_refl eq_refl) as (HP3 & Hnone & Hc);
      assert (OneDrain w3) as HO3 by (onedrain_frame HO)
    end.
    destruct (Orderly_task_facts _ _ w pr t HP Ht) as (HX & _).
    pose proof (OneDrain_for _ _ _ _ _ _ _ _ Hfor HO3) as HO2.
    destruct (t_caller t).
    + destruct (Promises_for_direct _ _ _ _ _ _ _ _ _ HP3 Hc HX Hfor)
        as [HP2 HU2].
      by apply Orderly_finish_direct.
    + destruct (Promises_for_queue _ _ _ _ _ _ _ _ _ HP3 Hc Hnone Hfor)
        as (HP2 & Hd2 & Hn2).
      apply Orderly_finish_queue; try done. by rewrite Hd2.
  - apply Hsame.
    assert (drains w = [(pr, Some o)] ∧ isProcessingQueue (service w) = true)
      as [Hd Hflag].
    { unfold OneDrain in HO. destruct (drains w) as [|d [|d' ds]] eqn:Hds.
      - done.
      - destruct j; [|done]. cbn in Hj. inversion Hj; subst.
        split; [done|]. by destruct (isProcessingQueue (service w)).
      - by destruct (isProcessingQueue (service w)). }
    assert (j = 0%nat) as ->.
    { rewrite Hd in Hj. destruct j; [done|]. by destruct j. }
    eapply Orderly_drain; [| | |eapply LoopResult_busy; [|exact Hloop]].
    + refine (Promises_resume _ _ w _ pr o Hd _ _ _ _ _ HP); cbn;
        rewrite ?Hd; reflexivity.
    + done.
    + cbn. by rewrite Hd.
    + done.
  - apply Hsame. apply Orderly_processQueueAt; [promises_frame HP|].
    onedrain_frame HO.
Qed.

Lemma Orderly_run cfg sched :
  ∀ w w', Orderly w → run cfg sched w = Some w' → Orderly w'.
Proof.
  induction sched as [|[now l] sched IH]; intros w w' HS; cbn [run].
  - by intros [= <-].
  - destruct (step cfg now l w) as [w1|] eqn:Hstep; [|done].
    apply IH. by eapply Orderly_step.
Qed.

Lemma Orderly_reachable cfg w : reachable cfg w → Orderly w.
Proof.
  intros (ps & o & s & sched & Hc & Hrun).
  eapply Orderly_run; [|exact Hrun].
  destruct (constructor_config _ _ _ _ Hc) as (_ & -> & _).
  split; [|done]. split; cbn; try done.
  - apply NoDup_nil_2.
  - intros pr Hpr. by apply elem_of_nil in Hpr.
Qed.

(** ** The pending queue: a denied submission *)



(** A denied submission joins the tail of the queue; its promise stays
    open and no provider is contacted. *)
Lemma sendEmail_queued cfg now e w :
  invalidEmail e = false →
  emailId e ∉ sentEmailIds (service w) →
  fst (_isRateLimited cfg now (service w)) = true →
  emailQueue (service (sendEmail cfg now e w))
    = emailQueue (service w) ++ [mkEntry e (nextPromise w)] ∧
  settledIds (trace (sendEmail cfg now e w)) = settledIds (trace w) ∧
  (∀ k, invokesOf k (trace (sendEmail cfg now e w)) = invokesOf k (trace w)) ∧
  emailStatuses (service (sendEmail cfg now e w)) = emailStatuses (service w) ∧
  sentEmailIds (service (sendEmail cfg now e w)) = sentEmailIds (service w).
Proof.
  intros Hinv Hdup Hlim. unfold sendEmail. rewrite Hinv.
  rewrite decide_False by done.
  change (service (setNextPromise (S (nextPromise w)) w)) with (service w).
  destruct (isRateLimited_cases cfg now (service w)) as [[Hlen Heq] | [Hlen Heq]];
    rewrite Heq in Hlim |- *; [|done].
  unfold _processQueue.
  match goal with
  | |- context [processQueueAt cfg 2 now ?w1] =>
    destruct (processQueueAt_form cfg 1 now w1) as [[-> _] | (Hflag & _ & Hd)];
      [done|];
    remember (processQueueAt cfg 2 now w1) as w' eqn:Hw'; clear Hw'
  end.
  inversion Hd as [Hq | en rest Hq Hlen' | en rest r w2 Hq Hlen' Hfor]; subst.
  - cbn in Hq. by destruct (emailQueue (service w)).
  - done.
  - ws. rewrite pruneWindow_idem in Hlen'. lia.
Qed.


(** ** An id submitted once has no status while it waits in the queue *)

Section OnceId.

Variable cfg : Config.
Variable a : string.

Lemma Once_frame n w w' :
  emailQueue (service w') = emailQueue (service w) →
  tasks w' = tasks w →
  emailStatuses (service w') = emailStatuses (service w) →
  Once a n w → Once a n w'.
Proof. unfold Once, occurrences, NoTask. by intros -> -> ->. Qed.

Lemma Once_many n w : (2 ≤ n)%nat → Once a n w.
Proof. intros Hn. split; intros ->; lia. Qed.

Lemma Once_gone n w : occurrences a w = 0%nat → Once a (S n) w.
Proof. intros Ho. split; [done|]. intros _. rewrite Ho. split; [lia | done]. Qed.

Lemma Once_mono n w : Once a n w → Once a (S n) w.
Proof.
  intros [H0 H1]. destruct n as [|n]; [|by apply Once_many; lia].
  destruct (H0 eq_refl) as (Ho & _). by apply Once_gone.
Qed.

Lemma Once_bump (b : bool) n w :
  Once a n w → Once a ((if b then 1 else 0) + n) w.
Proof. destruct b; [apply Once_mono | done]. Qed.

(** A task on an email of id [a] exists only after a submission, and after
    just one the id is not in the queue. *)
Lemma Once_task_facts n w pr t :
  Once a n w → tasks w !! pr = Some t → emailId (t_email t) = a →
  n ≠ 0%nat ∧ (n = 1%nat → occurrences a w = 0%nat).
Proof.
  intros [H0 H1] Ht Ha. split.
  - intros ->. destruct (H0 eq_refl) as (_ & Hnt & _). by eapply Hnt.
  - intros ->. destruct (H1 eq_refl) as (Hle & Hone).
    destruct (occurrences a w) as [|[|k]]; [done| |lia].
    destruct (Hone eq_refl) as (Hnt & _). by destruct (Hnt pr t Ht).
Qed.

Lemma Once_of_occurrences n w :
  n ≠ 0%nat → (n = 1%nat → occurrences a w = 0%nat) → Once a n w.
Proof.
  intros Hn Ho. destruct n as [|[|n]]; [done | | apply Once_many; lia].
  by apply Once_gone, Ho.
Qed.

Lemma occ_frame w w' :
  emailQueue (service w') = emailQueue (service w) →
  occurrences a w' = occurrences a w.
Proof. unfold occurrences. by intros ->. Qed.

Lemma occ_for now c pr e w r w' :
  ForResult cfg now c pr e w (r, w') → occurrences a w' = occurrences a w.
Proof. inversion 1; subst; by apply occ_frame. Qed.

Lemma occ_tail w en rest :
  emailQueue (service w) = en :: rest →
  occurrences a w
  = ((if decide (emailId (q_email en) = a) then 1 else 0)
     + length (filter (fun en => emailId (q_email en) = a) rest))%nat.
Proof.
  unfold occurrences. intros ->. rewrite filter_cons. by case_decide.
Qed.

Lemma occ_drain now w w' :
  DrainResult cfg now w w' → (occurrences a w' ≤ occurrences a w)%nat.
Proof.
  inversion 1 as [Hq | en rest Hq Hlen | en rest r w2 Hq Hlen Hfor]; subst.
  - by rewrite (occ_frame w).
  - by rewrite (occ_frame w).
  - rewrite (occ_frame w2) by done. rewrite (occ_for _ _ _ _ _ _ _ Hfor).
    rewrite (occ_tail w en rest Hq). unfold occurrences. cbn. lia.
Qed.

Lemma occ_processQueueAt d now w :
  (occurrences a (processQueueAt cfg d now w) ≤ occurrences a w)%nat.
Proof.
  destruct d; [done|].
  destruct (processQueueAt_form cfg d now w) as [[-> _] | (_ & _ & Hd)]; [done|].
  apply occ_drain in Hd.
  by rewrite (occ_frame w (onService (set_isProcessingQueue true) w)) in Hd.
Qed.

Lemma occ_finally now r w :
  (occurrences a (snd (finallyProcessQueue (_processQueue cfg) now (r, w)))
   ≤ occurrences a w)%nat.
Proof.
  destruct r; cbn [finallyProcessQueue snd]; [|done].
  apply (occ_processQueueAt 2).
Qed.

Lemma occ_deliver c pr x :
  occurrences a (deliver c pr x) = occurrences a (snd x).
Proof. destruct x as [[o|] w], c; by apply occ_frame. Qed.

Lemma occ_loop now w w' :
  LoopResult cfg now w w' → (occurrences a w' ≤ occurrences a w)%nat.
Proof.
  inversion 1 as [Hq | en rest Hq Hlen | en rest r w2 Hq Hlen Hfor]; subst.
  - by rewrite (occ_frame w).
  - by rewrite (occ_frame w).
  - rewrite (occ_frame
               (snd (finallyProcessQueue (_processQueue cfg) now (r, w2))))
      by done.
    etrans; [apply occ_finally|]. rewrite (occ_for _ _ _ _ _ _ _ Hfor).
    rewrite (occ_tail w en rest Hq). unfold occurrences. cbn. lia.
Qed.

Lemma Once_for n now c pr e w r w' :
  emailId e ≠ a → Once a n w → ForResult cfg now c pr e w (r, w') →
  Once a n w'.
Proof.
  intros Hne [H0 H1].
  inversion 1 as [cb' t Hstep Hc He Hsl Hat Hcl | cb' msg Hstep]; subst.
  - assert (NoTask a w →
            NoTask a (emit (EvInvoke (t_provider t) (t_email t))
                        (setTasks (<[pr := t]> (tasks w))
                           (onService (set_circuitBreakers cb') w)))) as Hnt.
    { intros Hnt i t'. cbn. rewrite lookup_insert.
      case_decide; [by intros [= <-] | apply Hnt]. }
    split; intros Hn.
    + destruct (H0 Hn) as (? & ? & ?). auto.
    + destruct (H1 Hn) as (? & Hone). split; [done|].
      intros Ho. destruct (Hone Ho). auto.
  - assert (emailStatuses
              (service (setStatus (emailId e) failed
                          (onService (set_circuitBreakers cb') w))) !! a
            = emailStatuses (service w) !! a) as Hst.
    { cbn. by rewrite lookup_insert_ne. }
    split; intros Hn.
    + destruct (H0 Hn) as (? & ? & ?). rewrite Hst. auto.
    + destruct (H1 Hn) as (? & Hone). split; [done|]. rewrite Hst. apply Hone.
Qed.

(** The head of the queue is taken off. *)
Lemma Once_popped n w w1 en rest :
  Once a n w →
  emailQueue (service w) = en :: rest →
  emailQueue (service w1) = rest →
  tasks w1 = tasks w →
  emailStatuses (service w1) = emailStatuses (service w) →
  (emailId (q_email en) = a ∧ (n ≠ 0%nat) ∧ (n = 1%nat → occurrences a w1 = 0%nat))
  ∨ (emailId (q_email en) ≠ a ∧ Once a n w1).
Proof.
  intros [H0 H1] Hq Hq1 Ht Hs. pose proof (occ_tail w en rest Hq) as Ho.
  assert (occurrences a w1
          = length (filter (fun en => emailId (q_email en) = a) rest)) as Ho1.
  { unfold occurrences. by rewrite Hq1. }
  case_decide as Ha.
  - left. split; [done|]. split.
    + intros ->. destruct (H0 eq_refl) as (Hz & _). lia.
    + intros ->. destruct (H1 eq_refl) as (Hle & _). lia.
  - right. split; [done|]. cbn in Ho.
    unfold Once, NoTask. rewrite Ho1, <- Ho, Ht, Hs. by split.
Qed.

Lemma Once_drain n now w w' :
  Once a n w → DrainResult cfg now w w' → Once a n w'.
Proof.
  intros HO.
  inversion 1 as [Hq | en rest Hq Hlen | en rest r w2 Hq Hlen Hfor]; subst.
  - by eapply (Once_frame n w).
  - by eapply (Once_frame n w).
  - match type of Hfor with
    | ForResult _ _ _ _ _ ?w1 _ =>
      destruct (Once_popped n w w1 en rest HO Hq eq_refl eq_refl eq_refl)
        as [(Ha & Hn & Ho) | (Ha & HO1)]
    end.
    + apply Once_of_occurrences; [done|]. intros Hn1.
      rewrite (occ_frame w2) by done. rewrite (occ_for _ _ _ _ _ _ _ Hfor).
      auto.
    + eapply (Once_frame n w2); try done. by eapply Once_for.
Qed.

Lemma Once_processQueueAt n d now w :
  Once a n w → Once a n (processQueueAt cfg d now w).
Proof.
  intros HO. destruct d; [done|].
  destruct (processQueueAt_form cfg d now w) as [[-> _] | (_ & _ & Hd)]; [done|].
  eapply Once_drain; [|exact Hd]. by eapply (Once_frame n w).
Qed.

Lemma Once_finally n now r w :
  Once a n w →
  Once a n (snd (finallyProcessQueue (_processQueue cfg) now (r, w))).
Proof.
  intros HO. destruct r; cbn [finallyProcessQueue snd]; [|done].
  by apply (Once_processQueueAt n 2).
Qed.

Lemma Once_deliver n c pr x : Once a n (snd x) → Once a n (deliver c pr x).
Proof.
  destruct x as [[o|] w]; cbn [snd]; intros HO; [|done].
  destruct c; by eapply (Once_frame n w).
Qed.

Lemma Once_loop n now w w' :
  Once a n w → LoopResult cfg now w w' → Once a n w'.
Proof.
  intros HO.
  inversion 1 as [Hq | en rest Hq Hlen | en rest r w2 Hq Hlen Hfor]; subst.
  - by eapply (Once_frame n w).
  - by eapply (Once_frame n w).
  - match type of Hfor with
    | ForResult _ _ _ _ _ ?w1 _ =>
      destruct (Once_popped n w w1 en rest HO Hq eq_refl eq_refl eq_refl)
        as [(Ha & Hn & Ho) | (Ha & HO1)]
    end.
    + apply Once_of_occurrences; [done|]. intros Hn1.
      rewrite (occ_frame
                 (snd (finallyProcessQueue (_processQueue cfg) now (r, w2))))
        by done.
      pose proof (occ_finally now r w2) as Hle.
      rewrite (occ_for _ _ _ _ _ _ _ Hfor), (Ho Hn1) in Hle. lia.
    + eapply (Once_frame n
                (snd (finallyProcessQueue (_processQueue cfg) now (r, w2))));
        try done.
      apply Once_finally. by eapply Once_for.
Qed.

(** The end of a [_processSend] on an email of id [a] that is not in the
    queue: the id stays out of the queue. *)
Lemma Once_own_finish n now c pr w r w2 :
  n ≠ 0%nat → (n = 1%nat → occurrences a w = 0%nat) →
  (occurrences a w2 ≤ occurrences a w)%nat →
  Once a n
    (deliver c pr (finallyProcessQueue (_processQueue cfg) now (r, w2))).
Proof.
  intros Hn Ho Hle. apply Once_of_occurrences; [done|]. intros Hn1.
  rewrite occ_deliver. pose proof (occ_finally now r w2). specialize (Ho Hn1).
  lia.
Qed.

Lemma Once_untask n w w' pr :
  emailQueue (service w') = emailQueue (service w) →
  tasks w' = delete pr (tasks w) →
  emailStatuses (service w') !! a = emailStatuses (service w) !! a →
  Once a n w → Once a n w'.
Proof.
  intros Hq Ht Hs [H0 H1].
  assert (NoTask a w → NoTask a w') as Hnt.
  { intros Hnt i t. rewrite Ht, lookup_delete. case_decide; [done | apply Hnt]. }
  rewrite <- (occ_frame w w' Hq) in H0, H1.
  split; intros Hn.
  - destruct (H0 Hn) as (? & ? & ?). rewrite Hs. auto.
  - destruct (H1 Hn) as (? & Hone). split; [done|]. intros Hocc.
    destruct (Hone Hocc). rewrite Hs. auto.
Qed.

Lemma Once_retask n w w' pr t t' :
  tasks w !! pr = Some t → t_email t' = t_email t →
  emailQueue (service w') = emailQueue (service w) →
  tasks w' = <[pr := t']> (tasks w) →
  emailStatuses (service w') = emailStatuses (service w) →
  Once a n w → Once a n w'.
Proof.
  intros Hpt He Hq Ht Hs [H0 H1].
  assert (NoTask a w → NoTask a w') as Hnt.
  { intros Hnt i t0. rewrite Ht, lookup_insert.
    case_decide; [|apply Hnt]. intros [= <-]. rewrite He. by eapply Hnt. }
  rewrite <- (occ_frame w w' Hq) in H0, H1. unfold Once. rewrite Hs.
  split; intros Hn.
  - destruct (H0 Hn) as (? & ? & ?). auto.
  - destruct (H1 Hn) as (? & Hone). split; [done|]. intros Hocc.
    destruct (Hone Hocc). auto.
Qed.

(** Every turn keeps what is known of the id, counting the turn itself
    when it is a submission of the id. *)
Lemma Once_step n now l w w' :
  Once a n w → step cfg now l w = Some w' →
  Once a ((if submits a l then 1 else 0) + n) w'.
Proof.
  intros HO Hstep. apply step_result in Hstep.
  inversion Hstep as
    [ e m Hinv | e Hinv Hdup | e Hinv Hdup Hlen | e r w2 Hinv Hdup Hlen Hfor
    | pr t v Ht Hsl | pr t m d Ht Hsl Hmsg Hat Hd | pr t m r w2 Ht Hsl Hat Hfor
    | pr t Ht Hsl Hat | pr t r w2 Ht Hsl Hat Hfor
    | pr j o w1 Hj Hloop | k Hk ]; subst; cbn [submits Nat.add].
  - apply Once_bump. by eapply (Once_frame n w).
  - apply Once_bump. by eapply (Once_frame n w).
  - apply (Once_processQueueAt _ 2). destruct HO as [H0 H1].
    case_bool_decide as Ha; cbn [Nat.add].
    + destruct n as [|n]; [|by apply Once_many; lia].
      destruct (H0 eq_refl) as (Hz & Hnt & Hs). split; [done|]. intros _.
      unfold occurrences in *. cbn. rewrite filter_app, length_app, Hz.
      rewrite filter_cons_True by done. cbn. split; [lia|]. done.
    + unfold Once, occurrences in *. cbn. rewrite filter_app, length_app.
      rewrite filter_cons_False by done. cbn. rewrite Nat.add_0_r. by split.
  - case_bool_decide as Ha; cbn [Nat.add].
    + destruct n as [|n].
      * destruct HO as [H0 _]. destruct (H0 eq_refl) as (Hz & _).
        apply (Once_own_finish 1 now FromSendEmail _ w); [done | done |].
        by rewrite (occ_for _ _ _ _ _ _ _ Hfor).
      * apply Once_many. lia.
    + apply Once_deliver, Once_finally. eapply Once_for; [done | | exact Hfor].
      destruct HO as [H0 H1]. unfold Once, occurrences, NoTask in *. cbn.
      rewrite lookup_insert_ne by done. by split.
  - destruct (decide (emailId (t_email t) = a)) as [Ha | Ha].
    + destruct (Once_task_facts n w pr t HO Ht Ha) as [Hn Ho].
      match goal with
      | |- context [_processQueue cfg now ?w3] =>
        apply (Once_own_finish n now (t_caller t) pr w (Some (Resolved v)) w3);
          [done | done |]
      end.
      rewrite onService_recordSuccess. by rewrite (occ_frame w).
    + apply Once_deliver. cbn [snd]. apply (Once_processQueueAt _ 2).
      rewrite onService_recordSuccess.
      refine (Once_untask n w _ pr _ _ _ HO); try reflexivity.
      cbn. by rewrite lookup_insert_ne.
  - refine (Once_retask n w _ pr t (asleep t _ m) Ht _ _ _ _ HO); reflexivity.
  - rewrite onService_recordFailure in Hfor.
    destruct (decide (emailId (t_email t) = a)) as [Ha | Ha].
    + destruct (Once_task_facts n w pr t HO Ht Ha) as [Hn Ho].
      apply (Once_own_finish n now (t_caller t) pr w); [done | done |].
      rewrite (occ_for _ _ _ _ _ _ _ Hfor). by rewrite (occ_frame w).
    + apply Once_deliver, Once_finally. eapply Once_for; [done | | exact Hfor].
      refine (Once_untask n w _ pr _ _ _ HO); reflexivity.
  - refine (Once_retask n w _ pr t (awake t) Ht _ _ _ _ HO); reflexivity.
  - rewrite onService_recordFailure in Hfor.
    destruct (decide (emailId (t_email t) = a)) as [Ha | Ha].
    + destruct (Once_task_facts n w pr t HO Ht Ha) as [Hn Ho].
      apply (Once_own_finish n now (t_caller t) pr w); [done | done |].
      rewrite (occ_for _ _ _ _ _ _ _ Hfor). by rewrite (occ_frame w).
    + apply Once_deliver, Once_finally. eapply Once_for; [done | | exact Hfor].
      refine (Once_untask n w _ pr _ _ _ HO); reflexivity.
  - eapply Once_loop; [|exact Hloop]. by eapply (Once_frame n w).
  - apply (Once_processQueueAt _ 2). by eapply (Once_frame n w).
Qed.

Lemma Once_run sched :
  ∀ n w w', Once a n w → run cfg sched w = Some w' →
            Once a (n + submissions a sched) w'.
Proof.
  induction sched as [|[now l] sched IH]; intros n w w' HO; cbn [run submissions].
  - intros [= <-]. by rewrite Nat.add_0_r.
  - destruct (step cfg now l w) as [w1|] eqn:Hstep; [|done]. intros Hrun.
    pose proof (Once_step n now l w w1 HO Hstep) as HO1.
    specialize (IH _ _ _ HO1 Hrun).
    replace (n + ((if submits a l then 1 else 0) + submissions a sched))%nat
      with ((if submits a l then 1 else 0) + n + submissions a sched)%nat by lia.
    done.
Qed.

End OnceId.

Lemma occurrences_elem w en :
  en ∈ emailQueue (service w) →
  (1 ≤ occurrences (emailId (q_email en)) w)%nat.
Proof.
  intros Hin. unfold occurrences.
  assert (en ∈ filter (fun en' => emailId (q_email en') = emailId (q_email en))
                 (emailQueue (service w))) as Hf
      by (by apply list_elem_of_filter).
  destruct (filter _ _); [by apply elem_of_nil in Hf | cbn; lia].
Qed.

(** What holds of the statuses.  In every world the service reaches, a
    status is 'processing', 'sent' or 'failed', never 'pending'; a task
    that waits in the queue has no status as long as its id has been
    submitted only once; and denying admission writes no status. *)
Lemma status_tracking :
  ∀ cfg ps o s sched w,
    constructor ps o = Some (cfg, s) →
    run cfg sched (initialWorld s) = Some w →
    (∀ id st,
       getEmailStatus id (service w) = Some st →
       st = processing ∨ st = sent ∨ st = failed) ∧
    (∀ en,
       en ∈ emailQueue (service w) →
       (submissions (emailId (q_email en)) sched ≤ 1)%nat →
       getEmailStatus (emailId (q_email en)) (service w) = None) ∧
    (∀ now e,
       invalidEmail e = false →
       emailId e ∉ sentEmailIds (service w) →
       fst (_isRateLimited cfg now (service w)) = true →
       emailStatuses (service (sendEmail cfg now e w))
         = emailStatuses (service w)).
Proof.
  intros cfg ps o s sched w Hc Hrun. split; [|split].
  - intros id st Hst.
    assert (reachable cfg w) as Hreach by (by exists ps, o, s, sched).
    pose proof (sound_statuses _ _ (Sound_reachable _ _ Hreach) id st Hst).
    destruct st; auto; done.
  - intros en Hin Hsub.
    assert (Once (emailId (q_email en)) 0 (initialWorld s)) as H0.
    { destruct (constructor_config _ _ _ _ Hc) as (_ & -> & _).
      split; [|done]. intros _. done. }
    pose proof (Once_run cfg _ sched 0 _ w H0 Hrun) as [Hz Hone].
    pose proof (occurrences_elem w en Hin) as Hocc. cbn [Nat.add] in Hz, Hone.
    destruct (submissions (emailId (q_email en)) sched) as [|[|k]]; [| |lia].
    + destruct (Hz eq_refl) as (Hzero & _). lia.
    + destruct (Hone eq_refl) as (Hle & Hnone).
      apply Hnone. lia.
  - intros now e Hinv Hdup Hlim.
    by destruct (sendEmail_queued cfg now e w Hinv Hdup Hlim) as (_ & _ & _ & ? & _).
Qed.

(** A waits in the queue, submitted once, and has no status. *)
Example queued_once_has_no_status :
  getEmailStatus "A" (service (worldAfter tightConfig queueOne)) = None.
Proof.
  refine (proj1 (proj2 (status_tracking tightConfig [providerA] tightOptions
                          (freshService [providerA]) queueOne
                          (worldAfter tightConfig queueOne) _ _))
            (mkEntry emailA1 1) _ _).
  - reflexivity.
  - vm_compute. reflexivity.
  - vm_compute. left.
  - vm_compute. lia.
Qed.

(** C10. At the failing input: A is denied and waits in the queue; at
    1005 it is submitted again.  The queue path has not put its id into
    [sentEmailIds], so the second submission is not answered as a
    duplicate: it is let through and sets the status of A to 'processing'
    while the first submission is still queued.  [getEmailStatus] then
    returns 'processing' for a task that waits in the queue, not
    undefined. *)
Example queued_id_with_status :
  ∃ w en,
    constructor [providerA] tightOptions
      = Some (tightConfig, freshService [providerA]) ∧
    run tightConfig resubmitWhileQueued (initialWorld (freshService [providerA]))
      = Some w ∧
    en ∈ emailQueue (service w) ∧
    emailId (q_email en) = "A" ∧
    ("A" ∉ sentEmailIds (service (worldAfter tightConfig queueOne))) ∧
    getEmailStatus (emailId (q_email en)) (service w) = Some processing.
Proof.
  exists (worldAfter tightConfig resubmitWhileQueued), (mkEntry emailA1 1).
  split; [reflexivity|].
  split; [vm_compute; reflexivity|].
  split; [vm_compute; left|].
  split; [reflexivity|].
  split; [vm_compute; set_solver|].
  vm_compute. reflexivity.
Qed.

(** ** Where the code leaves its own documentation *)

(** A submission that was let through at once is remembered: the next
    call with its id settles with the notice that carries the current
    status, and nothing else in the world changes. *)
Lemma sendEmail_duplicate cfg now e w :
  invalidEmail e = false →
  emailId e ∈ sentEmailIds (service w) →
  sendEmail cfg now e w
  = emit (EvSettle (nextPromise w)
            (Resolved (alreadySentMessage (emailId e)
                         (getEmailStatus (emailId e) (service w)))))
      (setNextPromise (S (nextPromise w)) w).
Proof.
  intros Hinv Hdup. unfold sendEmail. rewrite Hinv.
  by rewrite decide_True by done.
Qed.

(** At the failing input of C1: A is denied and queued, submitted again
    at 1005 and let through, and at 2021 sent from the queue as well.
    Provider A is called with both bodies, and the second call of
    [sendEmail] got no 'already sent' notice (no promise is settled). *)
Example duplicate_of_queued_id_is_sent_twice :
  ∃ w,
    run tightConfig resubmitThenDrain (initialWorld (freshService [providerA]))
      = Some w ∧
    invokesOf (pid providerA) (trace w) = [emailA1; emailA2; emailX] ∧
    settledIds (trace w) = [] ∧
    elements (sentEmailIds (service w)) = ["A"; "X"].
Proof.
  eexists. split; [vm_compute; reflexivity|].
  split; [vm_compute; reflexivity|].
  split; vm_compute; reflexivity.
Qed.

(** At the failing input of C2: A is sent from the queue and has status
    'sent'; its id never entered [sentEmailIds], so a later [sendEmail]
    with the same id is let through and sets the status back to
    'processing'. *)
Example status_reverts_after_queued_send :
  ∃ w w',
    run tightConfig resubmitAfterDrain (initialWorld (freshService [providerA]))
      = Some w ∧
    getEmailStatus "A" (service w) = Some sent ∧
    ("A" ∉ sentEmailIds (service w)) ∧
    step tightConfig 2200 (CallSendEmail emailA2) w = Some w' ∧
    getEmailStatus "A" (service w') = Some processing.
Proof.
  eexists _, _. split; [vm_compute; reflexivity|].
  split; [vm_compute; reflexivity|].
  split; [vm_compute; set_solver|].
  split; [vm_compute; reflexivity|].
  vm_compute. reflexivity.
Qed.

(** At the failing input of C4: the circuit of provider A is open since
    203; at 6000 the timeout (5000) has passed and a send is let through as
    the probe; at 6001, with the probe still in flight, a second send is
    let through as well.  [halfOpenAttempts] stays 0 and nothing compares
    it with [circuitBreakerHalfOpenAttempts]. *)
Example half_open_lets_two_probes_through :
  ∃ w t1 t2,
    run eagerConfig openThenTwoProbes (initialWorld (freshService [providerA]))
      = Some w ∧
    invokesOf (pid providerA) (trace w)
      = [emailThree; emailTwo; emailOne; emailOne] ∧
    tasks w !! 1%nat = Some t1 ∧ t_email t1 = emailTwo ∧ t_sleeping t1 = false ∧
    tasks w !! 2%nat = Some t2 ∧ t_email t2 = emailThree ∧ t_sleeping t2 = false ∧
    circuitBreakers (service w) !! pid providerA = Some (mkCircuit false 203 1 0) ∧
    circuitBreakerHalfOpenAttempts eagerConfig = 1%nat.
Proof.
  eexists _, _, _. split; [vm_compute; reflexivity|].
  repeat (split; [vm_compute; reflexivity|]).
  reflexivity.
Qed.
(** ** More on the backoff executor *)

Lemma doubled_delays_from (d : Z) (j : nat) :
  map (fun k => d * 2 ^ Z.of_nat k) (seq 1 (S j))
  = d * 2 :: map (fun k => d * 2 * 2 ^ Z.of_nat k) (seq 1 j).
Proof.
  rewrite doubled_delays_shift. cbn [seq map]. by f_equal.
Qed.

(** Whatever the operation does, the loop makes between one and
    [fuel] invocations and sleeps once between two of them, each time
    twice as long as before. *)
Lemma retryLoop_schedule fn mr id :
  ∀ fuel attempt d le calls sl,
    (attempt + S fuel = S mr)%nat →
    let r := retryLoop fn mr id (S fuel) attempt d le calls sl in
    ∃ j, (j ≤ fuel)%nat ∧ r_calls r = (calls + S j)%nat ∧
         r_sleeps r = sl ++ map (fun k => d * 2 ^ Z.of_nat k) (seq 1 j).
Proof.
  induction fuel as [|fuel IH]; intros attempt d le calls sl Hfuel.
  - cbv zeta. rewrite retryLoop_S. destruct (Nat.leb_spec attempt mr); [|lia].
    exists 0%nat. destruct (fn calls) as [v|error].
    + cbn. rewrite app_nil_r. split; [lia|]. split; [lia | done].
    + destruct (messageThrows error).
      * cbn. rewrite app_nil_r. split; [lia|]. split; [lia | done].
      * rewrite afterFailure_stop by lia. cbn. rewrite app_nil_r.
        split; [lia|]. split; [lia | done].
  - cbv zeta. rewrite retryLoop_S. destruct (Nat.leb_spec attempt mr); [|lia].
    destruct (fn calls) as [v|error].
    + exists 0%nat. cbn. rewrite app_nil_r. split; [lia|]. split; [lia | done].
    + destruct (messageThrows error).
      { exists 0%nat. cbn. rewrite app_nil_r. split; [lia|].
        split; [lia | done]. }
      rewrite afterFailure_retry by lia.
      destruct (IH (S attempt) (d * 2) (Some error) (S calls) (sl ++ [d * 2]))
        as (j & Hj & Hc & Hs); [lia|].
      cbv zeta in Hc, Hs. exists (S j). split; [lia|]. split; [lia|].
      rewrite Hs, doubled_delays_from, <- app_assoc. done.
Qed.

(** X1. Whatever the operation does, [retryWithBackoff] invokes it at least
    once and at most [maxRetries + 1] times, and it sleeps exactly once
    between two invocations (never before the first, never after the
    last): the sleep after invocation [k] lasts [delay * 2^k] ms. *)
Theorem retryWithBackoff_sleep_schedule :
  ∀ (fn : nat → Outcome) (mr : nat) (delay : Z) (id : string),
    let r := retryWithBackoff fn mr delay id in
    (1 ≤ r_calls r ≤ mr + 1)%nat ∧
    r_sleeps r
    = map (fun k => delay * 2 ^ Z.of_nat k) (seq 1 (r_calls r - 1)).
Proof.
  intros fn mr delay id. cbv zeta. unfold retryWithBackoff.
  destruct (retryLoop_schedule fn mr id mr 0%nat delay None 0%nat [])
    as (j & Hj & Hc & Hs); [lia|].
  cbv zeta in Hc, Hs. rewrite Hc, Hs. split; [lia|].
  cbn [app]. do 2 f_equal. lia.
Qed.

Lemma totalDelay_doubling (d : Z) (n : nat) :
  totalDelay (map (fun k => d * 2 ^ Z.of_nat k) (seq 1 n))
  = d * (2 ^ Z.of_nat (S n) - 2).
Proof.
  induction n as [|n IH].
  - cbn. lia.
  - rewrite seq_S, map_app. unfold totalDelay in *. rewrite foldr_app.
    cbn [map foldr]. 
    assert (∀ l a, foldr Z.add a l = foldr Z.add 0 l + a) as Hacc.
    { induction l as [|x l IHl]; intros a; cbn; [lia|]. rewrite IHl. lia. }
    rewrite Hacc, IH.
    replace (Z.of_nat (S (S n))) with (Z.of_nat (S n) + 1) by lia.
    replace (Z.of_nat (1 + n)) with (Z.of_nat (S n)) by lia.
    rewrite Z.pow_add_r by lia. lia.
Qed.

(** X2. Whatever the operation does, the sleeps of one
    [retryWithBackoff] call add up to [delay * (2^calls - 2)] ms, where
    [calls] is the number of invocations the call made.  When every
    attempt is rejected with a value other than [null] and [undefined],
    that is [delay * (2^(maxRetries + 1) - 2)] ms: that long the executor
    waits, on top of the attempts themselves, before it gives the
    operation up; and for a delay that is not negative no call sleeps
    longer than that in all. *)
Theorem retryWithBackoff_total_backoff :
  ∀ (fn : nat → Outcome) (mr : nat) (delay : Z) (id : string),
    let r := retryWithBackoff fn mr delay id in
    totalDelay (r_sleeps r) = delay * (2 ^ Z.of_nat (r_calls r) - 2) ∧
    ((∀ n, rejectsWithValue (fn n)) →
       totalDelay (r_sleeps r) = delay * (2 ^ Z.of_nat (mr + 1) - 2)) ∧
    (0 ≤ delay →
       totalDelay (r_sleeps r) ≤ delay * (2 ^ Z.of_nat (mr + 1) - 2)).
Proof.
  intros fn mr delay id. cbv zeta.
  assert (totalDelay (r_sleeps (retryWithBackoff fn mr delay id))
          = delay * (2 ^ Z.of_nat (r_calls (retryWithBackoff fn mr delay id)) - 2)
          ∧ (1 ≤ r_calls (retryWithBackoff fn mr delay id) ≤ mr + 1)%nat)
    as [Htotal Hcalls].
  { unfold retryWithBackoff.
    destruct (retryLoop_schedule fn mr id mr 0%nat delay None 0%nat [])
      as (j & Hj & Hc & Hs); [lia|].
    cbv zeta in Hc, Hs. rewrite Hc, Hs. cbn [app].
    rewrite totalDelay_doubling. split; [|lia].
    by replace (0 + S j)%nat with (S j) by lia. }
  split; [done|]. split.
  - intros Hrej.
    rewrite (retryWithBackoff_delays fn mr delay id Hrej), totalDelay_doubling.
    by replace (S mr) with (mr + 1)%nat by lia.
  - intros Hdelay. rewrite Htotal.
    apply Z.mul_le_mono_nonneg_l; [done|].
    apply Z.sub_le_mono_r, Z.pow_le_mono_r; lia.
Qed.

Lemma retryWithBackoff_total_backoff_witness :
  totalDelay
    (r_sleeps (retryWithBackoff (fun _ => Rejected (Error "down")) 3 100 "id-1"))
  = 100 * (2 ^ Z.of_nat (3 + 1) - 2)
  ∧ totalDelay
      (r_sleeps (retryWithBackoff (fun _ => Rejected Null) 3 100 "id-1"))
    ≤ 100 * (2 ^ Z.of_nat (3 + 1) - 2).
Proof.
  split.
  - apply (retryWithBackoff_total_backoff
             (fun _ => Rejected (Error "down")) 3 100 "id-1").
    intros n. by eexists.
  - apply (retryWithBackoff_total_backoff (fun _ => Rejected Null) 3 100 "id-1").
    lia.
Defined.
(** ** More on construction *)

Lemma initialBreakers_lookup ps k :
  initialBreakers ps !! k
  = if decide (k ∈ pid <$> ps) then Some closedCircuit else None.
Proof.
  unfold initialBreakers. induction ps as [|p ps IH].
  - cbn. by rewrite lookup_empty, decide_False by set_solver.
  - cbn [map]. rewrite list_to_map_cons, fmap_cons.
    destruct (decide (k = pid p)) as [-> | Hne].
    + rewrite lookup_insert_eq. by rewrite decide_True by set_solver.
    + rewrite lookup_insert_ne by done. rewrite IH.
      destruct (decide (k ∈ pid <$> ps)).
      * by rewrite decide_True by set_solver.
      * by rewrite decide_False by set_solver.
Qed.

Lemma constructor_positive ps o cfg s :
  constructor ps o = Some (cfg, s) →
  (1 ≤ maxRetries cfg)%nat ∧ (1 ≤ maxRequestsPerWindow cfg)%nat ∧
  (1 ≤ circuitBreakerThreshold cfg)%nat.
Proof.
  intros Hc. destruct (constructor_config _ _ _ _ Hc) as (-> & _ & _). cbn.
  unfold orDefaultNat.
  repeat split; case_match; try lia; case_match; try lia;
    match goal with H : (_ =? 0)%nat = false |- _ => apply Nat.eqb_neq in H; lia end.
Qed.

(** X3. The constructor throws exactly when the list of providers is
    empty.  Otherwise it keeps the list, starts at provider 0 with no id
    remembered, no timestamp, no status, an empty queue and no drain
    running, and gives a closed circuit with zero counts to each listed
    provider and to nothing else. *)
Theorem constructor_fresh_service :
  ∀ ps o,
    (constructor ps o = None ↔ ps = []) ∧
    (∀ cfg s,
       constructor ps o = Some (cfg, s) →
       providers cfg = ps ∧
       currentProviderIndex s = 0%nat ∧
       sentEmailIds s = ∅ ∧
       requestTimestamps s = [] ∧
       emailStatuses s = ∅ ∧
       emailQueue s = [] ∧
       isProcessingQueue s = false ∧
       (∀ p, p ∈ ps → circuitBreakers s !! pid p = Some (mkCircuit false 0 0 0)) ∧
       (∀ k, k ∉ pid <$> ps → circuitBreakers s !! k = None)).
Proof.
  intros ps o. split.
  - destruct ps; cbn; split; done.
  - intros cfg s Hc.
    destruct (constructor_config _ _ _ _ Hc) as (-> & -> & Hne). cbn.
    repeat split; try done.
    + intros p Hp. rewrite initialBreakers_lookup.
      by rewrite decide_True by set_solver.
    + intros k Hk. rewrite initialBreakers_lookup. by rewrite decide_False.
Qed.

(** X4. Two options are stored by the constructor and read by nothing:
    whatever [idempotencyWindowMs] and [circuitBreakerHalfOpenAttempts]
    are set to, every turn of the event loop, and so every schedule, does
    the same. *)
Theorem unread_options_change_nothing :
  ∀ cfg window attempts,
    (∀ now l w, step (withUnread window attempts cfg) now l w = step cfg now l w) ∧
    (∀ sched w, run (withUnread window attempts cfg) sched w = run cfg sched w).
Proof.
  intros cfg window attempts.
  assert (∀ now l w,
            step (withUnread window attempts cfg) now l w = step cfg now l w)
    as Hstep.
  { intros now l w. destruct cfg. reflexivity. }
  split; [exact Hstep|].
  induction sched as [|[now l] sched IH]; intros w; cbn [run]; [done|].
  rewrite Hstep. destruct (step cfg now l w); [apply IH | done].
Qed.

(** ** More on rate limiting and the queue *)

(** X5. The limiter of a constructed service never denies for good: when
    every recorded timestamp is at least [rateLimitWindowMs] old, the
    check lets the request through and the window holds just its
    timestamp. *)
Theorem isRateLimited_admits_after_quiet_window :
  ∀ ps o cfg s0 s now,
    constructor ps o = Some (cfg, s0) →
    (∀ t, t ∈ requestTimestamps s → rateLimitWindowMs cfg ≤ now - t) →
    _isRateLimited cfg now s = (false, set_requestTimestamps [now] s).
Proof.
  intros ps o cfg s0 s now Hc Hold.
  destruct (constructor_positive _ _ _ _ Hc) as (_ & Hmax & _).
  assert (pruneWindow cfg now (requestTimestamps s) = []) as Hnil.
  { apply elem_of_nil_inv. intros t Ht.
    apply pruneWindow_elem in Ht as [Hin Hlt]. specialize (Hold t Hin). lia. }
  destruct (isRateLimited_cases cfg now s) as [[Hlen ->] | [Hlen ->]];
    rewrite Hnil in *; cbn [length] in *; [lia | done].
Qed.

Lemma isRateLimited_admits_after_quiet_window_witness :
  _isRateLimited tightConfig 1000
    (set_requestTimestamps [0] (freshService [providerA]))
  = (false,
     set_requestTimestamps [1000]
       (set_requestTimestamps [0] (freshService [providerA]))).
Proof.
  refine (isRateLimited_admits_after_quiet_window [providerA] tightOptions
            tightConfig (freshService [providerA])
            (set_requestTimestamps [0] (freshService [providerA])) 1000 _ _).
  - reflexivity.
  - intros t Ht. apply list_elem_of_singleton in Ht as ->. cbn. lia.
Defined.

(** When the limiter denies, a [_processQueue] that gets into its loop
    leaves it at once and sets the timer. *)
Lemma processQueue_denied cfg now w :
  isProcessingQueue (service w) = false →
  emailQueue (service w) ≠ [] →
  (maxRequestsPerWindow cfg
     ≤ length (pruneWindow cfg now (requestTimestamps (service w))))%nat →
  _processQueue cfg now w
  = emit (EvSetTimeout (rateLimitWindowMs cfg + 10))
      (setTimers (S (timers w))
         (onService
            (fun s =>
               set_requestTimestamps (pruneWindow cfg now (requestTimestamps s)) s)
            w)).
Proof.
  intros Hflag Hq Hlen. unfold _processQueue.
  destruct (processQueueAt_form cfg 1 now w) as [[_ [Hf | Hq']] | (_ & _ & HD)];
    [congruence | done |].
  remember (processQueueAt cfg 2 now w) as w' eqn:Hw'. clear Hw'.
  inversion HD as [Hq0 Heq | en rest Hq0 Hlen0 Heq | en rest r w2 Hq0 Hlen0 Hfor Heq];
    subst; ws.
  - done.
  - destruct w as [s tk dr tm np tr], s; cbn in *. by subst.
  - lia.
Qed.

(** X6. A valid, new submission that the limiter denies starts no send in
    its own turn, not even when the queue was empty: it is put at the end
    of the queue, and then either a [_processQueue] is already suspended
    in its loop and nothing else happens, or the immediate
    [_processQueue()] is denied as well and sets a timer for
    [rateLimitWindowMs + 10] ms. *)
Theorem sendEmail_denied_schedules_retry :
  ∀ cfg now e w,
    invalidEmail e = false →
    emailId e ∉ sentEmailIds (service w) →
    fst (_isRateLimited cfg now (service w)) = true →
    let queued :=
      onService
        (fun s =>
           set_emailQueue (emailQueue s ++ [mkEntry e (nextPromise w)])
             (set_requestTimestamps
                (pruneWindow cfg now (requestTimestamps s)) s))
        (setNextPromise (S (nextPromise w)) w) in
    (isProcessingQueue (service w) = true → sendEmail cfg now e w = queued) ∧
    (isProcessingQueue (service w) = false →
     sendEmail cfg now e w
     = emit (EvSetTimeout (rateLimitWindowMs cfg + 10))
         (setTimers (S (timers w)) queued)).
Proof.
  intros cfg now e w Hinv Hdup Hlim. cbv zeta.
  assert (sendEmail cfg now e w
          = _processQueue cfg now
              (onService
                 (fun s =>
                    set_emailQueue (emailQueue s ++ [mkEntry e (nextPromise w)])
                      (set_requestTimestamps
                         (pruneWindow cfg now (requestTimestamps s)) s))
                 (setNextPromise (S (nextPromise w)) w))) as ->.
  { unfold sendEmail. rewrite Hinv. rewrite decide_False by done.
    destruct (isRateLimited_cases cfg now (service w)) as [[Hlen Heq] | [Hlen Heq]];
      rewrite Heq in Hlim; [|done].
    ws. by rewrite Heq. }
  assert (maxRequestsPerWindow cfg
            ≤ length (pruneWindow cfg now (requestTimestamps (service w))))%nat
    as Hlen.
  { destruct (isRateLimited_cases cfg now (service w)) as [[Hlen Heq] | [Hlen Heq]];
      rewrite Heq in Hlim; done. }
  split; intros Hflag.
  - by apply processQueueAt_busy.
  - rewrite processQueue_denied; ws.
    + unfold emit, setTimers, onService, setService, setNextPromise,
        set_emailQueue, set_requestTimestamps. cbn.
      fold (pruneWindow cfg now
              (pruneWindow cfg now (requestTimestamps (service w)))).
      by rewrite pruneWindow_idem.
    + done.
    + by destruct (emailQueue (service w)).
    + by rewrite pruneWindow_idem.
Qed.

Lemma sendEmail_denied_schedules_retry_witness :
  sendEmail tightConfig 1 emailA1
    (worldAfter tightConfig [(0, CallSendEmail emailX)])
  = emit (EvSetTimeout (rateLimitWindowMs tightConfig + 10))
      (setTimers (S (timers (worldAfter tightConfig [(0, CallSendEmail emailX)])))
         (onService
            (fun s =>
               set_emailQueue
                 (emailQueue s
                    ++ [mkEntry emailA1
                          (nextPromise
                             (worldAfter tightConfig [(0, CallSendEmail emailX)]))])
                 (set_requestTimestamps
                    (pruneWindow tightConfig 1 (requestTimestamps s)) s))
            (setNextPromise
               (S (nextPromise (worldAfter tightConfig [(0, CallSendEmail emailX)])))
               (worldAfter tightConfig [(0, CallSendEmail emailX)])))).
Proof.
  refine (proj2 (sendEmail_denied_schedules_retry tightConfig 1 emailA1
            (worldAfter tightConfig [(0, CallSendEmail emailX)]) _ _ _) _).
  - reflexivity.
  - vm_compute. set_solver.
  - vm_compute. reflexivity.
  - vm_compute. reflexivity.
Defined.

(** ** The provider loop in full *)

Lemma setService_same w : setService (service w) w = w.
Proof. by destruct w. Qed.

(** A check that blocks changes nothing. *)
Lemma isCircuitOpen_blocking cfg now p s s' :
  _isCircuitOpen cfg now p s = (true, s') → s' = s.
Proof.
  unfold _isCircuitOpen. destruct (circuitBreakers s !! pid p) as [st|] eqn:Hp;
    [|by intros [= ]].
  destruct (checkCircuit (circuitBreakerTimeoutMs cfg) now st) as [b st'] eqn:Hc.
  intros [= -> <-]. apply checkCircuit_true in Hc as (-> & _ & _).
  rewrite insert_id by done. apply set_circuitBreakers_same.
Qed.

Lemma rotation_in_range cfg s i :
  providers cfg ≠ [] → is_Some (rotation cfg s i).
Proof.
  intros Hne. unfold rotation. apply lookup_lt_is_Some.
  apply Nat.mod_upper_bound. by destruct (providers cfg).
Qed.

Lemma forProviders_pick cfg :
  ∀ remaining now c pr e le w,
    (remaining ≤ length (providers cfg))%nat →
    ForPick cfg now c pr e le remaining w
      (forProviders cfg remaining now c pr e le w).
Proof.
  induction remaining as [|remaining IH]; intros now c pr e le w Hrem.
  - cbn [forProviders]. rewrite setStatus_twice.
    apply (PickNone cfg now c pr e le 0 w). intros j q Hj. lia.
  - cbn [forProviders].
    assert (providers cfg ≠ []) as Hne by (destruct (providers cfg); cbn in *; [lia | done]).
    destruct (rotation_in_range cfg (service w)
                (length (providers cfg) - S remaining) Hne) as [p Hp].
    unfold rotation in Hp. rewrite Hp.
    destruct (_isCircuitOpen cfg now p (service w)) as [blocked s1] eqn:Hc.
    destruct blocked.
    + apply isCircuitOpen_blocking in Hc as Hs. subst s1.
      rewrite setService_same.
      specialize (IH now c pr e (Some ("Circuit open for " +:+ providerName p)) w).
      assert (remaining ≤ length (providers cfg))%nat as Hrem' by lia.
      specialize (IH Hrem').
      assert (∀ j q,
                (length (providers cfg) - S remaining ≤ j
                 < S (length (providers cfg) - S remaining))%nat →
                rotation cfg (service w) j = Some q →
                blocking cfg now (service w) q) as Hfirst.
      { intros j q Hj Hq.
        assert (j = length (providers cfg) - S remaining)%nat as -> by lia.
        unfold rotation in Hq. rewrite Hp in Hq. injection Hq as <-.
        unfold blocking. by rewrite Hc. }
      inversion IH as [i q Hi Hq Hbefore Hopen Heq | Hall Heq].
      * apply PickInvoked; [lia | done | | done].
        intros j q' Hj Hq'.
        destruct (decide (j = length (providers cfg) - S remaining)%nat) as [-> | Hj'].
        -- apply (Hfirst (length (providers cfg) - S remaining)%nat q'); [lia | done].
        -- apply (Hbefore j q'); [lia | done].
      * assert (lastCircuitError cfg (service w) remaining
                  (Some ("Circuit open for " +:+ providerName p))
                = lastCircuitError cfg (service w) (S remaining) le) as ->.
        { unfold lastCircuitError. destruct remaining as [|remaining'].
          - unfold rotation. by rewrite Hp.
          - destruct (rotation_in_range cfg (service w)
                        (length (providers cfg) - 1) Hne) as [q Hq].
            by rewrite Hq. }
        apply PickNone. intros j q' Hj Hq'.
        destruct (decide (j = length (providers cfg) - S remaining)%nat) as [-> | Hj'].
        -- apply (Hfirst (length (providers cfg) - S remaining)%nat q'); [lia | done].
        -- apply (Hall j q'); [lia | done].
    + replace s1 with (snd (_isCircuitOpen cfg now p (service w)))
        by (by rewrite Hc).
      refine (PickInvoked cfg now c pr e le (S remaining) w
                (length (providers cfg) - S remaining)%nat p _ Hp _ _).
      * lia.
      * intros j q Hj. lia.
      * by rewrite Hc.
Qed.

(** The provider loop in full does what [ForResult] says. *)
Lemma ForPick_result cfg now c pr e le rem w x :
  ForPick cfg now c pr e le rem w x → ForResult cfg now c pr e w x.
Proof.
  inversion 1 as [i p Hi Hp Hbefore Hopen | Hall]; subst.
  - destruct (isCircuitOpen_form cfg now p (service w)) as (cb' & Hs & Hstep & Hcl).
    rewrite Hs.
    refine (ForSuspended cfg now c pr e w cb'
              (mkTask c e i _ p 0 (initialRetryDelay cfg) None false)
              Hstep _ _ _ _ _); try done.
    by apply Hcl.
  - rewrite <- (onService_same_breakers w) at 2.
    apply ForAllFailed, cbStep_refl.
Qed.

Lemma ForPick_flag cfg now c pr e le rem w r w' :
  ForPick cfg now c pr e le rem w (r, w') →
  isProcessingQueue (service w') = isProcessingQueue (service w).
Proof. intros H. eapply ForResult_flag, ForPick_result, H. Qed.

Lemma whileQueue_busy_pick cfg d now w :
  isProcessingQueue (service w) = true →
  DrainPick cfg now w (whileQueue cfg (processQueueAt cfg d) now w).
Proof.
  intros Hflag. unfold whileQueue.
  destruct (emailQueue (service w)) as [|en rest] eqn:Hq.
  - unfold afterLoop. cbn. rewrite Hq. by apply DrainPickEmpty.
  - destruct (isRateLimited_cases cfg now (service w)) as [[Hlen ->] | [Hlen ->]].
    + unfold afterLoop. cbn. rewrite Hq. by eapply DrainPickLimited.
    + unfold processSendWith.
      pose proof (forProviders_pick cfg (length (providers cfg)) now FromQueue
                    (q_promise en) (q_email en) None
                    (setService
                       (set_emailQueue rest
                          (set_requestTimestamps
                             (pruneWindow cfg now (requestTimestamps (service w))
                                ++ [now]) (service w))) w) (le_n _)) as Hfor.
      destruct (forProviders _ _ _ _ _ _ _ _) as [r w2] eqn:Hfp.
      assert (isProcessingQueue (service w2) = true) as Hflag2.
      { erewrite ForPick_flag by exact Hfor. done. }
      destruct r as [o|]; cbn [finallyProcessQueue].
      * rewrite processQueueAt_busy by done.
        eapply DrainPickPopped; [done | done | exact Hfor].
      * eapply DrainPickPopped; [done | done | exact Hfor].
Qed.

Lemma processQueueAt_pick cfg d now w :
  (processQueueAt cfg (S d) now w = w ∧
   (isProcessingQueue (service w) = true ∨ emailQueue (service w) = []))
  ∨ (isProcessingQueue (service w) = false ∧ emailQueue (service w) ≠ [] ∧
     DrainPick cfg now (onService (set_isProcessingQueue true) w)
       (processQueueAt cfg (S d) now w)).
Proof.
  cbn [processQueueAt].
  destruct (isProcessingQueue (service w)) eqn:Hflag; cbn [orb]; [by left; auto|].
  destruct (emailQueue (service w)) as [|en rest] eqn:Hq.
  - left. rewrite bool_decide_eq_true_2 by done. auto.
  - right. rewrite bool_decide_eq_false_2 by done.
    split; [done|]. split; [done|]. by apply whileQueue_busy_pick.
Qed.

Lemma processQueue_pick cfg now w :
  (_processQueue cfg now w = w ∧
   (isProcessingQueue (service w) = true ∨ emailQueue (service w) = []))
  ∨ (isProcessingQueue (service w) = false ∧ emailQueue (service w) ≠ [] ∧
     DrainPick cfg now (onService (set_isProcessingQueue true) w)
       (_processQueue cfg now w)).
Proof. apply (processQueueAt_pick cfg 1). Qed.

Lemma providerFailed_pick cfg now pr t err w :
  ∃ r w2,
    ForPick cfg now (t_caller t) pr (t_email t) (Some err)
      (length (providers cfg) - S (t_i t))
      (onService (_recordFailure cfg now (t_provider t))
         (setTasks (delete pr (tasks w)) w))
      (r, w2) ∧
    providerFailed cfg (_processQueue cfg) now pr t err w
      = finallyProcessQueue (_processQueue cfg) now (r, w2).
Proof.
  unfold providerFailed.
  match goal with
  | |- context [forProviders cfg ?n now ?c pr ?e ?l ?w0] =>
    pose proof (forProviders_pick cfg n now c pr e l w0) as Hfor;
    destruct (forProviders cfg n now c pr e l w0) as [r w2]
  end.
  exists r, w2. split; [apply Hfor; lia | done].
Qed.

Lemma providerExhausted_pick cfg now pr t le w :
  ∃ r w2,
    ForPick cfg now (t_caller t) pr (t_email t)
      (Some (exhaustedMessage (maxRetries cfg) (emailId (t_email t)) le))
      (length (providers cfg) - S (t_i t))
      (onService (_recordFailure cfg now (t_provider t))
         (setTasks (delete pr (tasks w)) w))
      (r, w2) ∧
    providerExhausted cfg (_processQueue cfg) now pr t le w
      = finallyProcessQueue (_processQueue cfg) now (r, w2).
Proof. apply providerFailed_pick. Qed.

(** [step] does one of the things [Turn] lists. *)
Lemma step_turn cfg now l w w' :
  step cfg now l w = Some w' → Turn cfg now w l w'.
Proof.
  destruct l as [e | pr o | pr | pr | ]; cbn [step].
  - intros [= <-]. unfold sendEmail.
    destruct (invalidEmail e) eqn:Hinv; [exact (TurnInvalid cfg now w e Hinv)|].
    case_decide as Hdup; [exact (TurnDuplicate cfg now w e Hinv Hdup)|].
    destruct (isRateLimited_cases cfg now
                (service (setNextPromise (S (nextPromise w)) w)))
      as [[Hlen ->] | [Hlen ->]].
    + exact (TurnQueued cfg now w e Hinv Hdup Hlen).
    + unfold _processSend, processSendWith.
      match goal with
      | |- context [forProviders cfg ?n now ?c ?p e None ?w0] =>
        pose proof (forProviders_pick cfg n now c p e None w0 (le_n _)) as Hfor;
        destruct (forProviders cfg n now c p e None w0) as [r w2]
      end.
      exact (TurnStarted cfg now w e r w2 Hinv Hdup Hlen Hfor).
  - destruct (tasks w !! pr) as [t|] eqn:Ht; [|done].
    destruct (t_sleeping t) eqn:Hsl; [done|]. intros [= <-].
    unfold providerSettled. destruct o as [v|m].
    + by apply TurnDelivered.
    + destruct (messageThrows m) as [typeError|] eqn:Hmsg.
      { destruct (providerFailed_pick cfg now pr t typeError w)
          as (r & w2 & Hfor & ->).
        by eapply TurnThrew. }
      unfold afterFailure.
      destruct (Nat.leb_spec (S (t_attempt t)) (maxRetries cfg)).
      * by apply TurnRetry.
      * destruct (providerExhausted_pick cfg now pr t (Some m) w)
          as (r & w2 & Hfor & ->).
        by eapply TurnExhausted.
  - destruct (tasks w !! pr) as [t|] eqn:Ht; [|done].
    destruct (t_sleeping t) eqn:Hsl; [|done]. intros [= <-].
    unfold sleepEnded.
    destruct (Nat.leb_spec (t_attempt t) (maxRetries cfg)).
    + by apply TurnWoken.
    + destruct (providerExhausted_pick cfg now pr t (t_lastError t) w)
        as (r & w2 & Hfor & ->).
      by eapply TurnOverslept.
  - destruct (list_find _ _) as [[k [pr' [o|]]]|] eqn:Hfind; [|done..].
    intros [= <-]. apply list_find_Some in Hfind as (Hk & [Hpr _] & _).
    cbn in Hpr. subst pr'. by eapply TurnResumed.
  - destruct (timers w) as [|n] eqn:Hn; [done|]. intros [= <-].
    by apply TurnTimer.
Qed.

(** ** More invariants *)

Lemma Tidy_frame cfg w w' :
  currentProviderIndex (service w') = currentProviderIndex (service w) →
  tasks w' = tasks w →
  circuitBreakers (service w') = circuitBreakers (service w) →
  emailQueue (service w') = emailQueue (service w) →
  invocations (trace w') = invocations (trace w) →
  backoffs (trace w') = backoffs (trace w) →
  sentEmailIds (service w') = sentEmailIds (service w) →
  emailStatuses (service w') = emailStatuses (service w) →
  Tidy cfg w → Tidy cfg w'.
Proof.
  intros H1 H2 H3 H4 H5 H6 H7 H8 [T1 T2 T3 T4 T5 T6 T7].
  split; rewrite ?H1, ?H2, ?H3, ?H4, ?H5, ?H6, ?H7, ?H8; done.
Qed.

Ltac tidy_frame H :=
  match type of H with
  | Tidy ?cfg ?w => refine (Tidy_frame cfg w _ _ _ _ _ _ _ _ _ H); reflexivity
  end.

Lemma cbStep_dom cfg now cb cb' k :
  cbStep cfg now cb cb' → is_Some (cb' !! k) ↔ is_Some (cb !! k).
Proof.
  intros Hstep. destruct (Hstep k) as [-> | ->]; [done|].
  by rewrite fmap_is_Some.
Qed.

Lemma Tidy_setStatus cfg id st w : Tidy cfg w → Tidy cfg (setStatus id st w).
Proof.
  intros [T1 T2 T3 T4 T5 T6 T7]. split; try done. ws. intros a Ha.
  destruct (decide (a = id)) as [-> | Hne].
  - rewrite lookup_insert_eq. by eexists.
  - rewrite lookup_insert_ne by done. by apply T7.
Qed.

Lemma Tidy_pick cfg now c pr e le rem w r w' :
  Tidy cfg w → invalidEmail e = false →
  ForPick cfg now c pr e le rem w (r, w') → Tidy cfg w'.
Proof.
  intros HT He.
  inversion 1 as [i p Hi Hp Hbefore Hopen | Hall]; subst.
  - destruct (isCircuitOpen_form cfg now p (service w)) as (cb' & Hs & Hstep & _).
    rewrite Hs. destruct HT as [T1 T2 T3 T4 T5 T6 T7]. split; ws; try done.
    + intros pr' t. destruct (decide (pr' = pr)) as [-> | Hne].
      * rewrite lookup_insert_eq. intros [= <-]. unfold TaskOk. cbn.
        split; [exact Hp|]. split; [lia|]. split; [done|]. split; [lia|].
        split; [lia | done].
      * rewrite lookup_insert_ne by done. apply T2.
    + intros k. rewrite (cbStep_dom cfg now _ _ k Hstep). apply T3.
    + intros q e'. cbn. rewrite elem_of_cons. intros [[= -> ->] | Hin].
      * split; [|done]. by eapply list_elem_of_lookup_2.
      * by apply T5.
  - by apply Tidy_setStatus.
Qed.

Lemma Tidy_afterLoop cfg w : Tidy cfg w → Tidy cfg (afterLoop cfg w).
Proof.
  intros HT. unfold afterLoop. ws.
  destruct (emailQueue (service w)); tidy_frame HT.
Qed.

Lemma Tidy_finallyWith cfg (pq : Z → World → World) now r w :
  (∀ u, Tidy cfg u → Tidy cfg (pq now u)) →
  Tidy cfg w → Tidy cfg (snd (finallyProcessQueue pq now (r, w))).
Proof. intros Hpq HT. destruct r; cbn; auto. Qed.

Lemma Tidy_whileQueue cfg (pq : Z → World → World) now w :
  (∀ u, Tidy cfg u → Tidy cfg (pq now u)) →
  Tidy cfg w → Tidy cfg (whileQueue cfg pq now w).
Proof.
  intros Hpq HT. unfold whileQueue.
  destruct (emailQueue (service w)) as [|en rest] eqn:Hq.
  - by apply Tidy_afterLoop.
  - destruct (isRateLimited_cases cfg now (service w)) as [[Hlen ->] | [Hlen ->]].
    + apply Tidy_afterLoop. tidy_frame HT.
    + unfold processSendWith.
      match goal with
      | |- context [forProviders cfg ?n now ?c ?p ?e None ?w0] =>
        pose proof (forProviders_pick cfg n now c p e None w0 (le_n _)) as Hfor;
        destruct (forProviders cfg n now c p e None w0) as [r w2]
      end.
      assert (Tidy cfg w2) as HT2.
      { eapply Tidy_pick; [| |exact Hfor].
        - destruct HT as [T1 T2 T3 T4 T5 T6 T7]. split; ws; try done.
          intros en' Hin. apply T4. rewrite Hq, elem_of_cons. by right.
        - apply (tidy_queue _ _ HT). rewrite Hq, elem_of_cons. by left. }
      pose proof (Tidy_finallyWith cfg pq now r w2 Hpq HT2) as HT3.
      destruct (finallyProcessQueue pq now (r, w2)) as [r' w3]. cbn [snd] in HT3.
      tidy_frame HT3.
Qed.

Lemma Tidy_processQueueAt cfg d now w :
  Tidy cfg w → Tidy cfg (processQueueAt cfg d now w).
Proof.
  revert now w. induction d as [|d IH]; intros now w HT; cbn [processQueueAt]; [done|].
  destruct (isProcessingQueue (service w) || bool_decide (emailQueue (service w) = []));
    [done|].
  apply Tidy_whileQueue; [intros u; apply IH|]. tidy_frame HT.
Qed.

Lemma Tidy_finally cfg now r w :
  Tidy cfg w →
  Tidy cfg (snd (finallyProcessQueue (_processQueue cfg) now (r, w))).
Proof.
  apply Tidy_finallyWith. intros u. apply Tidy_processQueueAt.
Qed.

Lemma Tidy_deliver cfg c pr x : Tidy cfg (snd x) → Tidy cfg (deliver c pr x).
Proof.
  destruct x as [[o|] w]; cbn [snd deliver]; [|done].
  intros HT. destruct c; tidy_frame HT.
Qed.

Lemma alter_dom {A} (f : A → A) (k j : nat) (m : gmap nat A) :
  is_Some (alter f k m !! j) ↔ is_Some (m !! j).
Proof.
  destruct (decide (k = j)) as [-> | Hne].
  - rewrite lookup_alter_eq. by rewrite fmap_is_Some.
  - by rewrite lookup_alter_ne.
Qed.

Lemma Tidy_untask cfg w pr (f : CircuitState → CircuitState) j :
  Tidy cfg w →
  Tidy cfg
    (onService (fun s => set_circuitBreakers (alter f j (circuitBreakers s)) s)
       (setTasks (delete pr (tasks w)) w)).
Proof.
  intros [T1 T2 T3 T4 T5 T6 T7]. split; ws; try done.
  - intros pr' t Hl. apply lookup_delete_Some in Hl as [_ Hl]. by eapply T2.
  - intros k. rewrite alter_dom. apply T3.
Qed.

(** Every turn of the event loop keeps the world tidy. *)
Lemma Tidy_step cfg now l w w' :
  Tidy cfg w → step cfg now l w = Some w' → Tidy cfg w'.
Proof.
  intros HT Hstep. apply step_turn in Hstep.
  inversion Hstep as
    [ e Hinv | e Hinv Hdup | e Hinv Hdup Hlen | e r w2 Hinv Hdup Hlen Hfor
    | pr t v Ht Hsl | pr t m typeError r w2 Ht Hsl Hmsg Hfor
    | pr t m Ht Hsl Hmsg Hat | pr t m r w2 Ht Hsl Hmsg Hat Hfor
    | pr t Ht Hsl Hat | pr t r w2 Ht Hsl Hat Hfor
    | pr k o Hk | n Hn ]; subst.
  - tidy_frame HT.
  - tidy_frame HT.
  - apply Tidy_processQueueAt.
    destruct HT as [T1 T2 T3 T4 T5 T6 T7]. split; ws; try done.
    intros en. rewrite elem_of_app, list_elem_of_singleton.
    intros [Hin | ->]; [by apply T4 | done].
  - apply Tidy_deliver, Tidy_finally. eapply Tidy_pick; [|exact Hinv|exact Hfor].
    destruct HT as [T1 T2 T3 T4 T5 T6 T7]. split; ws; try done.
    intros id. destruct (decide (id = emailId e)) as [-> | Hne].
    + intros _. rewrite lookup_insert_eq. by eexists.
    + rewrite lookup_insert_ne by done. intros Hin. apply T7. set_solver.
  - apply Tidy_deliver. cbn [snd]. apply Tidy_processQueueAt.
    rewrite onService_recordSuccess.
    pose proof (tidy_tasks _ _ HT pr t Ht) as (Hp & _).
    pose proof (Tidy_setStatus cfg (emailId (t_email t)) sent _
                  (Tidy_untask cfg w pr succeedCircuit (pid (t_provider t)) HT))
      as [T1 T2 T3 T4 T5 T6 T7].
    split; ws; try done. by eapply lookup_lt_Some.
  - pose proof (tidy_tasks _ _ HT pr t Ht) as (Hp & Hi & He & Ha & Hd & Hz).
    apply Tidy_deliver, Tidy_finally. eapply Tidy_pick; [|exact He|exact Hfor].
    rewrite onService_recordFailure. by apply Tidy_untask.
  - pose proof (tidy_tasks _ _ HT pr t Ht) as (Hp & Hi & He & Ha & Hd & Hz).
    destruct HT as [T1 T2 T3 T4 T5 T6 T7]. split; ws; try done.
    + intros pr' t'. destruct (decide (pr' = pr)) as [-> | Hne].
      * rewrite lookup_insert_eq. intros [= <-]. unfold TaskOk, asleep. cbn.
        repeat split; try done; try lia. rewrite Hd.
        replace (Z.of_nat (S (t_attempt t))) with (Z.of_nat (t_attempt t) + 1)
          by lia.
        rewrite Z.pow_add_r by lia. lia.
      * rewrite lookup_insert_ne by done. apply T2.
    + intros d. cbn. rewrite elem_of_cons. intros [-> | Hin]; [|by apply T6].
      exists (S (t_attempt t)). split; [lia|]. rewrite Hd.
      replace (Z.of_nat (S (t_attempt t))) with (Z.of_nat (t_attempt t) + 1)
        by lia.
      rewrite Z.pow_add_r by lia. lia.
  - pose proof (tidy_tasks _ _ HT pr t Ht) as (Hp & Hi & He & Ha & Hd & Hz).
    apply Tidy_deliver, Tidy_finally. eapply Tidy_pick; [|exact He|exact Hfor].
    rewrite onService_recordFailure. by apply Tidy_untask.
  - pose proof (tidy_tasks _ _ HT pr t Ht) as (Hp & Hi & He & Ha & Hd & Hz).
    destruct HT as [T1 T2 T3 T4 T5 T6 T7]. split; ws; try done.
    + intros pr' t'. destruct (decide (pr' = pr)) as [-> | Hne].
      * rewrite lookup_insert_eq. intros [= <-]. unfold TaskOk, awake. cbn.
        repeat split; done.
      * rewrite lookup_insert_ne by done. apply T2.
    + intros q e'. cbn. rewrite elem_of_cons. intros [[= -> ->] | Hin].
      * split; [|done]. by eapply list_elem_of_lookup_2.
      * by apply T5.
  - pose proof (tidy_tasks _ _ HT pr t Ht) as (Hp & Hi & He & Ha & Hd & Hz).
    apply Tidy_deliver, Tidy_finally. eapply Tidy_pick; [|exact He|exact Hfor].
    rewrite onService_recordFailure. by apply Tidy_untask.
  - apply Tidy_whileQueue; [intros u; apply Tidy_processQueueAt|]. tidy_frame HT.
  - apply Tidy_processQueueAt. tidy_frame HT.
Qed.

Lemma Tidy_run cfg sched :
  ∀ w w', Tidy cfg w → run cfg sched w = Some w' → Tidy cfg w'.
Proof.
  induction sched as [|[now l] sched IH]; intros w w' HT; cbn [run].
  - by intros [= <-].
  - destruct (step cfg now l w) as [w1|] eqn:Hstep; [|done].
    apply IH. by eapply Tidy_step.
Qed.

Lemma Tidy_reachable cfg w : reachable cfg w → Tidy cfg w.
Proof.
  intros (ps & o & s & sched & Hc & Hrun).
  eapply Tidy_run; [|exact Hrun].
  destruct (constructor_config _ _ _ _ Hc) as (-> & -> & Hne).
  split; cbn; try done.
  - destruct ps; [done | cbn; lia].
  - intros k. rewrite initialBreakers_lookup. case_decide; split; done.
  - intros en Hin. by apply elem_of_nil in Hin.
  - intros p e Hin. by apply elem_of_nil in Hin.
  - intros d Hin. by apply elem_of_nil in Hin.
Qed.

(** ** What the invariants give *)

Lemma invocations_elem tr p e : (p, e) ∈ invocations tr ↔ EvInvoke p e ∈ tr.
Proof.
  unfold invocations. rewrite list_elem_of_omap. split.
  - intros (ev & Hin & Hev). by destruct ev; simplify_eq.
  - intros Hin. by exists (EvInvoke p e).
Qed.

Lemma backoffs_elem tr d : d ∈ backoffs tr ↔ ∃ pr, EvSleep pr d ∈ tr.
Proof.
  unfold backoffs. rewrite list_elem_of_omap. split.
  - intros (ev & Hin & Hev). destruct ev; simplify_eq. by eexists.
  - intros [pr Hin]. by exists (EvSleep pr d).
Qed.

Lemma invalidEmail_false e :
  invalidEmail e = false ↔
  emailId e ≠ "" ∧ to e ≠ "" ∧ subject e ≠ "" ∧ body e ≠ "".
Proof.
  unfold invalidEmail. rewrite !orb_false_iff, !bool_decide_eq_false. tauto.
Qed.

(** X7. The table of circuits is fixed at construction: in every world
    the service can reach, exactly the listed providers have a circuit, so
    that [_isCircuitOpen], [_recordFailure] and [_recordSuccess] always
    find the state of the provider the loop of [_processSend] hands them. *)
Theorem circuit_table_is_fixed :
  ∀ cfg w,
    reachable cfg w →
    (∀ k, is_Some (circuitBreakers (service w) !! k) ↔ k ∈ pid <$> providers cfg) ∧
    (∀ i, is_Some (rotation cfg (service w) i)) ∧
    (∀ i p, rotation cfg (service w) i = Some p →
            is_Some (circuitBreakers (service w) !! pid p)).
Proof.
  intros cfg w Hreach. pose proof (Tidy_reachable cfg w Hreach) as HT.
  split; [apply (tidy_circuits _ _ HT)|].
  assert (providers cfg ≠ []) as Hne.
  { pose proof (tidy_index _ _ HT). destruct (providers cfg); cbn in *; [lia|done]. }
  split; [intros i; by apply rotation_in_range|].
  intros i p Hp. apply (tidy_circuits _ _ HT).
  apply list_elem_of_fmap. exists p. split; [done|].
  by eapply list_elem_of_lookup_2.
Qed.

Lemma circuit_table_is_fixed_witness :
  is_Some (circuitBreakers
             (service (worldAfter pairConfig firstProviderDown)) !! 2%nat).
Proof.
  refine (proj2 (proj1 (circuit_table_is_fixed pairConfig
                          (worldAfter pairConfig firstProviderDown) _) 2%nat) _).
  - exists [providerA; providerB], pairOptions,
      (freshService [providerA; providerB]), firstProviderDown.
    split; [reflexivity | vm_compute; reflexivity].
  - cbn. rewrite !elem_of_cons. auto.
Defined.

(** X8. What reaches a provider has passed the test of [sendEmail].  An
    email with an empty id, recipient, subject or body is rejected in the
    turn of the call, and nothing but the promise changes; and in every
    world the service can reach, each call of a provider went to a listed
    provider with an email whose four fields are all non-empty, whether
    the email was sent at once, retried, or taken from the queue. *)
Theorem providers_get_complete_emails :
  ∀ cfg w,
    reachable cfg w →
    (∀ now e,
       invalidEmail e = true →
       sendEmail cfg now e w
       = emit (EvSettle (nextPromise w) (Rejected (Error incompleteMessage)))
           (setNextPromise (S (nextPromise w)) w)) ∧
    (∀ p e,
       EvInvoke p e ∈ trace w →
       p ∈ providers cfg ∧
       emailId e ≠ "" ∧ to e ≠ "" ∧ subject e ≠ "" ∧ body e ≠ "").
Proof.
  intros cfg w Hreach. split.
  - intros now e Hinv. unfold sendEmail. by rewrite Hinv.
  - intros p e Hin. pose proof (Tidy_reachable cfg w Hreach) as HT.
    apply invocations_elem in Hin.
    destruct (tidy_invoked _ _ HT p e Hin) as [Hp He].
    split; [done|]. by apply invalidEmail_false.
Qed.

Lemma providers_get_complete_emails_witness :
  providerB ∈ providers pairConfig ∧
  emailId emailOne ≠ "" ∧ to emailOne ≠ "" ∧ subject emailOne ≠ "" ∧
  body emailOne ≠ "".
Proof.
  refine (proj2 (providers_get_complete_emails pairConfig
                   (worldAfter pairConfig firstProviderDown) _)
            providerB emailOne _).
  - exists [providerA; providerB], pairOptions,
      (freshService [providerA; providerB]), firstProviderDown.
    split; [reflexivity | vm_compute; reflexivity].
  - vm_compute. left.
Defined.

(** X9. The backoff of the service as a whole: in every world the service
    can reach, each delay slept between two attempts is
    [initialRetryDelay * 2^k] for some [k] from 1 to [maxRetries], so at
    least twice the configured delay and at most [2^maxRetries] times
    it, and every suspended send holds the delay that belongs to the
    number of its attempt. *)
Theorem service_backoff_delays :
  ∀ cfg w,
    reachable cfg w →
    (∀ pr d, EvSleep pr d ∈ trace w →
       ∃ k, (1 ≤ k ≤ maxRetries cfg)%nat ∧
            d = initialRetryDelay cfg * 2 ^ Z.of_nat k) ∧
    (∀ pr t, tasks w !! pr = Some t →
       (t_attempt t ≤ maxRetries cfg)%nat ∧
       t_currentDelay t = initialRetryDelay cfg * 2 ^ Z.of_nat (t_attempt t)).
Proof.
  intros cfg w Hreach. pose proof (Tidy_reachable cfg w Hreach) as HT. split.
  - intros pr d Hin. apply (tidy_slept _ _ HT). apply backoffs_elem. by exists pr.
  - intros pr t Ht. by destruct (tidy_tasks _ _ HT pr t Ht) as (_ & _ & _ & ? & ? & _).
Qed.

Lemma service_backoff_delays_witness :
  ∃ k, (1 ≤ k ≤ maxRetries defaultConfig)%nat ∧
       800 = initialRetryDelay defaultConfig * 2 ^ Z.of_nat k.
Proof.
  refine (proj1 (service_backoff_delays defaultConfig
                   (worldAfter defaultConfig failingSend) _) 0%nat 800 _).
  - exists [providerA], noRetryOptions, (freshService [providerA]), failingSend.
    split; [reflexivity | vm_compute; reflexivity].
  - apply (list_elem_of_lookup_2 _ 2%nat). vm_compute. reflexivity.
Defined.

(** X10. The notice for a duplicate always names a status: in every world
    the service can reach, an id that [sentEmailIds] holds has a status,
    which is 'processing', 'sent' or 'failed', so that [sendEmail] answers
    a complete email with that id with 'Email with ID ... was already
    sent. Current status: ...' and never with 'unknown'. *)
Theorem duplicate_notice_names_a_status :
  ∀ cfg w now e,
    reachable cfg w →
    invalidEmail e = false →
    emailId e ∈ sentEmailIds (service w) →
    ∃ st,
      getEmailStatus (emailId e) (service w) = Some st ∧
      (st = processing ∨ st = sent ∨ st = failed) ∧
      sendEmail cfg now e w
      = emit (EvSettle (nextPromise w)
                (Resolved ("Email with ID " +:+ emailId e
                             +:+ " was already sent. Current status: "
                             +:+ statusText st)))
          (setNextPromise (S (nextPromise w)) w).
Proof.
  intros cfg w now e Hreach Hinv Hdup.
  pose proof (Tidy_reachable cfg w Hreach) as HT.
  pose proof (Sound_reachable cfg w Hreach) as HS.
  destruct (tidy_tracked _ _ HT _ Hdup) as [st Hst].
  exists st. split; [done|]. split.
  - pose proof (sound_statuses _ _ HS _ _ Hst). destruct st; auto. done.
  - rewrite (sendEmail_duplicate cfg now e w Hinv Hdup).
    unfold getEmailStatus. by rewrite Hst.
Qed.

Lemma duplicate_notice_names_a_status_witness :
  ∃ st,
    getEmailStatus (emailId emailOne)
      (service (worldAfter pairConfig secondProviderDelivers)) = Some st ∧
    (st = processing ∨ st = sent ∨ st = failed) ∧
    sendEmail pairConfig 400 emailOne (worldAfter pairConfig secondProviderDelivers)
    = emit (EvSettle (nextPromise (worldAfter pairConfig secondProviderDelivers))
              (Resolved ("Email with ID " +:+ emailId emailOne
                           +:+ " was already sent. Current status: "
                           +:+ statusText st)))
        (setNextPromise
           (S (nextPromise (worldAfter pairConfig secondProviderDelivers)))
           (worldAfter pairConfig secondProviderDelivers)).
Proof.
  refine (duplicate_notice_names_a_status pairConfig
            (worldAfter pairConfig secondProviderDelivers) 400 emailOne _ _ _).
  - exists [providerA; providerB], pairOptions,
      (freshService [providerA; providerB]), secondProviderDelivers.
    split; [reflexivity | vm_compute; reflexivity].
  - reflexivity.
  - vm_compute. set_solver.
Defined.

(** ** More on the circuit breaker *)

Lemma set_circuitBreakers_insert_same s k st :
  circuitBreakers s !! k = Some st →
  set_circuitBreakers (<[k := st]> (circuitBreakers s)) s = s.
Proof.
  intros Hk. rewrite insert_id by done. apply set_circuitBreakers_same.
Qed.

(** X11. [_isCircuitOpen] by cases.  A provider without a circuit and a
    provider whose circuit is closed are let through and nothing changes.
    An open circuit blocks, and nothing changes, up to and including the
    moment [circuitBreakerTimeoutMs] after the last failure; later than
    that the request is let through and the circuit is marked not open,
    the last failure time and the failure count staying as they are. *)
Theorem isCircuitOpen_cases :
  ∀ cfg now p s,
    (circuitBreakers s !! pid p = None → _isCircuitOpen cfg now p s = (false, s)) ∧
    (∀ st,
       circuitBreakers s !! pid p = Some st →
       (isOpen st = false → _isCircuitOpen cfg now p s = (false, s)) ∧
       (isOpen st = true →
        now - lastFailureTime st ≤ circuitBreakerTimeoutMs cfg →
        _isCircuitOpen cfg now p s = (true, s)) ∧
       (isOpen st = true →
        circuitBreakerTimeoutMs cfg < now - lastFailureTime st →
        _isCircuitOpen cfg now p s
        = (false,
           set_circuitBreakers
             (<[pid p := mkCircuit false (lastFailureTime st) (failureCount st) 0]>
                (circuitBreakers s)) s))).
Proof.
  intros cfg now p s. split.
  - intros Hp. unfold _isCircuitOpen. by rewrite Hp.
  - intros st Hp. unfold _isCircuitOpen. rewrite Hp. repeat split.
    + intros Ho. rewrite checkCircuit_closed by done.
      by rewrite set_circuitBreakers_insert_same.
    + intros Ho Hle. rewrite checkCircuit_blocking by done.
      by rewrite set_circuitBreakers_insert_same.
    + intros Ho Hlt. by rewrite checkCircuit_half_open.
Qed.

Lemma isCircuitOpen_cases_witness :
  _isCircuitOpen defaultConfig 5000 providerA
    (set_circuitBreakers {[1%nat := mkCircuit true 0 3 0]} (freshService [providerA]))
  = (true,
     set_circuitBreakers {[1%nat := mkCircuit true 0 3 0]} (freshService [providerA])).
Proof.
  refine (proj1 (proj2 (proj2 (isCircuitOpen_cases defaultConfig 5000 providerA
            (set_circuitBreakers {[1%nat := mkCircuit true 0 3 0]}
               (freshService [providerA]))) (mkCircuit true 0 3 0) _)) _ _).
  - reflexivity.
  - reflexivity.
  - cbn. lia.
Defined.

(** X12. A failure recorded on an open circuit keeps it open and restarts
    its timeout: whatever the last failure time was before, the provider
    is blocked until [circuitBreakerTimeoutMs] after the new failure. *)
Theorem failure_on_open_circuit_restarts_timeout :
  ∀ cfg failedAt now p s st,
    circuitBreakers s !! pid p = Some st →
    isOpen st = true →
    now - failedAt ≤ circuitBreakerTimeoutMs cfg →
    circuitBreakers (_recordFailure cfg failedAt p s) !! pid p
    = Some (mkCircuit true failedAt (S (failureCount st)) (halfOpenAttempts st)) ∧
    fst (_isCircuitOpen cfg now p (_recordFailure cfg failedAt p s)) = true.
Proof.
  intros cfg failedAt now p s st Hp Ho Hle.
  assert (circuitBreakers (_recordFailure cfg failedAt p s) !! pid p
          = Some (mkCircuit true failedAt (S (failureCount st)) (halfOpenAttempts st)))
    as Hafter.
  { unfold _recordFailure. rewrite Hp. cbn. rewrite lookup_insert_eq.
    unfold failCircuit. rewrite Ho. done. }
  split; [done|].
  unfold _isCircuitOpen. rewrite Hafter.
  rewrite checkCircuit_blocking by (cbn; done || lia). done.
Qed.

Lemma failure_on_open_circuit_restarts_timeout_witness :
  fst (_isCircuitOpen defaultConfig 9000 providerA
         (_recordFailure defaultConfig 4000 providerA
            (set_circuitBreakers {[1%nat := mkCircuit true 0 3 0]}
               (freshService [providerA]))))
  = true.
Proof.
  refine (proj2 (failure_on_open_circuit_restarts_timeout defaultConfig 4000 9000
            providerA
            (set_circuitBreakers {[1%nat := mkCircuit true 0 3 0]}
               (freshService [providerA]))
            (mkCircuit true 0 3 0) _ _ _)).
  - reflexivity.
  - reflexivity.
  - cbn. lia.
Defined.

Lemma applyOp_stays_closed cfg st op bound :
  isOpen st = false →
  (failureCount st + (if isFailureOp op then 1 else 0) ≤ bound)%nat →
  (bound < circuitBreakerThreshold cfg)%nat →
  isOpen (applyOp cfg st op) = false ∧
  (failureCount (applyOp cfg st op)
   ≤ failureCount st + (if isFailureOp op then 1 else 0))%nat.
Proof.
  intros Ho Hb Hth. destruct op as [now | now |]; cbn [applyOp isFailureOp] in *.
  - rewrite checkCircuit_closed by done. cbn. split; [done | lia].
  - unfold failCircuit. rewrite Ho. cbn [negb andb].
    destruct (Nat.leb_spec (circuitBreakerThreshold cfg) (S (failureCount st)));
      [lia|]. cbn. split; [done | lia].
  - cbn. split; [done | lia].
Qed.

(** X13. A closed circuit does not open early: as long as its failure count
    and the failures recorded since stay below [circuitBreakerThreshold],
    no sequence of checks, failures and successes opens it, and the
    provider is let through at any time. *)
Theorem circuit_stays_closed_below_threshold :
  ∀ cfg ops st now,
    isOpen st = false →
    (failureCount st + length (filter (fun op => isFailureOp op = true) ops)
     < circuitBreakerThreshold cfg)%nat →
    isOpen (applyOps cfg st ops) = false ∧
    fst (checkCircuit (circuitBreakerTimeoutMs cfg) now (applyOps cfg st ops))
    = false.
Proof.
  intros cfg ops st now Ho Hlt.
  assert (isOpen (applyOps cfg st ops) = false) as Hclosed.
  { revert st Ho Hlt. induction ops as [|op ops IH]; intros st Ho Hlt; [done|].
    cbn [applyOps foldl]. fold (applyOps cfg (applyOp cfg st op) ops).
    rewrite filter_cons in Hlt.
    destruct (applyOp_stays_closed cfg st op
                (failureCount st + (if isFailureOp op then 1 else 0))%nat Ho)
      as [Ho' Hc']; [lia | | ].
    - destruct (isFailureOp op); [rewrite decide_True in Hlt by done
                                 | rewrite decide_False in Hlt by done];
        cbn [length] in Hlt; lia.
    - apply IH; [done|].
      destruct (isFailureOp op); [rewrite decide_True in Hlt by done
                                 | rewrite decide_False in Hlt by done];
        cbn [length] in Hlt; lia. }
  split; [done|]. by rewrite checkCircuit_closed.
Qed.

Lemma circuit_stays_closed_below_threshold_witness :
  isOpen (applyOps defaultConfig closedCircuit [OpFailure 10; OpCheck 20; OpFailure 30])
  = false.
Proof.
  refine (proj1 (circuit_stays_closed_below_threshold defaultConfig
            [OpFailure 10; OpCheck 20; OpFailure 30] closedCircuit 40 _ _)).
  - reflexivity.
  - vm_compute. lia.
Defined.

(** X14. No circuit is open without its failures: in every world the
    service can reach, a circuit that is open has counted at least
    [circuitBreakerThreshold] failures, and that is at least one. *)
Theorem open_circuit_has_its_failures :
  ∀ cfg w k st,
    reachable cfg w →
    circuitBreakers (service w) !! k = Some st →
    isOpen st = true →
    (circuitBreakerThreshold cfg ≤ failureCount st)%nat ∧
    (1 ≤ failureCount st)%nat.
Proof.
  intros cfg w k st Hreach Hk Ho.
  pose proof (sound_circuits _ _ (Sound_reachable cfg w Hreach) k st Hk Ho) as Hth.
  split; [done|].
  destruct Hreach as (ps & o & s & sched & Hc & _).
  destruct (constructor_positive _ _ _ _ Hc) as (_ & _ & Hpos). lia.
Qed.

Lemma open_circuit_has_its_failures_witness :
  (circuitBreakerThreshold eagerConfig ≤ failureCount (mkCircuit true 203 1 0))%nat
  ∧ (1 ≤ failureCount (mkCircuit true 203 1 0))%nat.
Proof.
  refine (open_circuit_has_its_failures eagerConfig
            (worldAfter eagerConfig firstProviderDown) 1%nat
            (mkCircuit true 203 1 0) _ _ _).
  - exists [providerA], eagerOptions, (freshService [providerA]), firstProviderDown.
    split; [reflexivity | vm_compute; reflexivity].
  - vm_compute. reflexivity.
  - reflexivity.
Defined.

(** ** The queue is never left alone *)

Lemma Attended_frame w w' :
  emailQueue (service w') = emailQueue (service w) →
  isProcessingQueue (service w') = isProcessingQueue (service w) →
  timers w' = timers w →
  Attended w → Attended w'.
Proof. unfold Attended. intros -> -> ->. done. Qed.

Ltac attended_frame H :=
  match type of H with
  | Attended ?w => refine (Attended_frame w _ _ _ _ H); reflexivity
  end.

Lemma Attended_busy w : isProcessingQueue (service w) = true → Attended w.
Proof. intros H _. by left. Qed.

Lemma Attended_for cfg now c pr e w r w' :
  Attended w → ForResult cfg now c pr e w (r, w') → Attended w'.
Proof.
  intros HA. inversion 1 as [cb' t Hst Hc He Hsl Hat Hcl | cb' msg Hst]; subst;
    attended_frame HA.
Qed.

Lemma Attended_drain cfg now w w' :
  isProcessingQueue (service w) = true →
  DrainResult cfg now w w' → Attended w'.
Proof.
  intros Hflag.
  inversion 1 as [Hq | en rest Hq Hlen | en rest r w2 Hq Hlen Hfor]; subst.
  - intros Hne. ws. done.
  - intros _. right. ws. lia.
  - apply Attended_busy. ws. by rewrite (ForResult_flag _ _ _ _ _ _ _ _ Hfor).
Qed.

(** After [_processQueue] the queue is attended, whatever it was before. *)
Lemma Attended_processQueue cfg now w : Attended (_processQueue cfg now w).
Proof.
  unfold _processQueue.
  destruct (processQueueAt_form cfg 1 now w) as [[-> [Hf | Hq]] | (_ & _ & HD)].
  - by apply Attended_busy.
  - intros Hne. done.
  - eapply Attended_drain; [|exact HD]. done.
Qed.

Lemma Attended_finish cfg now c pr r w :
  Attended w →
  Attended (deliver c pr (finallyProcessQueue (_processQueue cfg) now (r, w))).
Proof.
  intros HA. destruct r as [o|]; cbn [finallyProcessQueue deliver]; [|done].
  pose proof (Attended_processQueue cfg now w) as HA'.
  destruct c; attended_frame HA'.
Qed.

(** Every turn of the event loop leaves the queue attended. *)
Lemma Attended_step cfg now l w w' :
  OneDrain w → Attended w → step cfg now l w = Some w' → Attended w'.
Proof.
  intros HO HA Hstep. apply step_result in Hstep.
  inversion Hstep as
    [ e m Hinv | e Hinv Hdup | e Hinv Hdup Hlen | e r w2 Hinv Hdup Hlen Hfor
    | pr t v Ht Hsl | pr t m d Ht Hsl Hmsg Hat Hd | pr t m r w2 Ht Hsl Hat Hfor
    | pr t Ht Hsl Hat | pr t r w2 Ht Hsl Hat Hfor
    | pr j o w1 Hj Hloop | k Hk ]; subst.
  - attended_frame HA.
  - attended_frame HA.
  - apply Attended_processQueue.
  - apply Attended_finish. eapply Attended_for; [|exact Hfor]. attended_frame HA.
  - pose proof (Attended_processQueue cfg now
                  (onService (set_currentProviderIndex (t_providerIndex t))
                     (setStatus (emailId (t_email t)) sent
                        (onService (_recordSuccess (t_provider t))
                           (setTasks (delete pr (tasks w)) w))))) as HA'.
    destruct (t_caller t); attended_frame HA'.
  - attended_frame HA.
  - apply Attended_finish. eapply Attended_for; [|exact Hfor].
    rewrite onService_recordFailure. attended_frame HA.
  - attended_frame HA.
  - apply Attended_finish. eapply Attended_for; [|exact Hfor].
    rewrite onService_recordFailure. attended_frame HA.
  - assert (isProcessingQueue (service w) = true) as Hflag.
    { unfold OneDrain in HO. apply lookup_lt_Some in Hj.
      destruct (isProcessingQueue (service w)); [done | lia]. }
    apply LoopResult_busy in Hloop; [|done].
    eapply Attended_drain; [|exact Hloop]. done.
  - apply Attended_processQueue.
Qed.

(** X15. A waiting queue is never left alone: in every world the service
    can reach, if the queue holds an entry then a [_processQueue] is
    suspended in its loop, at the [_processSend] of an earlier entry, or a
    timer is set that will call [_processQueue]. *)
Theorem waiting_queue_is_attended :
  ∀ cfg w,
    reachable cfg w →
    emailQueue (service w) ≠ [] →
    (isProcessingQueue (service w) = true ∧ ∃ d, drains w = [d])
    ∨ (isProcessingQueue (service w) = false ∧ 0 < timers w)%nat.
Proof.
  intros cfg w (ps & o & s & sched & Hc & Hrun).
  assert (Orderly w ∧ Attended w) as [[_ HO] HA].
  { assert (Orderly (initialWorld s) ∧ Attended (initialWorld s)) as Hinit.
    { split.
      - apply Orderly_reachable with (cfg := cfg). by eapply reachable_initial.
      - destruct (constructor_config _ _ _ _ Hc) as (_ & -> & _). by intros Hne. }
    clear Hc. revert Hrun Hinit. generalize (initialWorld s).
    induction sched as [|[now l] sched IH]; intros w0; cbn [run].
    - by intros [= <-].
    - destruct (step cfg now l w0) as [w1|] eqn:Hstep; [|done].
      intros Hrun [HOr HA]. apply (IH w1 Hrun). split.
      + by eapply Orderly_step.
      + eapply Attended_step; [apply HOr | exact HA | exact Hstep]. }
  intros Hq. unfold OneDrain in HO.
  destruct (isProcessingQueue (service w)) eqn:Hflag.
  - left. split; [done|]. destruct (drains w) as [|d [|d' ds]]; cbn in HO; try lia.
    by exists d.
  - right. split; [done|]. destruct (HA Hq) as [? | ?]; [congruence | done].
Qed.

Lemma waiting_queue_is_attended_witness :
  (isProcessingQueue (service (worldAfter tightConfig queueOne)) = true
   ∧ ∃ d, drains (worldAfter tightConfig queueOne) = [d])
  ∨ (isProcessingQueue (service (worldAfter tightConfig queueOne)) = false
     ∧ 0 < timers (worldAfter tightConfig queueOne))%nat.
Proof.
  refine (waiting_queue_is_attended tightConfig (worldAfter tightConfig queueOne) _ _).
  - exists [providerA], tightOptions, (freshService [providerA]), queueOne.
    split; [reflexivity | vm_compute; reflexivity].
  - vm_compute. discriminate.
Defined.

(** ** Nothing is forgotten *)

Lemma Grows_refl w : Grows w w.
Proof. by split. Qed.

Lemma Grows_trans w1 w2 w3 : Grows w1 w2 → Grows w2 w3 → Grows w1 w3.
Proof. intros [H1 H2] [H3 H4]. split; [set_solver | auto]. Qed.

Lemma Grows_frame w w' :
  sentEmailIds (service w') = sentEmailIds (service w) →
  emailStatuses (service w') = emailStatuses (service w) →
  Grows w w'.
Proof. intros H1 H2. split; rewrite ?H1, ?H2; done. Qed.

Lemma Grows_setStatus id st w : Grows w (setStatus id st w).
Proof.
  split; [done|]. intros a Ha. ws.
  destruct (decide (a = id)) as [-> | Hne].
  - rewrite lookup_insert_eq. by eexists.
  - by rewrite lookup_insert_ne.
Qed.

Lemma Grows_for cfg now c pr e w r w' :
  ForResult cfg now c pr e w (r, w') → Grows w w'.
Proof.
  inversion 1 as [cb' t Hst Hc He Hsl Hat Hcl | cb' msg Hst]; subst.
  - by apply Grows_frame.
  - eapply Grows_trans; [|apply Grows_setStatus]. by apply Grows_frame.
Qed.

Lemma Grows_drain cfg now w w' : DrainResult cfg now w w' → Grows w w'.
Proof.
  inversion 1 as [Hq | en rest Hq Hlen | en rest r w2 Hq Hlen Hfor]; subst.
  - by apply Grows_frame.
  - by apply Grows_frame.
  - eapply Grows_trans; [|eapply Grows_trans; [eapply Grows_for, Hfor|]];
      by apply Grows_frame.
Qed.

Lemma Grows_processQueue cfg now w : Grows w (_processQueue cfg now w).
Proof.
  unfold _processQueue.
  destruct (processQueueAt_form cfg 1 now w) as [[-> _] | (_ & _ & HD)].
  - apply Grows_refl.
  - eapply Grows_trans; [|eapply Grows_drain, HD]. by apply Grows_frame.
Qed.

Lemma Grows_finish cfg now c pr r w :
  Grows w (deliver c pr (finallyProcessQueue (_processQueue cfg) now (r, w))).
Proof.
  destruct r as [o|]; cbn [finallyProcessQueue deliver]; [|apply Grows_refl].
  eapply Grows_trans; [apply (Grows_processQueue cfg now)|].
  destruct c; by apply Grows_frame.
Qed.

Lemma Grows_loop cfg now w w' : LoopResult cfg now w w' → Grows w w'.
Proof.
  inversion 1 as [Hq | en rest Hq Hlen | en rest r w2 Hq Hlen Hfor]; subst.
  - by apply Grows_frame.
  - by apply Grows_frame.
  - eapply Grows_trans; [|eapply Grows_trans; [eapply Grows_for, Hfor|]].
    + by apply Grows_frame.
    + eapply Grows_trans;
        [apply (Grows_finish cfg now FromSendEmail 0%nat r w2)|].
      destruct r; by apply Grows_frame.
Qed.

(** No turn of the event loop forgets an id or a status. *)
Lemma Grows_step cfg now l w w' : step cfg now l w = Some w' → Grows w w'.
Proof.
  intros Hstep. apply step_result in Hstep.
  inversion Hstep as
    [ e m Hinv | e Hinv Hdup | e Hinv Hdup Hlen | e r w2 Hinv Hdup Hlen Hfor
    | pr t v Ht Hsl | pr t m d Ht Hsl Hmsg Hat Hd | pr t m r w2 Ht Hsl Hat Hfor
    | pr t Ht Hsl Hat | pr t r w2 Ht Hsl Hat Hfor
    | pr j o w1 Hj Hloop | k Hk ]; subst.
  - by apply Grows_frame.
  - by apply Grows_frame.
  - eapply Grows_trans; [|apply Grows_processQueue]. by apply Grows_frame.
  - eapply Grows_trans; [|eapply Grows_trans;
                           [eapply Grows_for, Hfor | apply Grows_finish]].
    split; ws; [set_solver|]. intros a Ha.
    destruct (decide (a = emailId e)) as [-> | Hne].
    + rewrite lookup_insert_eq. by eexists.
    + by rewrite lookup_insert_ne.
  - eapply Grows_trans;
      [|apply (Grows_finish cfg now (t_caller t) pr (Some (Resolved v)))].
    eapply Grows_trans; [|eapply Grows_trans; [apply Grows_setStatus|]];
      [|by apply Grows_frame].
    rewrite onService_recordSuccess. by apply Grows_frame.
  - by apply Grows_frame.
  - eapply Grows_trans; [|eapply Grows_trans;
                           [eapply Grows_for, Hfor | apply Grows_finish]].
    rewrite onService_recordFailure. by apply Grows_frame.
  - by apply Grows_frame.
  - eapply Grows_trans; [|eapply Grows_trans;
                           [eapply Grows_for, Hfor | apply Grows_finish]].
    rewrite onService_recordFailure. by apply Grows_frame.
  - eapply Grows_trans; [|eapply Grows_loop, Hloop]. by apply Grows_frame.
  - eapply Grows_trans; [|apply Grows_processQueue]. by apply Grows_frame.
Qed.

Lemma Grows_run cfg sched :
  ∀ w w', run cfg sched w = Some w' → Grows w w'.
Proof.
  induction sched as [|[now l] sched IH]; intros w w'; cbn [run].
  - intros [= <-]. apply Grows_refl.
  - destruct (step cfg now l w) as [w1|] eqn:Hstep; [|done]. intros Hrun.
    eapply Grows_trans; [by eapply Grows_step | by apply IH].
Qed.

(** X16. Nothing is forgotten.  No turn of the event loop takes an id out
    of [sentEmailIds] or a status out of [emailStatuses]: an id that was
    let through stays a duplicate after any schedule and at any later
    time, whatever [idempotencyWindowMs] is, and a tracked id stays
    tracked. *)
Theorem nothing_is_forgotten :
  ∀ cfg sched w w',
    run cfg sched w = Some w' →
    (∀ id, id ∈ sentEmailIds (service w) → id ∈ sentEmailIds (service w')) ∧
    (∀ id, is_Some (getEmailStatus id (service w)) →
           is_Some (getEmailStatus id (service w'))) ∧
    (∀ now e,
       invalidEmail e = false →
       emailId e ∈ sentEmailIds (service w) →
       sendEmail cfg now e w'
       = emit (EvSettle (nextPromise w')
                 (Resolved (alreadySentMessage (emailId e)
                              (getEmailStatus (emailId e) (service w')))))
           (setNextPromise (S (nextPromise w')) w')).
Proof.
  intros cfg sched w w' Hrun.
  destruct (Grows_run cfg sched w w' Hrun) as [Hl Hs].
  split; [intros id Hid; by apply Hl|]. split; [exact Hs|].
  intros now e Hinv Hdup. apply sendEmail_duplicate; [done|]. by apply Hl.
Qed.

Lemma nothing_is_forgotten_witness :
  sendEmail pairConfig 9000000 emailOne
    (worldAfter pairConfig secondProviderDelivers)
  = emit (EvSettle (nextPromise (worldAfter pairConfig secondProviderDelivers))
            (Resolved (alreadySentMessage (emailId emailOne)
                         (getEmailStatus (emailId emailOne)
                            (service (worldAfter pairConfig secondProviderDelivers))))))
      (setNextPromise
         (S (nextPromise (worldAfter pairConfig secondProviderDelivers)))
         (worldAfter pairConfig secondProviderDelivers)).
Proof.
  refine (proj2 (proj2 (nothing_is_forgotten pairConfig
            [(300, ProviderSettles 0 (Resolved "sent by B"))]
            (worldAfter pairConfig firstProviderDown)
            (worldAfter pairConfig secondProviderDelivers) _))
            9000000 emailOne _ _).
  - vm_compute. reflexivity.
  - reflexivity.
  - vm_compute. set_solver.
Defined.

(** ** Fallback *)

(** X17. [_processSend] goes through the providers in the order of the
    rotation that starts at [currentProviderIndex], asks the circuit of
    each, and calls the first one whose circuit lets it through: there it
    is suspended, with nothing attempted or recorded for the providers it
    passed over. *)
Theorem processSend_calls_first_unblocked_provider :
  ∀ cfg now c pr e w j p,
    (j < length (providers cfg))%nat →
    rotation cfg (service w) j = Some p →
    fst (_isCircuitOpen cfg now p (service w)) = false →
    (∀ i q, (i < j)%nat → rotation cfg (service w) i = Some q →
            blocking cfg now (service w) q) →
    _processSend cfg now c pr e w
    = (None,
       emit (EvInvoke p e)
         (setTasks
            (<[pr := mkTask c e j
                       ((currentProviderIndex (service w) + j)
                          mod length (providers cfg))%nat
                       p 0 (initialRetryDelay cfg) None false]> (tasks w))
            (setService (snd (_isCircuitOpen cfg now p (service w))) w))).
Proof.
  intros cfg now c pr e w j p Hj Hp Hopen Hbefore.
  unfold _processSend, processSendWith.
  pose proof (forProviders_pick cfg (length (providers cfg)) now c pr e None w
                (le_n _)) as Hpick.
  inversion Hpick as [i q Hi Hq Hbi Hoi Heq | Hall Heq].
  - destruct (Nat.lt_trichotomy i j) as [Hlt | [-> | Hgt]].
    + pose proof (Hbefore i q Hlt Hq) as Hb. unfold blocking in Hb. congruence.
    + rewrite Hp in Hq. injection Hq as <-. done.
    + assert (length (providers cfg) - length (providers cfg) ≤ j < i)%nat as Hr
        by lia.
      pose proof (Hbi j p Hr Hp) as Hb. unfold blocking in Hb. congruence.
  - assert (length (providers cfg) - length (providers cfg) ≤ j
            < length (providers cfg))%nat as Hr by lia.
    pose proof (Hall j p Hr Hp) as Hb. unfold blocking in Hb. congruence.
Qed.

Lemma processSend_calls_first_unblocked_provider_witness :
  _processSend pairConfig 300 FromSendEmail 1 emailTwo
    (worldAfter pairConfig firstProviderDown)
  = (None,
     emit (EvInvoke providerB emailTwo)
       (setTasks
          (<[1%nat := mkTask FromSendEmail emailTwo 1
                        ((currentProviderIndex
                            (service (worldAfter pairConfig firstProviderDown)) + 1)
                           mod length (providers pairConfig))%nat
                        providerB 0 (initialRetryDelay pairConfig) None false]>
             (tasks (worldAfter pairConfig firstProviderDown)))
          (setService
             (snd (_isCircuitOpen pairConfig 300 providerB
                     (service (worldAfter pairConfig firstProviderDown))))
             (worldAfter pairConfig firstProviderDown)))).
Proof.
  refine (processSend_calls_first_unblocked_provider pairConfig 300 FromSendEmail
            1 emailTwo (worldAfter pairConfig firstProviderDown) 1 providerB
            _ _ _ _).
  - cbn. lia.
  - vm_compute. reflexivity.
  - vm_compute. reflexivity.
  - intros i q Hi. assert (i = 0%nat) as -> by lia.
    vm_compute. intros [= <-]. reflexivity.
Defined.

(** X18. When the circuit of every provider blocks, [_processSend] fails
    in the turn in which it is called, without calling any provider: it
    writes 'failed', runs [_processQueue] from its [finally], and rejects
    with 'All providers failed', whose last error names the last provider
    of the rotation. *)
Theorem processSend_fails_fast_when_all_blocked :
  ∀ cfg now c pr e w,
    providers cfg ≠ [] →
    (∀ i q, (i < length (providers cfg))%nat →
            rotation cfg (service w) i = Some q →
            blocking cfg now (service w) q) →
    ∃ q,
      rotation cfg (service w) (length (providers cfg) - 1) = Some q ∧
      _processSend cfg now c pr e w
      = (Some (Rejected
                 (Error
                    (allFailedMessage (emailId e)
                       (Some ("Circuit open for " +:+ providerName q))))),
         _processQueue cfg now (setStatus (emailId e) failed w)).
Proof.
  intros cfg now c pr e w Hne Hall.
  destruct (rotation_in_range cfg (service w) (length (providers cfg) - 1) Hne)
    as [q Hq].
  exists q. split; [done|].
  unfold _processSend, processSendWith.
  pose proof (forProviders_pick cfg (length (providers cfg)) now c pr e None w
                (le_n _)) as Hpick.
  inversion Hpick as [i p Hi Hp Hbi Hoi Heq | Hall' Heq].
  - assert (i < length (providers cfg))%nat as Hlt by lia.
    pose proof (Hall i p Hlt Hp) as Hb. unfold blocking in Hb. congruence.
  - cbn [finallyProcessQueue]. unfold lastCircuitError. rewrite Hq.
    by destruct (length (providers cfg)) eqn:Hlen;
      [destruct (providers cfg); cbn in Hlen; [done | lia]|].
Qed.

Lemma processSend_fails_fast_when_all_blocked_witness :
  ∃ q,
    rotation eagerConfig (service (worldAfter eagerConfig firstProviderDown))
      (length (providers eagerConfig) - 1) = Some q ∧
    _processSend eagerConfig 300 FromSendEmail 1 emailTwo
      (worldAfter eagerConfig firstProviderDown)
    = (Some (Rejected
               (Error
                  (allFailedMessage (emailId emailTwo)
                     (Some ("Circuit open for " +:+ providerName q))))),
       _processQueue eagerConfig 300
         (setStatus (emailId emailTwo) failed
            (worldAfter eagerConfig firstProviderDown))).
Proof.
  refine (processSend_fails_fast_when_all_blocked eagerConfig 300 FromSendEmail
            1 emailTwo (worldAfter eagerConfig firstProviderDown) _ _).
  - discriminate.
  - intros i q Hi. cbn in Hi. assert (i = 0%nat) as -> by lia.
    vm_compute. intros [= <-]. reflexivity.
Defined.

(** ** How a send ends *)

Lemma not_blocking_closed cfg now p s :
  (∀ st, circuitBreakers s !! pid p = Some st → isOpen st = false) →
  fst (_isCircuitOpen cfg now p s) = false.
Proof.
  intros Hcl. unfold _isCircuitOpen.
  destruct (circuitBreakers s !! pid p) as [st|] eqn:Hp; [|done].
  rewrite checkCircuit_closed by auto. done.
Qed.

Lemma cbStep_closed cfg now cb cb' k :
  cbStep cfg now cb cb' →
  (∀ st, cb !! k = Some st → isOpen st = false) →
  ∀ st, cb' !! k = Some st → isOpen st = false.
Proof.
  intros Hstep Hcl st. destruct (Hstep k) as [-> | ->]; [apply Hcl|].
  destruct (cb !! k) as [st0|] eqn:Hk; [|done]. cbn. intros [= <-].
  unfold checked. rewrite checkCircuit_closed by auto. cbn. by apply Hcl.
Qed.

(** What [_processQueue] leaves as it is, or nearly. *)
Lemma processQueue_fields cfg now w :
  let w' := _processQueue cfg now w in
  currentProviderIndex (service w') = currentProviderIndex (service w) ∧
  (∀ id, emailStatuses (service w') !! id = emailStatuses (service w) !! id
         ∨ emailStatuses (service w') !! id = Some failed) ∧
  cbStep cfg now (circuitBreakers (service w)) (circuitBreakers (service w')) ∧
  (∀ pr, pr ∉ queuedIds w → tasks w' !! pr = tasks w !! pr).
Proof.
  cbv zeta. unfold _processQueue.
  destruct (processQueueAt_form cfg 1 now w) as [[-> _] | (_ & _ & HD)].
  { split; [done|]. split; [by left|]. split; [apply cbStep_refl | done]. }
  remember (processQueueAt cfg 2 now w) as w' eqn:Hw'. clear Hw'.
  inversion HD as [Hq | en rest Hq Hlen | en rest r w2 Hq Hlen Hfor]; subst; ws.
  - split; [done|]. split; [by left|]. split; [apply cbStep_refl | done].
  - split; [done|]. split; [by left|]. split; [apply cbStep_refl | done].
  - inversion Hfor as [cb' t Hst Hc He Hsl Hat Hcl | cb' msg Hst]; subst; ws.
    + split; [done|]. split; [by left|]. split; [done|].
      intros pr Hpr. rewrite lookup_insert_ne; [done|].
      intros <-. apply Hpr. unfold queuedIds. rewrite Hq. cbn.
      rewrite elem_of_cons. by left.
    + split; [done|]. split; [|split; [done | done]].
      intros id. destruct (decide (id = emailId (q_email en))) as [-> | Hne].
      * right. by rewrite lookup_insert_eq.
      * left. by rewrite lookup_insert_ne.
Qed.

(** After a delivery through the provider at [currentProviderIndex],
    whose circuit is closed, the [_processQueue] of the [finally] block
    cannot fail an entry: it changes no status. *)
Lemma processQueue_after_delivery cfg now w p :
  (currentProviderIndex (service w) < length (providers cfg))%nat →
  providers cfg !! currentProviderIndex (service w) = Some p →
  (∀ st, circuitBreakers (service w) !! pid p = Some st → isOpen st = false) →
  emailStatuses (service (_processQueue cfg now w)) = emailStatuses (service w).
Proof.
  intros Hidx Hp Hcl.
  destruct (processQueue_pick cfg now w) as [[-> _] | (_ & _ & HD)]; [done|].
  remember (_processQueue cfg now w) as w' eqn:Hw'. clear Hw'.
  inversion HD as [Hq | en rest Hq Hlen | en rest r w2 Hq Hlen Hfor]; subst; ws;
    [done | done |].
  inversion Hfor as [i q Hi Hq' Hbefore Hopen | Hall]; subst; ws.
  - destruct (isCircuitOpen_form cfg now q
                (set_emailQueue rest
                   (set_requestTimestamps
                      (pruneWindow cfg now (requestTimestamps (service w)) ++ [now])
                      (set_isProcessingQueue true (service w)))))
      as (cb' & Hs & _). rewrite Hs. done.
  - exfalso.
    assert (0 < length (providers cfg))%nat as Hpos by lia.
    specialize (Hall 0%nat p). unfold rotation, blocking in Hall. ws.
    rewrite Nat.add_0_r, Nat.mod_small in Hall by done.
    rewrite not_blocking_closed in Hall by (ws; done).
    discriminate Hall; [lia | done].
Qed.

Lemma markSettled_ready pr o ds x :
  (pr, x) ∈ ds → (pr, Some o) ∈ markSettled pr o ds.
Proof.
  intros Hin. unfold markSettled. apply list_elem_of_fmap.
  exists (pr, x). split; [|done]. cbn. by rewrite decide_True.
Qed.

(** The promise of a finished [_processSend] is handed to who awaits it. *)
Lemma handedOver_deliver cfg now c pr o w :
  OneDrain w → (c = FromQueue → (pr, None) ∈ drains w) →
  handedOver c pr o (deliver c pr (Some o, _processQueue cfg now w)).
Proof.
  intros HO Hc. destruct c; cbn [deliver handedOver].
  - done.
  - specialize (Hc eq_refl).
    assert (isProcessingQueue (service w) = true) as Hflag.
    { unfold OneDrain in HO. destruct (isProcessingQueue (service w)); [done|].
      destruct (drains w); [by apply elem_of_nil in Hc | done]. }
    unfold _processQueue. rewrite processQueueAt_busy by done. ws.
    by eapply markSettled_ready.
Qed.

Lemma task_of_queue_waits w pr t :
  Orderly w → tasks w !! pr = Some t →
  (pr ∉ queuedIds w) ∧ (t_caller t = FromQueue → (pr, None) ∈ drains w).
Proof.
  intros [HP _] Ht. destruct (po_task _ _ _ HP pr t Ht) as (_ & Hq & _ & Hc).
  split; [done|]. intros Hcq. by rewrite Hcq in Hc.
Qed.

(** X19. A delivery ends the send as 'sent'.  In every world the service
    can reach, when the provider call of a suspended send resolves, then
    at the end of that turn the status of the email is 'sent', the send
    is over, and the provider's result is handed on unchanged: the promise
    of [sendEmail] resolves with it, or, for an entry of the queue, the
    waiting [_processQueue] is ready to resolve the entry's promise with
    it. *)
Theorem delivery_marks_sent :
  ∀ cfg now w w' pr t v,
    reachable cfg w →
    tasks w !! pr = Some t →
    step cfg now (ProviderSettles pr (Resolved v)) w = Some w' →
    getEmailStatus (emailId (t_email t)) (service w') = Some sent ∧
    tasks w' !! pr = None ∧
    handedOver (t_caller t) pr (Resolved v) w'.
Proof.
  intros cfg now w w' pr t v Hreach Ht Hstep.
  pose proof (Tidy_reachable cfg w Hreach) as HT.
  pose proof (Orderly_reachable cfg w Hreach) as HOr.
  destruct (task_of_queue_waits w pr t HOr Ht) as [Hnq Hwait].
  destruct (tidy_tasks _ _ HT pr t Ht) as (Hp & _).
  apply step_turn in Hstep.
  inversion Hstep as
    [ | | | | pr' t' v' Ht' Hsl | | | | | | | ]; subst.
  rewrite Ht in Ht'. injection Ht' as <-. clear Hstep.
  rewrite onService_recordSuccess.
  match goal with
  | |- context [_processQueue cfg now ?u] => set (w3 := u)
  end.
  assert (emailStatuses (service (_processQueue cfg now w3))
          = emailStatuses (service w3)) as Hst.
  { apply (processQueue_after_delivery cfg now w3 (t_provider t)).
    - subst w3. ws. by eapply lookup_lt_Some.
    - subst w3. ws. done.
    - subst w3. ws. intros st.
      rewrite lookup_alter_eq. destruct (circuitBreakers (service w) !! _); [|done].
      cbn. by intros [= <-]. }
  assert (emailStatuses (service (_processQueue cfg now w3))
            !! emailId (t_email t) = Some sent) as Hsent.
  { rewrite Hst. subst w3. ws. by rewrite lookup_insert_eq. }
  assert (tasks (_processQueue cfg now w3) !! pr = None) as Hgone.
  { destruct (processQueue_fields cfg now w3) as (_ & _ & _ & Htk).
    cbv zeta in Htk. rewrite Htk by exact Hnq. subst w3. ws.
    by rewrite lookup_delete_eq. }
  clear Hst. split; [|split].
  - unfold getEmailStatus. by destruct (t_caller t).
  - by destruct (t_caller t).
  - apply handedOver_deliver.
    + destruct HOr as [_ HO]. exact HO.
    + exact Hwait.
Qed.

(** X20. The provider that delivered goes first.  In every world the
    service can reach, when a provider call resolves, [currentProviderIndex]
    points at that provider at the end of the turn and its circuit is
    closed, so that the next [_processSend], whenever it comes, calls this
    provider first. *)
Theorem delivering_provider_goes_first :
  ∀ cfg now w w' pr t v,
    reachable cfg w →
    tasks w !! pr = Some t →
    step cfg now (ProviderSettles pr (Resolved v)) w = Some w' →
    currentProviderIndex (service w') = t_providerIndex t ∧
    rotation cfg (service w') 0 = Some (t_provider t) ∧
    ∀ now' c pr' e,
      ∃ w'', _processSend cfg now' c pr' e w' = (None, w'') ∧
             trace w'' = EvInvoke (t_provider t) e :: trace w'.
Proof.
  intros cfg now w w' pr t v Hreach Ht Hstep.
  pose proof (Tidy_reachable cfg w Hreach) as HT.
  destruct (tidy_tasks _ _ HT pr t Ht) as (Hp & _).
  pose proof (lookup_lt_Some _ _ _ Hp) as Hidx.
  apply step_turn in Hstep.
  inversion Hstep as
    [ | | | | pr' t' v' Ht' Hsl | | | | | | | ]; subst.
  rewrite Ht in Ht'. injection Ht' as <-. clear Hstep.
  rewrite onService_recordSuccess.
  match goal with
  | |- context [_processQueue cfg now ?u] => set (w3 := u)
  end.
  destruct (processQueue_fields cfg now w3) as (Hcpi & _ & Hcb & _).
  cbv zeta in Hcpi, Hcb.
  set (w' := deliver (t_caller t) pr
               (Some (Resolved v), _processQueue cfg now w3)).
  assert (currentProviderIndex (service w') = t_providerIndex t) as Hcpi'.
  { subst w'. by destruct (t_caller t). }
  assert (∀ st, circuitBreakers (service w') !! pid (t_provider t) = Some st →
                isOpen st = false) as Hclosed.
  { assert (circuitBreakers (service w')
            = circuitBreakers (service (_processQueue cfg now w3))) as ->
      by (subst w'; by destruct (t_caller t)).
    eapply cbStep_closed; [exact Hcb|]. subst w3. ws. intros st.
    rewrite lookup_alter_eq. destruct (circuitBreakers (service w) !! _); [|done].
    cbn. by intros [= <-]. }
  assert (rotation cfg (service w') 0 = Some (t_provider t)) as Hrot.
  { unfold rotation. rewrite Hcpi', Nat.add_0_r, Nat.mod_small by done. done. }
  clearbody w'. split; [done|]. split; [done|].
  intros now' c pr' e. unfold _processSend, processSendWith.
  pose proof (forProviders_pick cfg (length (providers cfg)) now' c pr' e None w'
                (le_n _)) as Hpick.
  pose proof (not_blocking_closed cfg now' (t_provider t) (service w') Hclosed)
    as Hopen.
  inversion Hpick as [i q Hi Hq Hbi Hoi Heq | Hall Heq].
  - destruct i as [|i].
    + rewrite Hrot in Hq. injection Hq as <-.
      eexists. split; [reflexivity | done].
    + assert (length (providers cfg) - length (providers cfg) ≤ 0 < S i)%nat
        as Hr by lia.
      pose proof (Hbi 0%nat (t_provider t) Hr Hrot) as Hb.
      unfold blocking in Hb. congruence.
  - assert (length (providers cfg) - length (providers cfg) ≤ 0
            < length (providers cfg))%nat as Hr by lia.
    pose proof (Hall 0%nat (t_provider t) Hr Hrot) as Hb.
    unfold blocking in Hb. congruence.
Qed.

Lemma statuses_deliver c pr x :
  emailStatuses (service (deliver c pr x)) = emailStatuses (service (snd x)).
Proof. destruct x as [[o|] w]; [by destruct c | done]. Qed.

Lemma tasks_deliver c pr x : tasks (deliver c pr x) = tasks (snd x).
Proof. destruct x as [[o|] w]; [by destruct c | done]. Qed.

Lemma circuits_deliver c pr x :
  circuitBreakers (service (deliver c pr x)) = circuitBreakers (service (snd x)).
Proof. destruct x as [[o|] w]; [by destruct c | done]. Qed.

(** The end of a [_processSend] whose last provider is used up. *)
Lemma exhausted_end cfg now pr t le rem w0 r w2 w :
  Orderly w → tasks w !! pr = Some t →
  emailQueue (service w0) = emailQueue (service w) →
  isProcessingQueue (service w0) = isProcessingQueue (service w) →
  drains w0 = drains w →
  ForPick cfg now (t_caller t) pr (t_email t) le rem w0 (r, w2) →
  let w' := deliver (t_caller t) pr
              (finallyProcessQueue (_processQueue cfg) now (r, w2)) in
  tasks w' !! pr = None →
  getEmailStatus (emailId (t_email t)) (service w') = Some failed ∧
  ∃ le', handedOver (t_caller t) pr
           (Rejected (Error (allFailedMessage (emailId (t_email t)) le'))) w'.
Proof.
  intros HOr Ht Hq Hflag Hdr Hpick. cbv zeta.
  destruct (task_of_queue_waits w pr t HOr Ht) as [Hnq Hwait].
  inversion Hpick as [i p Hi Hp Hbefore Hopen | Hall]; subst.
  - cbn [finallyProcessQueue deliver]. ws. by rewrite lookup_insert_eq.
  - cbn [finallyProcessQueue]. intros _.
    set (w2 := setStatus (emailId (t_email t)) failed w0).
    split.
    + unfold getEmailStatus. rewrite statuses_deliver. cbn [snd].
      destruct (processQueue_fields cfg now w2) as (_ & Hs & _).
      destruct (Hs (emailId (t_email t))) as [-> | ->]; [|done].
      subst w2. ws. by rewrite lookup_insert_eq.
    + eexists. apply handedOver_deliver.
      * destruct HOr as [_ HO]. unfold OneDrain in *. subst w2. ws.
        by rewrite Hdr, Hflag.
      * intros Hc. subst w2. ws. rewrite Hdr. by apply Hwait.
Qed.

(** The end of a send that gives up. *)
Lemma giving_up_end cfg now l w w' pr t :
  Orderly w →
  tasks w !! pr = Some t →
  (l = SleepEnds pr ∨ ∃ m, l = ProviderSettles pr (Rejected m)) →
  step cfg now l w = Some w' →
  tasks w' !! pr = None →
  getEmailStatus (emailId (t_email t)) (service w') = Some failed ∧
  ∃ lastError,
    handedOver (t_caller t) pr
      (Rejected (Error (allFailedMessage (emailId (t_email t)) lastError)))
      w'.
Proof.
  intros HOr Ht Hl Hstep Hgone.
  apply step_turn in Hstep.
  inversion Hstep as
    [ e Hinv | e Hinv Hdup | e Hinv Hdup Hlen | e r w2 Hinv Hdup Hlen Hfor
    | pr' t' v Ht' Hsl | pr' t' m typeError r w2 Ht' Hsl Hmsg Hfor
    | pr' t' m Ht' Hsl Hmsg Hat | pr' t' m r w2 Ht' Hsl Hmsg Hat Hfor
    | pr' t' Ht' Hsl Hat | pr' t' r w2 Ht' Hsl Hat Hfor
    | pr' k o Hk | n Hn ]; subst;
    try (destruct Hl as [Hl | [m' Hl]]; discriminate Hl).
  - destruct Hl as [Hl | [m' Hl]]; [done|]. injection Hl as -> ->.
    rewrite Ht in Ht'. injection Ht' as <-.
    rewrite onService_recordFailure in Hfor.
    refine (exhausted_end cfg now pr t _ _ _ r w2 w HOr Ht _ _ _ Hfor Hgone);
      reflexivity.
  - destruct Hl as [Hl | [m' Hl]]; [done|]. injection Hl as -> ->.
    rewrite Ht in Ht'. injection Ht' as <-.
    ws. by rewrite lookup_insert_eq in Hgone.
  - destruct Hl as [Hl | [m' Hl]]; [done|]. injection Hl as -> ->.
    rewrite Ht in Ht'. injection Ht' as <-.
    rewrite onService_recordFailure in Hfor.
    refine (exhausted_end cfg now pr t _ _ _ r w2 w HOr Ht _ _ _ Hfor Hgone);
      reflexivity.
  - destruct Hl as [Hl | [m' Hl]]; [|done]. injection Hl as ->.
    rewrite Ht in Ht'. injection Ht' as <-.
    ws. by rewrite lookup_insert_eq in Hgone.
  - destruct Hl as [Hl | [m' Hl]]; [|done]. injection Hl as ->.
    rewrite Ht in Ht'. injection Ht' as <-.
    rewrite onService_recordFailure in Hfor.
    refine (exhausted_end cfg now pr t _ _ _ r w2 w HOr Ht _ _ _ Hfor Hgone);
      reflexivity.
Qed.

(** X21. Giving up ends the send as 'failed'.  In every world the service
    can reach, when a turn of a suspended send (its provider call rejects,
    or its sleep ends) ends the send, then at the end of that turn the
    status of the email is 'failed' and the error 'All providers failed
    for email ...' is handed on: the promise of [sendEmail] rejects with
    it, or, for an entry of the queue, the waiting [_processQueue] is
    ready to reject the entry's promise with it. *)
Theorem giving_up_marks_failed :
  ∀ cfg now l w w' pr t,
    reachable cfg w →
    tasks w !! pr = Some t →
    (l = SleepEnds pr ∨ ∃ m, l = ProviderSettles pr (Rejected m)) →
    step cfg now l w = Some w' →
    tasks w' !! pr = None →
    getEmailStatus (emailId (t_email t)) (service w') = Some failed ∧
    ∃ lastError,
      handedOver (t_caller t) pr
        (Rejected (Error (allFailedMessage (emailId (t_email t)) lastError)))
        w'.
Proof.
  intros cfg now l w w' pr t Hreach.
  apply giving_up_end. by apply (Orderly_reachable cfg).
Qed.

Lemma delivery_marks_sent_witness :
  getEmailStatus (emailId emailOne)
    (service (worldAfter pairConfig secondProviderDelivers)) = Some sent.
Proof.
  refine (proj1 (delivery_marks_sent pairConfig 300
                   (worldAfter pairConfig firstProviderDown)
                   (worldAfter pairConfig secondProviderDelivers) 0
                   (mkTask FromSendEmail emailOne 1 1 providerB 0 100 None false)
                   "sent by B" _ _ _)).
  - exists [providerA; providerB], pairOptions,
      (freshService [providerA; providerB]), firstProviderDown.
    split; [reflexivity | vm_compute; reflexivity].
  - vm_compute. reflexivity.
  - vm_compute. reflexivity.
Defined.

Lemma delivering_provider_goes_first_witness :
  currentProviderIndex (service (worldAfter pairConfig secondProviderDelivers))
  = t_providerIndex
      (mkTask FromSendEmail emailOne 1 1 providerB 0 100 None false).
Proof.
  refine (proj1 (delivering_provider_goes_first pairConfig 300
                   (worldAfter pairConfig firstProviderDown)
                   (worldAfter pairConfig secondProviderDelivers) 0
                   (mkTask FromSendEmail emailOne 1 1 providerB 0 100 None false)
                   "sent by B" _ _ _)).
  - exists [providerA; providerB], pairOptions,
      (freshService [providerA; providerB]), firstProviderDown.
    split; [reflexivity | vm_compute; reflexivity].
  - vm_compute. reflexivity.
  - vm_compute. reflexivity.
Defined.

Lemma giving_up_marks_failed_witness :
  getEmailStatus (emailId emailOne)
    (service (worldAfter eagerConfig firstProviderDown)) = Some failed.
Proof.
  refine (proj1 (giving_up_marks_failed eagerConfig 203
                   (ProviderSettles 0 (Rejected (Error "down")))
                   (worldAfter eagerConfig (take 3 firstProviderDown))
                   (worldAfter eagerConfig firstProviderDown) 0
                   (mkTask FromSendEmail emailOne 0 0 providerA 1 200
                      (Some (Error "down")) false)
                   _ _ _ _ _)).
  - exists [providerA], eagerOptions, (freshService [providerA]),
      (take 3 firstProviderDown).
    split; [reflexivity | vm_compute; reflexivity].
  - vm_compute. reflexivity.
  - right. by exists (Error "down").
  - vm_compute. reflexivity.
  - vm_compute. reflexivity.
Defined.

Lemma cbStep_record cfg now cb cb' k st :
  cbStep cfg now cb cb' → cb !! k = Some st →
  ∃ st', cb' !! k = Some st' ∧ failureCount st' = failureCount st ∧
         lastFailureTime st' = lastFailureTime st.
Proof.
  intros Hstep Hk. destruct (Hstep k) as [-> | ->].
  - by exists st.
  - rewrite Hk. cbn. eexists. split; [done|]. unfold checked, checkCircuit.
    by repeat case_match.
Qed.

(** X22. The breaker counts the retry sequences that ended in failure,
    not the failed attempts.  When a provider call is rejected with a
    value other than [null] and [undefined] and a retry is left, the send
    goes to sleep for twice its current delay and no circuit changes.
    One failure is recorded for the provider, with the time of that turn,
    when the retries are used up, and also when the call is rejected with
    [null] or [undefined]: the catch block of [retryWithBackoff] then
    throws, and the sequence ends at once, whatever retries are left. *)
Theorem breaker_counts_sequences_not_attempts :
  ∀ cfg now w w' pr t error st,
    tasks w !! pr = Some t →
    circuitBreakers (service w) !! pid (t_provider t) = Some st →
    step cfg now (ProviderSettles pr (Rejected error)) w = Some w' →
    (messageThrows error = None →
     (S (t_attempt t) ≤ maxRetries cfg)%nat →
     circuitBreakers (service w') = circuitBreakers (service w) ∧
     trace w' = EvSleep pr (t_currentDelay t * 2) :: trace w) ∧
    ((maxRetries cfg < S (t_attempt t))%nat ∨ messageThrows error ≠ None →
     ∃ st', circuitBreakers (service w') !! pid (t_provider t) = Some st' ∧
            failureCount st' = S (failureCount st) ∧
            lastFailureTime st' = now).
Proof.
  intros cfg now w w' pr t error st Ht Hst Hstep.
  assert (∀ le rem r w2,
            ForPick cfg now (t_caller t) pr (t_email t) le rem
              (onService (_recordFailure cfg now (t_provider t))
                 (setTasks (delete pr (tasks w)) w))
              (r, w2) →
            ∃ st',
              circuitBreakers
                (service (deliver (t_caller t) pr
                            (finallyProcessQueue (_processQueue cfg) now (r, w2))))
                !! pid (t_provider t) = Some st' ∧
              failureCount st' = S (failureCount st) ∧
              lastFailureTime st' = now) as Hrecorded.
  { intros le rem r w2 Hfor. rewrite circuits_deliver.
    rewrite onService_recordFailure in Hfor.
    assert (cbStep cfg now
              (alter (failCircuit (circuitBreakerThreshold cfg) now)
                 (pid (t_provider t)) (circuitBreakers (service w)))
              (circuitBreakers
                 (service (snd (finallyProcessQueue (_processQueue cfg) now (r, w2))))))
      as Hcb.
    { apply ForPick_result in Hfor.
      assert (cbStep cfg now
                (alter (failCircuit (circuitBreakerThreshold cfg) now)
                   (pid (t_provider t)) (circuitBreakers (service w)))
                (circuitBreakers (service w2))) as H2.
      { inversion Hfor as [cb' t' Hs Hc He Hsl' Hat' Hcl | cb' msg Hs]; subst; done. }
      destruct r as [o|]; cbn [finallyProcessQueue snd]; [|done].
      eapply cbStep_trans; [exact H2|].
      by destruct (processQueue_fields cfg now w2) as (_ & _ & ? & _). }
    destruct (cbStep_record cfg now _ _ (pid (t_provider t))
                (failCircuit (circuitBreakerThreshold cfg) now st) Hcb)
      as (st' & Hst' & Hc & Hl).
    { rewrite lookup_alter_eq, Hst. done. }
    exists st'. split; [done|].
    rewrite Hc, Hl, failCircuit_count, failCircuit_time. done. }
  apply step_turn in Hstep.
  inversion Hstep as
    [ | | | | | pr' t' m' typeError r w2 Ht' Hsl Hmsg Hfor
    | pr' t' m' Ht' Hsl Hmsg Hat | pr' t' m' r w2 Ht' Hsl Hmsg Hat Hfor
    | | | | ]; subst; rewrite Ht in Ht'; injection Ht' as <-.
  - split; [congruence|]. intros _. by eapply Hrecorded.
  - split; [done|]. intros [Hlt | Hne]; [lia | done].
  - split; [lia|]. intros _. by eapply Hrecorded.
Qed.

Lemma breaker_counts_sequences_not_attempts_witness :
  (circuitBreakers
     (service (worldAfter eagerConfig (take 2 firstProviderDown)))
   = circuitBreakers (service (worldAfter eagerConfig (take 1 firstProviderDown)))
   ∧ trace (worldAfter eagerConfig (take 2 firstProviderDown))
     = EvSleep 0
         (t_currentDelay
            (mkTask FromSendEmail emailOne 0 0 providerA 0 100 None false) * 2)
         :: trace (worldAfter eagerConfig (take 1 firstProviderDown)))
  ∧ ∃ st',
      circuitBreakers (service (worldAfter eagerConfig rejectedWithNull))
        !! pid
             (t_provider
                (mkTask FromSendEmail emailOne 0 0 providerA 0 100 None false))
      = Some st' ∧
      failureCount st' = S (failureCount closedCircuit) ∧
      lastFailureTime st' = 2.
Proof.
  split.
  - refine (proj1 (breaker_counts_sequences_not_attempts eagerConfig 2
                     (worldAfter eagerConfig (take 1 firstProviderDown))
                     (worldAfter eagerConfig (take 2 firstProviderDown)) 0
                     (mkTask FromSendEmail emailOne 0 0 providerA 0 100 None false)
                     (Error "down") closedCircuit _ _ _) _ _).
    + vm_compute. reflexivity.
    + vm_compute. reflexivity.
    + vm_compute. reflexivity.
    + reflexivity.
    + vm_compute. lia.
  - refine (proj2 (breaker_counts_sequences_not_attempts eagerConfig 2
                     (worldAfter eagerConfig (take 1 firstProviderDown))
                     (worldAfter eagerConfig rejectedWithNull) 0
                     (mkTask FromSendEmail emailOne 0 0 providerA 0 100 None false)
                     Null closedCircuit _ _ _) _).
    + vm_compute. reflexivity.
    + vm_compute. reflexivity.
    + vm_compute. reflexivity.
    + right. discriminate.
Defined.
(** ** Cleaning up, and ids never seen *)

Lemma isRateLimited_admitted cfg now s :
  fst (_isRateLimited cfg now s) = false →
  (length (pruneWindow cfg now (requestTimestamps s))
   < maxRequestsPerWindow cfg)%nat.
Proof.
  intros H. destruct (isRateLimited_cases cfg now s) as [[Hlen Heq] | [Hlen Heq]];
    rewrite Heq in H; done.
Qed.

(** X23. [_cleanupIdempotencySet] forgets every id at once, however
    recently it was sent and whatever [idempotencyWindowMs] is, and leaves
    the statuses alone.  A complete email submitted after it is therefore
    never answered as a duplicate: if the limiter lets it through it is
    processed again, its id is remembered again, and its status becomes
    'processing', or 'failed' when every circuit blocks, even if it was
    'sent' before. *)
Theorem cleanup_forgets_every_id :
  ∀ cfg now e w,
    invalidEmail e = false →
    fst (_isRateLimited cfg now (service w)) = false →
    let cleaned := onService _cleanupIdempotencySet w in
    sentEmailIds (service cleaned) = ∅ ∧
    emailStatuses (service cleaned) = emailStatuses (service w) ∧
    emailId e ∈ sentEmailIds (service (sendEmail cfg now e cleaned)) ∧
    (getEmailStatus (emailId e) (service (sendEmail cfg now e cleaned))
       = Some processing
     ∨ getEmailStatus (emailId e) (service (sendEmail cfg now e cleaned))
       = Some failed).
Proof.
  intros cfg now e w Hinv Hadm. cbv zeta.
  split; [done|]. split; [done|].
  set (cleaned := onService _cleanupIdempotencySet w).
  assert (step cfg now (CallSendEmail e) cleaned
          = Some (sendEmail cfg now e cleaned)) as Hstep by done.
  apply step_result in Hstep.
  remember (sendEmail cfg now e cleaned) as w' eqn:Hw'. clear Hw'.
  apply isRateLimited_admitted in Hadm.
  inversion Hstep as
    [ e' m Hinv' | e' Hinv' Hdup | e' Hinv' Hdup Hlen
    | e' r w2 Hinv' Hdup Hlen Hfor | | | | | | | ]; subst.
  - congruence.
  - subst cleaned. unfold _cleanupIdempotencySet in *. ws. set_solver.
  - subst cleaned. unfold _cleanupIdempotencySet in *. ws. lia.
  - clear Hstep. unfold getEmailStatus. rewrite statuses_deliver.
    match type of Hfor with
    | ForResult _ _ _ _ _ ?u _ => set (w1 := u) in *
    end.
    assert (Grows w1 (snd (finallyProcessQueue (_processQueue cfg) now (r, w2))))
      as [Hl _].
    { eapply Grows_trans; [eapply Grows_for, Hfor|].
      destruct r; cbn [finallyProcessQueue snd];
        [apply Grows_processQueue | apply Grows_refl]. }
    split.
    + assert (sentEmailIds (service (deliver FromSendEmail (nextPromise cleaned)
                 (finallyProcessQueue (_processQueue cfg) now (r, w2))))
              = sentEmailIds
                  (service (snd (finallyProcessQueue (_processQueue cfg) now (r, w2)))))
        as -> by (by destruct (finallyProcessQueue _ _ _) as [[?|] ?]).
      apply Hl. subst w1. ws. set_solver.
    + inversion Hfor as [cb' t Hs Hc He Hsl Hat Hcl | cb' msg Hs]; subst.
      * left. cbn [finallyProcessQueue snd]. subst w1. ws.
        by rewrite lookup_insert_eq.
      * right. cbn [finallyProcessQueue snd].
        match goal with
        | |- context [_processQueue cfg now ?u] =>
          destruct (processQueue_fields cfg now u) as (_ & Hs' & _)
        end.
        destruct (Hs' (emailId e)) as [-> | ->]; [|done].
        ws. by rewrite lookup_insert_eq.
Qed.

Lemma cleanup_forgets_every_id_witness :
  getEmailStatus (emailId emailOne)
    (service (sendEmail pairConfig 400 emailOne
                (onService _cleanupIdempotencySet
                   (worldAfter pairConfig secondProviderDelivers))))
    = Some processing
  ∨ getEmailStatus (emailId emailOne)
      (service (sendEmail pairConfig 400 emailOne
                  (onService _cleanupIdempotencySet
                     (worldAfter pairConfig secondProviderDelivers))))
    = Some failed.
Proof.
  refine (proj2 (proj2 (proj2 (cleanup_forgets_every_id pairConfig 400 emailOne
            (worldAfter pairConfig secondProviderDelivers) _ _)))).
  - reflexivity.
  - vm_compute. reflexivity.
Defined.

(** X24. An id that was never submitted is unknown: after any schedule
    that holds no [sendEmail] call with the id, [getEmailStatus] returns
    undefined for it, [sentEmailIds] does not hold it, and neither an
    entry of the queue nor a suspended send carries it. *)
Theorem unsubmitted_id_is_unknown :
  ∀ cfg ps o s sched w a,
    constructor ps o = Some (cfg, s) →
    run cfg sched (initialWorld s) = Some w →
    submissions a sched = 0%nat →
    getEmailStatus a (service w) = None ∧
    (a ∉ sentEmailIds (service w)) ∧
    (∀ en, en ∈ emailQueue (service w) → emailId (q_email en) ≠ a) ∧
    (∀ pr t, tasks w !! pr = Some t → emailId (t_email t) ≠ a).
Proof.
  intros cfg ps o s sched w a Hc Hrun Hsub.
  assert (Once a 0 (initialWorld s)) as H0.
  { destruct (constructor_config _ _ _ _ Hc) as (_ & -> & _).
    split; [|done]. intros _. done. }
  pose proof (Once_run cfg a sched 0 _ w H0 Hrun) as [Hz _].
  rewrite Hsub in Hz. destruct (Hz eq_refl) as (Hocc & Hnt & Hst).
  assert (reachable cfg w) as Hreach by (by exists ps, o, s, sched).
  pose proof (Tidy_reachable cfg w Hreach) as HT.
  split; [done|]. split; [|split].
  - intros Hin. destruct (tidy_tracked _ _ HT a Hin) as [st Hsome].
    unfold getEmailStatus in *. congruence.
  - intros en Hin Ha. pose proof (occurrences_elem w en Hin) as Hge.
    rewrite Ha in Hge. lia.
  - exact Hnt.
Qed.

Lemma unsubmitted_id_is_unknown_witness :
  getEmailStatus "m-2" (service (worldAfter pairConfig secondProviderDelivers))
  = None.
Proof.
  refine (proj1 (unsubmitted_id_is_unknown pairConfig [providerA; providerB]
                   pairOptions (freshService [providerA; providerB])
                   secondProviderDelivers
                   (worldAfter pairConfig secondProviderDelivers) "m-2" _ _ _)).
  - reflexivity.
  - vm_compute. reflexivity.
  - vm_compute. reflexivity.
Defined.

(** ** The mock providers *)

Lemma belowRate_certain draw rate :
  QArith_base.Qlt draw (QArith_base.Qmake 1 1) →
  QArith_base.Qle (QArith_base.Qmake 1 1) rate →
  belowRate draw rate = true.
Proof.
  intros Hd Hr. unfold belowRate. apply negb_true_iff.
  destruct (QArith_base.Qle_bool rate draw) eqn:E; [|done].
  apply QArith_base.Qle_bool_iff in E. exfalso.
  eapply QArith_base.Qlt_not_le; [exact Hd|].
  eapply QArith_base.Qle_trans; eauto.
Qed.

Lemma belowRate_never draw rate :
  QArith_base.Qle (QArith_base.Qmake 0 1) draw →
  QArith_base.Qle rate (QArith_base.Qmake 0 1) →
  belowRate draw rate = false.
Proof.
  intros Hd Hr. unfold belowRate. apply negb_false_iff.
  apply QArith_base.Qle_bool_iff. eapply QArith_base.Qle_trans; eauto.
Qed.

Lemma belowRate_mono draw rate rate' :
  QArith_base.Qle rate rate' →
  belowRate draw rate = true → belowRate draw rate' = true.
Proof.
  unfold belowRate. rewrite !negb_true_iff. intros Hr Hb.
  destruct (QArith_base.Qle_bool rate' draw) eqn:E; [|done].
  apply QArith_base.Qle_bool_iff in E.
  assert (QArith_base.Qle_bool rate draw = true) as Ht.
  { apply QArith_base.Qle_bool_iff. eapply QArith_base.Qle_trans; eauto. }
  congruence.
Qed.

(** X25. The mock providers are certain at the ends of the scale and
    monotone in between.  For every number in [0, 1) that [Math.random()]
    can return, a success rate of at least 1 makes both providers resolve
    with 'Email sent successfully via Provider n to <to>', and a success
    rate of at most 0 makes both reject with the error 'Failed to send
    email via Provider n to <to>'; and with either provider, a draw that
    succeeds at one rate succeeds, with the same result, at every higher
    one. *)
Theorem mock_providers_by_success_rate :
  ∀ to subject body rate draw,
    QArith_base.Qle (QArith_base.Qmake 0 1) draw →
    QArith_base.Qlt draw (QArith_base.Qmake 1 1) →
    (QArith_base.Qle (QArith_base.Qmake 1 1) rate →
     m_outcome (mockProvider1 to subject body (Some rate) draw)
       = Resolved ("Email sent successfully via Provider 1 to " +:+ to) ∧
     m_outcome (mockProvider2 to subject body (Some rate) draw)
       = Resolved ("Email sent successfully via Provider 2 to " +:+ to)) ∧
    (QArith_base.Qle rate (QArith_base.Qmake 0 1) →
     m_outcome (mockProvider1 to subject body (Some rate) draw)
       = Rejected (Error ("Failed to send email via Provider 1 to " +:+ to)) ∧
     m_outcome (mockProvider2 to subject body (Some rate) draw)
       = Rejected (Error ("Failed to send email via Provider 2 to " +:+ to))) ∧
    (∀ rate' v,
       QArith_base.Qle rate rate' →
       (m_outcome (mockProvider1 to subject body (Some rate) draw) = Resolved v →
        m_outcome (mockProvider1 to subject body (Some rate') draw) = Resolved v)
       ∧
       (m_outcome (mockProvider2 to subject body (Some rate) draw) = Resolved v →
        m_outcome (mockProvider2 to subject body (Some rate') draw) = Resolved v)).
Proof.
  intros to subject body rate draw H0 H1. unfold mockProvider1, mockProvider2.
  cbn [default m_outcome m_latency]. unfold id. split; [|split].
  - intros Hr. by rewrite belowRate_certain.
  - intros Hr. by rewrite belowRate_never.
  - intros rate' v Hle.
    split; intros Hres;
      (destruct (belowRate draw rate) eqn:Hb; cbv iota in Hres;
         [|discriminate Hres]);
      by rewrite (belowRate_mono draw rate rate' Hle Hb).
Qed.

Lemma mock_providers_by_success_rate_witness :
  (m_outcome (mockProvider1 "ann@example.com" "hello" "body"
                (Some (QArith_base.Qmake 1 1)) (QArith_base.Qmake 1 2))
   = Resolved ("Email sent successfully via Provider 1 to " +:+ "ann@example.com")
   ∧ m_outcome (mockProvider2 "ann@example.com" "hello" "body"
                  (Some (QArith_base.Qmake 1 1)) (QArith_base.Qmake 1 2))
     = Resolved
         ("Email sent successfully via Provider 2 to " +:+ "ann@example.com"))
  ∧ (m_outcome (mockProvider1 "ann@example.com" "hello" "body"
                  (Some (QArith_base.Qmake 0 1)) (QArith_base.Qmake 1 2))
     = Rejected
         (Error ("Failed to send email via Provider 1 to " +:+ "ann@example.com"))
     ∧ m_outcome (mockProvider2 "ann@example.com" "hello" "body"
                    (Some (QArith_base.Qmake 0 1)) (QArith_base.Qmake 1 2))
       = Rejected
           (Error
              ("Failed to send email via Provider 2 to " +:+ "ann@example.com")))
  ∧ m_outcome (mockProvider2 "ann@example.com" "hello" "body"
                 (Some (QArith_base.Qmake 9 10)) (QArith_base.Qmake 1 2))
    = Resolved
        ("Email sent successfully via Provider 2 to " +:+ "ann@example.com").
Proof.
  split; [|split].
  - refine (proj1 (mock_providers_by_success_rate "ann@example.com" "hello"
                     "body" (QArith_base.Qmake 1 1) (QArith_base.Qmake 1 2) _ _)
              _).
    + unfold QArith_base.Qle. cbn. lia.
    + unfold QArith_base.Qlt. cbn. lia.
    + unfold QArith_base.Qle. cbn. lia.
  - refine (proj1 (proj2 (mock_providers_by_success_rate "ann@example.com"
                            "hello" "body" (QArith_base.Qmake 0 1)
                            (QArith_base.Qmake 1 2) _ _)) _).
    + unfold QArith_base.Qle. cbn. lia.
    + unfold QArith_base.Qlt. cbn. lia.
    + unfold QArith_base.Qle. cbn. lia.
  - refine (proj2 (proj2 (proj2 (mock_providers_by_success_rate
                                   "ann@example.com" "hello" "body"
                                   (QArith_base.Qmake 7 10)
                                   (QArith_base.Qmake 1 2) _ _))
                     (QArith_base.Qmake 9 10) _ _) _).
    + unfold QArith_base.Qle. cbn. lia.
    + unfold QArith_base.Qlt. cbn. lia.
    + unfold QArith_base.Qle. cbn. lia.
    + reflexivity.
Defined.
(** ** Overlapping sends *)

Lemma tasks_for cfg now c pr0 e w r w' pr :
  ForResult cfg now c pr0 e w (r, w') → pr ≠ pr0 →
  tasks w' !! pr = tasks w !! pr.
Proof.
  inversion 1 as [cb' t Hst Hc He Hsl Hat Hcl | cb' msg Hst]; subst; ws.
  - intros Hne. by rewrite lookup_insert_ne.
  - done.
Qed.

Lemma queuedIds_for cfg now c pr0 e w r w' :
  ForResult cfg now c pr0 e w (r, w') → queuedIds w' = queuedIds w.
Proof. inversion 1; subst; done. Qed.

Lemma tasks_finish cfg now c pr0 r w pr :
  pr ∉ queuedIds w →
  tasks (deliver c pr0 (finallyProcessQueue (_processQueue cfg) now (r, w))) !! pr
  = tasks w !! pr.
Proof.
  intros Hnq. rewrite tasks_deliver. destruct r as [o|]; cbn [finallyProcessQueue snd];
    [|done].
  by destruct (processQueue_fields cfg now w) as (_ & _ & _ & ->).
Qed.

Lemma tasks_drain cfg now w w' pr :
  DrainResult cfg now w w' → pr ∉ queuedIds w →
  tasks w' !! pr = tasks w !! pr.
Proof.
  inversion 1 as [Hq | en rest Hq Hlen | en rest r w2 Hq Hlen Hfor]; subst; ws;
    [done | done |].
  intros Hnq. rewrite (tasks_for _ _ _ _ _ _ _ _ pr Hfor); [done|].
  intros ->. apply Hnq. unfold queuedIds. rewrite Hq. cbn.
  rewrite elem_of_cons. by left.
Qed.

(** X26. Overlapping sends leave each other alone: in every world the
    service can reach, a turn that is not the settling of the provider
    call of a suspended send, nor the end of its sleep, leaves that send
    exactly as it was (its provider, its attempt, its delay), whatever
    else the turn does. *)
Theorem other_turns_leave_send_alone :
  ∀ cfg now l w w' pr t,
    reachable cfg w →
    tasks w !! pr = Some t →
    l ≠ SleepEnds pr →
    (∀ o, l ≠ ProviderSettles pr o) →
    step cfg now l w = Some w' →
    tasks w' !! pr = Some t.
Proof.
  intros cfg now l w w' pr t Hreach Ht Hsl Hps Hstep.
  pose proof (Orderly_reachable cfg w Hreach) as HOr.
  destruct (task_of_queue_waits w pr t HOr Ht) as [Hnq _].
  assert (pr < nextPromise w)%nat as Hlt.
  { destruct HOr as [HP _]. by destruct (po_task _ _ _ HP pr t Ht) as (? & _). }
  rewrite <- Ht. apply step_result in Hstep.
  inversion Hstep as
    [ e m Hinv | e Hinv Hdup | e Hinv Hdup Hlen | e r w2 Hinv Hdup Hlen Hfor
    | pr' t' v Ht' Hsl' | pr' t' m d Ht' Hsl' Hmsg Hat Hd
    | pr' t' m r w2 Ht' Hsl' Hat Hfor
    | pr' t' Ht' Hsl' Hat | pr' t' r w2 Ht' Hsl' Hat Hfor
    | pr' j o w1 Hj Hloop | k Hk ]; subst.
  - done.
  - done.
  - destruct (processQueue_fields cfg now
                (onService
                   (fun s =>
                      set_emailQueue (emailQueue s ++ [mkEntry e (nextPromise w)])
                        (set_requestTimestamps
                           (pruneWindow cfg now (requestTimestamps s)) s))
                   (setNextPromise (S (nextPromise w)) w)))
      as (_ & _ & _ & Htk).
    cbv zeta in Htk. rewrite Htk; [done|].
    unfold queuedIds. ws. rewrite fmap_app, elem_of_app. cbn.
    rewrite list_elem_of_singleton. intros [Hin | ->]; [by apply Hnq | lia].
  - rewrite tasks_finish by (by rewrite (queuedIds_for _ _ _ _ _ _ _ _ Hfor)).
    rewrite (tasks_for _ _ _ _ _ _ _ _ pr Hfor); [done | lia].
  - assert (pr ≠ pr') as Hne by (intros ->; by apply (Hps (Resolved v))).
    rewrite tasks_deliver. cbn [snd]. rewrite onService_recordSuccess.
    match goal with
    | |- context [_processQueue cfg now ?u] =>
      destruct (processQueue_fields cfg now u) as (_ & _ & _ & Htk)
    end.
    cbv zeta in Htk. rewrite Htk by exact Hnq. ws. by rewrite lookup_delete_ne.
  - assert (pr ≠ pr') as Hne by (intros ->; by apply (Hps (Rejected m))).
    ws. by rewrite lookup_insert_ne.
  - assert (pr ≠ pr') as Hne by (intros ->; by apply (Hps (Rejected m))).
    rewrite onService_recordFailure in Hfor.
    rewrite tasks_finish by (by rewrite (queuedIds_for _ _ _ _ _ _ _ _ Hfor)).
    rewrite (tasks_for _ _ _ _ _ _ _ _ pr Hfor) by done. ws.
    by rewrite lookup_delete_ne.
  - assert (pr ≠ pr') as Hne by (intros ->; by apply Hsl).
    ws. by rewrite lookup_insert_ne.
  - assert (pr ≠ pr') as Hne by (intros ->; by apply Hsl).
    rewrite onService_recordFailure in Hfor.
    rewrite tasks_finish by (by rewrite (queuedIds_for _ _ _ _ _ _ _ _ Hfor)).
    rewrite (tasks_for _ _ _ _ _ _ _ _ pr Hfor) by done. ws.
    by rewrite lookup_delete_ne.
  - assert (isProcessingQueue (service w) = true) as Hflag.
    { destruct HOr as [_ HO]. unfold OneDrain in HO. apply lookup_lt_Some in Hj.
      destruct (isProcessingQueue (service w)); [done | lia]. }
    apply LoopResult_busy in Hloop; [|done].
    by rewrite (tasks_drain _ _ _ _ pr Hloop).
  - destruct (processQueue_fields cfg now (setTimers k w)) as (_ & _ & _ & Htk).
    cbv zeta in Htk. by rewrite Htk.
Qed.

Lemma other_turns_leave_send_alone_witness :
  tasks (worldAfter eagerConfig (take 3 overlappingSends)) !! 1%nat
  = Some (mkTask FromSendEmail emailTwo 0 0 providerA 0 100 None false).
Proof.
  refine (other_turns_leave_send_alone eagerConfig 2
            (ProviderSettles 0 (Rejected (Error "down")))
            (worldAfter eagerConfig (take 2 overlappingSends))
            (worldAfter eagerConfig (take 3 overlappingSends)) 1
            (mkTask FromSendEmail emailTwo 0 0 providerA 0 100 None false)
            _ _ _ _ _).
  - exists [providerA], eagerOptions, (freshService [providerA]),
      (take 2 overlappingSends).
    split; [reflexivity | vm_compute; reflexivity].
  - vm_compute. reflexivity.
  - discriminate.
  - intros o. injection. lia.
  - vm_compute. reflexivity.
Defined.

(** X27. A send cannot go on for ever.  In every world the service can
    reach, a suspended send has between 1 and
    [providers.length * (2 * maxRetries + 1)] turns left ([turnsLeft]), and
    each of its own turns (its provider call settles, or its sleep ends)
    either ends the send or leaves it with strictly fewer turns left. *)
Theorem own_turn_uses_up_budget :
  ∀ cfg now l w w' pr t,
    reachable cfg w →
    tasks w !! pr = Some t →
    (l = SleepEnds pr ∨ ∃ o, l = ProviderSettles pr o) →
    step cfg now l w = Some w' →
    (1 ≤ turnsLeft cfg t
     ≤ length (providers cfg) * (2 * maxRetries cfg + 1))%nat ∧
    (tasks w' !! pr = None ∨
     ∃ t', tasks w' !! pr = Some t' ∧ (turnsLeft cfg t' < turnsLeft cfg t)%nat).
Proof.
  intros cfg now l w w' pr t Hreach Ht Hl Hstep.
  pose proof (Orderly_reachable cfg w Hreach) as HOr.
  pose proof (Tidy_reachable cfg w Hreach) as HT.
  destruct (task_of_queue_waits w pr t HOr Ht) as [Hnq _].
  destruct (tidy_tasks _ _ HT pr t Ht) as (_ & Hi & _ & Ha & _ & Hz).
  assert (1 ≤ turnsLeft cfg t
          ≤ length (providers cfg) * (2 * maxRetries cfg + 1))%nat as Hbound.
  { unfold turnsLeft. destruct (t_sleeping t); [specialize (Hz eq_refl)|]; nia. }
  split; [exact Hbound|].
  apply step_turn in Hstep.
  inversion Hstep as
    [ e Hinv | e Hinv Hdup | e Hinv Hdup Hlen | e r w2 Hinv Hdup Hlen Hfor
    | pr' t' v Ht' Hsl | pr' t' m typeError r w2 Ht' Hsl Hmsg Hfor
    | pr' t' m Ht' Hsl Hmsg Hat | pr' t' m r w2 Ht' Hsl Hmsg Hat Hfor
    | pr' t' Ht' Hsl Hat | pr' t' r w2 Ht' Hsl Hat Hfor
    | pr' k o Hk | n Hn ]; subst;
    try (destruct Hl as [Hl | [o' Hl]]; discriminate Hl).
  - assert (pr' = pr) as -> by (destruct Hl as [Hl | [o' Hl]]; congruence).
    rewrite Ht in Ht'. injection Ht' as <-. left.
    rewrite tasks_deliver. cbn [snd]. rewrite onService_recordSuccess.
    match goal with
    | |- context [_processQueue cfg now ?u] =>
      destruct (processQueue_fields cfg now u) as (_ & _ & _ & Htk)
    end.
    cbv zeta in Htk. rewrite Htk by exact Hnq. ws. by rewrite lookup_delete_eq.
  - assert (pr' = pr) as -> by (destruct Hl as [Hl | [o' Hl]]; congruence).
    rewrite Ht in Ht'. injection Ht' as <-.
    rewrite onService_recordFailure in Hfor.
    inversion Hfor as [i p Hir Hp Hbefore Hopen | Hall]; subst.
    + right. eexists. split.
      * cbn [finallyProcessQueue deliver]. ws. by rewrite lookup_insert_eq.
      * unfold turnsLeft. cbn. rewrite Hsl. nia.
    + left. rewrite tasks_finish by exact Hnq. ws. by rewrite lookup_delete_eq.
  - assert (pr' = pr) as -> by (destruct Hl as [Hl | [o' Hl]]; congruence).
    rewrite Ht in Ht'. injection Ht' as <-. right.
    exists (asleep t (t_currentDelay t * 2) m). split.
    + ws. by rewrite lookup_insert_eq.
    + unfold turnsLeft, asleep. cbn. rewrite Hsl. nia.
  - assert (pr' = pr) as -> by (destruct Hl as [Hl | [o' Hl]]; congruence).
    rewrite Ht in Ht'. injection Ht' as <-.
    rewrite onService_recordFailure in Hfor.
    inversion Hfor as [i p Hir Hp Hbefore Hopen | Hall]; subst.
    + right. eexists. split.
      * cbn [finallyProcessQueue deliver]. ws. by rewrite lookup_insert_eq.
      * unfold turnsLeft. cbn. rewrite Hsl. nia.
    + left. rewrite tasks_finish by exact Hnq. ws. by rewrite lookup_delete_eq.
  - assert (pr' = pr) as -> by (destruct Hl as [Hl | [o' Hl]]; congruence).
    rewrite Ht in Ht'. injection Ht' as <-. right.
    exists (awake t). split.
    + ws. by rewrite lookup_insert_eq.
    + unfold turnsLeft, awake. cbn. rewrite Hsl. nia.
  - assert (pr' = pr) as -> by (destruct Hl as [Hl | [o' Hl]]; congruence).
    rewrite Ht in Ht'. injection Ht' as <-. lia.
Qed.

Lemma own_turn_uses_up_budget_witness :
  (1 ≤ turnsLeft eagerConfig
         (mkTask FromSendEmail emailTwo 0 0 providerA 0 100 None false)
   ≤ length (providers eagerConfig) * (2 * maxRetries eagerConfig + 1))%nat.
Proof.
  refine (proj1 (own_turn_uses_up_budget eagerConfig 3
                   (ProviderSettles 1 (Rejected (Error "down")))
                   (worldAfter eagerConfig (take 3 overlappingSends))
                   (worldAfter eagerConfig (take 4 overlappingSends)) 1
                   (mkTask FromSendEmail emailTwo 0 0 providerA 0 100 None false)
                   _ _ _ _)).
  - exists [providerA], eagerOptions, (freshService [providerA]),
      (take 3 overlappingSends).
    split; [reflexivity | vm_compute; reflexivity].
  - vm_compute. reflexivity.
  - right. by eexists.
  - vm_compute. reflexivity.
Defined.

(** ** No promise is lost *)

Lemma placed_frame pr w w' :
  emailQueue (service w') = emailQueue (service w) →
  drains w' = drains w →
  settledIds (trace w') = settledIds (trace w) →
  tasks w' = tasks w →
  placed pr w → placed pr w'.
Proof.
  unfold placed, queuedIds, drainIds. intros -> -> -> ->. done.
Qed.

Ltac placed_frame H :=
  match type of H with
  | placed ?pr ?w => refine (placed_frame pr w _ _ _ _ _ H); reflexivity
  end.

Lemma placed_settle pr pr0 o w : placed pr w → placed pr (emit (EvSettle pr0 o) w).
Proof.
  unfold placed. ws. cbn. rewrite elem_of_cons. tauto.
Qed.

Lemma placed_settled pr o w : placed pr (emit (EvSettle pr o) w).
Proof. unfold placed. ws. cbn. rewrite elem_of_cons. auto. Qed.

Lemma placed_for cfg now c pr0 e w r w' pr :
  ForResult cfg now c pr0 e w (r, w') → placed pr w → placed pr w'.
Proof.
  inversion 1 as [cb' t Hst Hc He Hsl Hat Hcl | cb' msg Hst]; subst;
    unfold placed, queuedIds, drainIds; ws; [|done].
  intros [? | [? | [? | Hs]]]; auto. do 3 right.
  destruct (decide (pr = pr0)) as [-> | Hne].
  - rewrite lookup_insert_eq. by eexists.
  - by rewrite lookup_insert_ne.
Qed.

Lemma placed_for_own cfg now c pr0 e w w' :
  ForResult cfg now c pr0 e w (None, w') → placed pr0 w'.
Proof.
  inversion 1 as [cb' t Hst Hc He Hsl Hat Hcl | ]; subst.
  unfold placed. ws. do 3 right. rewrite lookup_insert_eq. by eexists.
Qed.

Lemma placed_drain cfg now w w' pr :
  DrainResult cfg now w w' → placed pr w → placed pr w'.
Proof.
  inversion 1 as [Hq | en rest Hq Hlen | en rest r w2 Hq Hlen Hfor]; subst.
  - intros Hpl. placed_frame Hpl.
  - intros Hpl. placed_frame Hpl.
  - intros Hpl.
    assert (placed pr w2 ∨ pr = q_promise en) as [H2 | ->].
    { destruct Hpl as [Hin | Hrest].
      - unfold queuedIds in Hin. rewrite Hq in Hin. cbn in Hin.
        apply elem_of_cons in Hin as [-> | Hin]; [by right|].
        left. eapply placed_for; [exact Hfor|]. by left.
      - left. eapply placed_for; [exact Hfor|]. by right. }
    + unfold placed, queuedIds, drainIds in *. ws. cbn. rewrite elem_of_cons. tauto.
    + unfold placed, drainIds. ws. cbn. rewrite elem_of_cons. auto.
Qed.

Lemma placed_processQueue cfg now w pr :
  placed pr w → placed pr (_processQueue cfg now w).
Proof.
  intros Hpl. unfold _processQueue.
  destruct (processQueueAt_form cfg 1 now w) as [[-> _] | (_ & _ & HD)]; [done|].
  eapply placed_drain; [exact HD|]. placed_frame Hpl.
Qed.

Lemma placed_deliver c pr0 x pr : placed pr (snd x) → placed pr (deliver c pr0 x).
Proof.
  destruct x as [[o|] w]; cbn [snd deliver]; [|done]. intros Hpl. destruct c.
  - by apply placed_settle.
  - unfold placed, queuedIds, drainIds in *. ws. by rewrite markSettled_ids.
Qed.

Lemma placed_finish cfg now c pr0 r w pr :
  placed pr w →
  placed pr (deliver c pr0 (finallyProcessQueue (_processQueue cfg) now (r, w))).
Proof.
  intros Hpl. apply placed_deliver.
  destruct r; cbn [finallyProcessQueue snd]; [by apply placed_processQueue | done].
Qed.

(** The promise of a direct send that has ended is settled. *)
Lemma placed_finish_own cfg now pr0 o w :
  placed pr0
    (deliver FromSendEmail pr0
       (finallyProcessQueue (_processQueue cfg) now (Some o, w))).
Proof. cbn [finallyProcessQueue deliver]. apply placed_settled. Qed.

Lemma placed_without pr pr0 w u :
  emailQueue (service u) = emailQueue (service w) →
  drains u = drains w →
  settledIds (trace u) = settledIds (trace w) →
  tasks u = delete pr0 (tasks w) →
  pr ≠ pr0 ∨ pr0 ∈ drainIds w →
  placed pr w → placed pr u.
Proof.
  unfold placed, queuedIds, drainIds. intros -> -> -> -> Hcase.
  intros [? | [? | [? | Hs]]]; auto.
  destruct (decide (pr = pr0)) as [-> | Hne].
  - destruct Hcase as [? | ?]; [done | auto].
  - do 3 right. by rewrite lookup_delete_ne.
Qed.

Lemma placed_retask pr pr0 t w u :
  emailQueue (service u) = emailQueue (service w) →
  drains u = drains w →
  settledIds (trace u) = settledIds (trace w) →
  tasks u = <[pr0 := t]> (tasks w) →
  placed pr w → placed pr u.
Proof.
  unfold placed, queuedIds, drainIds. intros -> -> -> ->.
  intros [? | [? | [? | Hs]]]; auto. do 3 right.
  destruct (decide (pr = pr0)) as [-> | Hne].
  - rewrite lookup_insert_eq. by eexists.
  - by rewrite lookup_insert_ne.
Qed.

(** The end of a [_processSend], for its own promise and for the others. *)
Lemma placed_end cfg now pr0 t w0 r w2 w pr :
  Orderly w → tasks w !! pr0 = Some t →
  emailQueue (service w0) = emailQueue (service w) →
  drains w0 = drains w →
  settledIds (trace w0) = settledIds (trace w) →
  tasks w0 = delete pr0 (tasks w) →
  ForResult cfg now (t_caller t) pr0 (t_email t) w0 (r, w2) →
  placed pr w →
  placed pr
    (deliver (t_caller t) pr0
       (finallyProcessQueue (_processQueue cfg) now (r, w2))).
Proof.
  intros HOr Ht Hq Hd Hs Htk Hfor Hpl.
  destruct (task_of_queue_waits w pr0 t HOr Ht) as [_ Hwait].
  destruct (decide (pr = pr0)) as [-> | Hne].
  - destruct (t_caller t) eqn:Hc.
    + destruct r as [o|].
      * apply placed_finish_own.
      * apply placed_finish. by eapply placed_for_own.
    + apply placed_finish. eapply placed_for; [exact Hfor|].
      eapply (placed_without pr0 pr0 w w0); try done.
      right. unfold drainIds. apply list_elem_of_fmap. exists (pr0, None).
      split; [done | by apply Hwait].
  - apply placed_finish. eapply placed_for; [exact Hfor|].
    eapply (placed_without pr pr0 w w0); try done. by left.
Qed.

Lemma nextPromise_for cfg now c pr0 e w r w' :
  ForResult cfg now c pr0 e w (r, w') → nextPromise w' = nextPromise w.
Proof. inversion 1; subst; done. Qed.

Lemma nextPromise_drain cfg now w w' :
  DrainResult cfg now w w' → nextPromise w' = nextPromise w.
Proof.
  inversion 1 as [Hq | en rest Hq Hlen | en rest r w2 Hq Hlen Hfor]; subst;
    [done | done |].
  ws. by rewrite (nextPromise_for _ _ _ _ _ _ _ _ Hfor).
Qed.

Lemma nextPromise_processQueue cfg now w :
  nextPromise (_processQueue cfg now w) = nextPromise w.
Proof.
  unfold _processQueue.
  destruct (processQueueAt_form cfg 1 now w) as [[-> _] | (_ & _ & HD)]; [done|].
  by rewrite (nextPromise_drain _ _ _ _ HD).
Qed.

Lemma nextPromise_finish cfg now c pr0 r w :
  nextPromise (deliver c pr0 (finallyProcessQueue (_processQueue cfg) now (r, w)))
  = nextPromise w.
Proof.
  destruct r as [o|]; cbn [finallyProcessQueue deliver]; [|done].
  destruct c; ws; apply nextPromise_processQueue.
Qed.

(** Every turn of the event loop keeps every promise somewhere. *)
Lemma Accounted_step cfg now l w w' :
  Orderly w → Accounted w → step cfg now l w = Some w' → Accounted w'.
Proof.
  intros HOr HA Hstep. apply step_result in Hstep.
  inversion Hstep as
    [ e m Hinv | e Hinv Hdup | e Hinv Hdup Hlen | e r w2 Hinv Hdup Hlen Hfor
    | pr0 t v Ht Hsl | pr0 t m d Ht Hsl Hmsg Hat Hd
    | pr0 t m r w2 Ht Hsl Hat Hfor
    | pr0 t Ht Hsl Hat | pr0 t r w2 Ht Hsl Hat Hfor
    | pr0 j o w1 Hj Hloop | k Hk ]; subst; intros pr Hpr.
  - ws. destruct (decide (pr = nextPromise w)) as [-> | Hne].
    + apply placed_settled.
    + apply placed_settle. assert (placed pr w) as Hpl by (apply HA; lia).
      placed_frame Hpl.
  - ws. destruct (decide (pr = nextPromise w)) as [-> | Hne].
    + apply placed_settled.
    + apply placed_settle. assert (placed pr w) as Hpl by (apply HA; lia).
      placed_frame Hpl.
  - rewrite nextPromise_processQueue in Hpr. ws. apply placed_processQueue.
    destruct (decide (pr = nextPromise w)) as [-> | Hne].
    + left. unfold queuedIds. ws. rewrite fmap_app, elem_of_app. right. cbn.
      by apply list_elem_of_singleton.
    + assert (placed pr w) as Hpl by (apply HA; lia).
      destruct Hpl as [Hin | Hrest].
      * left. unfold queuedIds in *. ws. rewrite fmap_app, elem_of_app. by left.
      * right. exact Hrest.
  - rewrite nextPromise_finish, (nextPromise_for _ _ _ _ _ _ _ _ Hfor) in Hpr. ws.
    destruct (decide (pr = nextPromise w)) as [-> | Hne].
    + destruct r as [o|].
      * apply placed_finish_own.
      * apply placed_finish. by eapply placed_for_own.
    + apply placed_finish. eapply placed_for; [exact Hfor|].
      assert (placed pr w) as Hpl by (apply HA; lia). placed_frame Hpl.
  - assert (nextPromise
              (deliver (t_caller t) pr0
                 (Some (Resolved v),
                  _processQueue cfg now
                    (onService (set_currentProviderIndex (t_providerIndex t))
                       (setStatus (emailId (t_email t)) sent
                          (onService (_recordSuccess (t_provider t))
                             (setTasks (delete pr0 (tasks w)) w))))))
            = nextPromise w) as Hnp.
    { destruct (t_caller t); cbn [deliver]; ws; by rewrite nextPromise_processQueue. }
    rewrite Hnp in Hpr. clear Hnp.
    destruct (task_of_queue_waits w pr0 t HOr Ht) as [_ Hwait].
    rewrite onService_recordSuccess.
    destruct (decide (pr = pr0) ) as [-> | Hne].
    + destruct (t_caller t) eqn:Hc; cbn [deliver].
      * apply placed_settled.
      * apply (placed_deliver FromQueue pr0 (Some (Resolved v), _)). cbn [snd].
        apply placed_processQueue. right. left. unfold drainIds. ws.
        apply list_elem_of_fmap. exists (pr0, None). split; [done | by apply Hwait].
    + apply (placed_deliver _ pr0 (Some (Resolved v), _)). cbn [snd].
      apply placed_processQueue.
      eapply (placed_without pr pr0 w); try reflexivity; [by left|]. by apply HA.
  - ws. eapply (placed_retask pr pr0 _ w); try reflexivity. by apply HA.
  - rewrite nextPromise_finish, (nextPromise_for _ _ _ _ _ _ _ _ Hfor) in Hpr.
    rewrite onService_recordFailure in Hfor, Hpr. ws.
    refine (placed_end cfg now pr0 t _ r w2 w pr HOr Ht _ _ _ _ Hfor _);
      [reflexivity.. | by apply HA].
  - ws. eapply (placed_retask pr pr0 _ w); try reflexivity. by apply HA.
  - rewrite nextPromise_finish, (nextPromise_for _ _ _ _ _ _ _ _ Hfor) in Hpr.
    rewrite onService_recordFailure in Hfor, Hpr. ws.
    refine (placed_end cfg now pr0 t _ r w2 w pr HOr Ht _ _ _ _ Hfor _);
      [reflexivity.. | by apply HA].
  - assert (drains w = [(pr0, Some o)] ∧ isProcessingQueue (service w) = true)
      as [Hd Hflag].
    { destruct HOr as [_ HO]. unfold OneDrain in HO.
      destruct (drains w) as [|d0 [|d' ds]] eqn:Hdw.
      - done.
      - destruct j; [|done]. cbn in Hj. inversion Hj; subst.
        split; [done|]. by destruct (isProcessingQueue (service w)).
      - by destruct (isProcessingQueue (service w)). }
    apply LoopResult_busy in Hloop; [|done].
    rewrite (nextPromise_drain _ _ _ _ Hloop) in Hpr. ws.
    eapply placed_drain; [exact Hloop|].
    assert (placed pr w) as Hpl by (by apply HA).
    destruct (decide (pr = pr0)) as [-> | Hne]; [apply placed_settled|].
    apply placed_settle. unfold placed, queuedIds, drainIds in *. ws.
    rewrite Hd in Hpl. destruct Hpl as [? | [Hin | [? | ?]]]; auto.
    cbn in Hin. apply list_elem_of_singleton in Hin. done.
  - rewrite nextPromise_processQueue in Hpr. ws. apply placed_processQueue.
    assert (placed pr w) as Hpl by (by apply HA). placed_frame Hpl.
Qed.

(** X28. No promise is lost.  In every world the service can reach, every
    promise that [sendEmail] has returned is either settled, or its entry
    waits in the queue, or a suspended [_processQueue] holds it, or a
    suspended [_processSend] is working for it. *)
Theorem no_promise_is_lost :
  ∀ cfg w pr,
    reachable cfg w →
    (pr < nextPromise w)%nat →
    pr ∈ settledIds (trace w) ∨ pr ∈ queuedIds w ∨ pr ∈ drainIds w
    ∨ is_Some (tasks w !! pr).
Proof.
  intros cfg w pr (ps & o & s & sched & Hc & Hrun) Hpr.
  assert (Orderly w ∧ Accounted w) as [_ HA].
  { assert (Orderly (initialWorld s) ∧ Accounted (initialWorld s)) as Hinit.
    { split.
      - apply Orderly_reachable with (cfg := cfg). by eapply reachable_initial.
      - intros pr' Hpr'. cbn in Hpr'. lia. }
    clear Hc Hpr. revert Hrun Hinit. generalize (initialWorld s).
    induction sched as [|[now l] sched IH]; intros w0; cbn [run].
    - by intros [= <-].
    - destruct (step cfg now l w0) as [w1|] eqn:Hstep; [|done].
      intros Hrun [HOr HA]. apply (IH w1 Hrun). split.
      + by eapply Orderly_step.
      + by eapply Accounted_step. }
  destruct (HA pr Hpr) as [? | [? | [? | ?]]]; auto.
Qed.

Lemma no_promise_is_lost_witness :
  1%nat ∈ settledIds (trace (worldAfter tightConfig queueOne))
  ∨ 1%nat ∈ queuedIds (worldAfter tightConfig queueOne)
  ∨ 1%nat ∈ drainIds (worldAfter tightConfig queueOne)
  ∨ is_Some (tasks (worldAfter tightConfig queueOne) !! 1%nat).
Proof.
  refine (no_promise_is_lost tightConfig (worldAfter tightConfig queueOne) 1 _ _).
  - exists [providerA], tightOptions, (freshService [providerA]), queueOne.
    split; [reflexivity | vm_compute; reflexivity].
  - vm_compute. lia.
Defined.

(** ** How a status changes *)

Lemma statuses_for cfg now c pr e w r w' a :
  ForResult cfg now c pr e w (r, w') →
  emailStatuses (service w') !! a = emailStatuses (service w) !! a
  ∨ emailStatuses (service w') !! a = Some failed.
Proof.
  inversion 1 as [cb' t Hst Hc He Hsl Hat Hcl | cb' msg Hst]; subst; ws.
  - by left.
  - destruct (decide (a = emailId e)) as [-> | Hne].
    + right. by rewrite lookup_insert_eq.
    + left. by rewrite lookup_insert_ne.
Qed.

Lemma statuses_finish cfg now c pr r w a :
  emailStatuses
    (service (deliver c pr (finallyProcessQueue (_processQueue cfg) now (r, w))))
    !! a = emailStatuses (service w) !! a
  ∨ emailStatuses
      (service (deliver c pr (finallyProcessQueue (_processQueue cfg) now (r, w))))
      !! a = Some failed.
Proof.
  rewrite statuses_deliver. destruct r as [o|]; cbn [finallyProcessQueue snd];
    [|by left].
  by destruct (processQueue_fields cfg now w) as (_ & Hs & _).
Qed.

Lemma statuses_loop cfg now w w' a :
  LoopResult cfg now w w' →
  emailStatuses (service w') !! a = emailStatuses (service w) !! a
  ∨ emailStatuses (service w') !! a = Some failed.
Proof.
  inversion 1 as [Hq | en rest Hq Hlen | en rest r w2 Hq Hlen Hfor]; subst; ws;
    [by left | by left |].
  destruct (statuses_for _ _ _ _ _ _ _ _ a Hfor) as [H1 | H1];
    destruct (statuses_finish cfg now FromSendEmail 0%nat r w2 a) as [H2 | H2];
    rewrite statuses_deliver in H2; rewrite H2; ws; auto.
Qed.

(** What one turn can do to the status of an id: leave it, set it to
    'failed', set it to 'sent' because a provider call for an email of
    that id resolved, or set it to 'processing' because [sendEmail] let an
    email through whose id was not remembered. *)
Lemma status_change cfg now l w w' a :
  step cfg now l w = Some w' →
  emailStatuses (service w') !! a = emailStatuses (service w) !! a
  ∨ emailStatuses (service w') !! a = Some failed
  ∨ (emailStatuses (service w') !! a = Some sent ∧
     ∃ pr t v, l = ProviderSettles pr (Resolved v) ∧ tasks w !! pr = Some t ∧
               emailId (t_email t) = a)
  ∨ (emailStatuses (service w') !! a = Some processing ∧
     ∃ e, l = CallSendEmail e ∧ emailId e = a ∧
          (a ∉ sentEmailIds (service w))).
Proof.
  intros Hstep. apply step_result in Hstep.
  inversion Hstep as
    [ e m Hinv | e Hinv Hdup | e Hinv Hdup Hlen | e r w2 Hinv Hdup Hlen Hfor
    | pr t v Ht Hsl | pr t m d Ht Hsl Hmsg Hat Hd | pr t m r w2 Ht Hsl Hat Hfor
    | pr t Ht Hsl Hat | pr t r w2 Ht Hsl Hat Hfor
    | pr j o w1 Hj Hloop | k Hk ]; subst.
  - by left.
  - by left.
  - match goal with
    | |- context [_processQueue cfg now ?u] =>
      destruct (processQueue_fields cfg now u) as (_ & Hs & _)
    end.
    destruct (Hs a) as [-> | ->]; auto.
  - destruct (statuses_finish cfg now FromSendEmail (nextPromise w) r w2 a)
      as [-> | ->]; [|auto].
    destruct (statuses_for _ _ _ _ _ _ _ _ a Hfor) as [-> | ->]; [|auto]. ws.
    destruct (decide (a = emailId e)) as [-> | Hne].
    + right. right. right. rewrite lookup_insert_eq. split; [done|].
      by exists e.
    + left. by rewrite lookup_insert_ne.
  - rewrite statuses_deliver. cbn [snd]. rewrite onService_recordSuccess.
    match goal with
    | |- context [_processQueue cfg now ?u] =>
      destruct (processQueue_fields cfg now u) as (_ & Hs & _)
    end.
    destruct (Hs a) as [-> | ->]; [|auto]. ws.
    destruct (decide (a = emailId (t_email t))) as [-> | Hne].
    + right. right. left. rewrite lookup_insert_eq. split; [done|].
      by exists pr, t, v.
    + left. by rewrite lookup_insert_ne.
  - by left.
  - rewrite onService_recordFailure in Hfor.
    destruct (statuses_finish cfg now (t_caller t) pr r w2 a) as [-> | ->]; [|auto].
    destruct (statuses_for _ _ _ _ _ _ _ _ a Hfor) as [-> | ->]; auto.
  - by left.
  - rewrite onService_recordFailure in Hfor.
    destruct (statuses_finish cfg now (t_caller t) pr r w2 a) as [-> | ->]; [|auto].
    destruct (statuses_for _ _ _ _ _ _ _ _ a Hfor) as [-> | ->]; auto.
  - destruct (statuses_loop _ _ _ _ a Hloop) as [-> | ->]; auto.
  - match goal with
    | |- context [_processQueue cfg now ?u] =>
      destruct (processQueue_fields cfg now u) as (_ & Hs & _)
    end.
    destruct (Hs a) as [-> | ->]; auto.
Qed.

(** X29. Only a delivery makes a status 'sent': if the status of an id
    is 'sent' after a turn and was not before, the turn was the resolving
    of a provider call that a suspended send had made for an email of that
    id. *)
Theorem only_delivery_marks_sent :
  ∀ cfg now l w w' a,
    step cfg now l w = Some w' →
    getEmailStatus a (service w') = Some sent →
    getEmailStatus a (service w) ≠ Some sent →
    ∃ pr t v,
      l = ProviderSettles pr (Resolved v) ∧ tasks w !! pr = Some t ∧
      emailId (t_email t) = a.
Proof.
  intros cfg now l w w' a Hstep Hafter Hbefore. unfold getEmailStatus in *.
  destruct (status_change cfg now l w w' a Hstep)
    as [Heq | [Hf | [[_ Hd] | [Hp _]]]]; [congruence | congruence | done | congruence].
Qed.

Lemma only_delivery_marks_sent_witness :
  ∃ pr t v,
    ProviderSettles 0 (Resolved "sent by B") = ProviderSettles pr (Resolved v) ∧
    tasks (worldAfter pairConfig firstProviderDown) !! pr = Some t ∧
    emailId (t_email t) = "m-1".
Proof.
  refine (only_delivery_marks_sent pairConfig 300
            (ProviderSettles 0 (Resolved "sent by B"))
            (worldAfter pairConfig firstProviderDown)
            (worldAfter pairConfig secondProviderDelivers) "m-1" _ _ _).
  - vm_compute. reflexivity.
  - vm_compute. reflexivity.
  - vm_compute. discriminate.
Defined.

(** ** An id that has finished *)

Lemma Kept_refl a w : Idle a w → Kept a w w.
Proof. by split. Qed.

Lemma Kept_trans a w1 w2 w3 : Kept a w1 w2 → Kept a w2 w3 → Kept a w1 w3.
Proof.
  intros (_ & Hs1 & Hc1) (Hi & Hs2 & Hc2). split; [done|].
  split; congruence.
Qed.

Lemma Kept_idle a w w' : Kept a w w' → Idle a w'.
Proof. by intros [? _]. Qed.

Lemma callsFor_cons a ev tr :
  (∀ p e, ev = EvInvoke p e → emailId e ≠ a) →
  callsFor a (ev :: tr) = callsFor a tr.
Proof.
  intros Hev. unfold callsFor, invocations. destruct ev as [p e| | |]; try done.
  change (omap ?f (EvInvoke p e :: tr)) with ((p, e) :: omap f tr).
  rewrite filter_cons, decide_False; [done|].
  cbn. by apply (Hev p e).
Qed.

Lemma Kept_frame a w w' :
  Idle a w →
  emailQueue (service w') = emailQueue (service w) →
  tasks w' = tasks w →
  emailStatuses (service w') !! a = emailStatuses (service w) !! a →
  callsFor a (trace w') = callsFor a (trace w) →
  Kept a w w'.
Proof.
  intros [Ho Hn] Hq Ht Hs Hc. split; [|done]. split.
  - unfold occurrences in *. by rewrite Hq.
  - unfold NoTask in *. by rewrite Ht.
Qed.

Lemma Idle_untask a w w' pr :
  Idle a w →
  emailQueue (service w') = emailQueue (service w) →
  tasks w' = delete pr (tasks w) →
  Idle a w'.
Proof.
  intros [Ho Hn] Hq Ht. split.
  - unfold occurrences in *. by rewrite Hq.
  - intros pr' t. rewrite Ht. intros Hl.
    apply lookup_delete_Some in Hl as [_ Hl]. by eapply Hn.
Qed.

Lemma Idle_retask a w w' pr t :
  Idle a w →
  emailQueue (service w') = emailQueue (service w) →
  tasks w' = <[pr := t]> (tasks w) →
  emailId (t_email t) ≠ a →
  Idle a w'.
Proof.
  intros [Ho Hn] Hq Ht Hne. split.
  - unfold occurrences in *. by rewrite Hq.
  - intros pr' t'. rewrite Ht. destruct (decide (pr' = pr)) as [-> | Hpr].
    + rewrite lookup_insert_eq. by intros [= <-].
    + rewrite lookup_insert_ne by done. apply Hn.
Qed.

Lemma Kept_for a cfg now c pr e w r w' :
  Idle a w → emailId e ≠ a →
  ForResult cfg now c pr e w (r, w') → Kept a w w'.
Proof.
  intros HI Hne.
  inversion 1 as [cb' t Hst Hc He Hsl Hat Hcl | cb' msg Hst]; subst.
  - split; [|split].
    + by eapply (Idle_retask a w _ pr t HI).
    + done.
    + ws. apply callsFor_cons. by intros p e' [= _ <-].
  - apply Kept_frame; try done. ws. by rewrite lookup_insert_ne.
Qed.

Lemma occurrences_head a w en rest :
  emailQueue (service w) = en :: rest → occurrences a w = 0%nat →
  emailId (q_email en) ≠ a ∧
  length (filter (fun en' => emailId (q_email en') = a) rest) = 0%nat.
Proof.
  unfold occurrences. intros ->. rewrite filter_cons.
  case_decide; cbn; [lia | done].
Qed.

Lemma Kept_drain a cfg now w w' :
  Idle a w → DrainResult cfg now w w' → Kept a w w'.
Proof.
  intros HI.
  inversion 1 as [Hq | en rest Hq Hlen | en rest r w2 Hq Hlen Hfor]; subst.
  - by apply Kept_frame.
  - by apply Kept_frame.
  - destruct HI as [Ho Hn].
    destruct (occurrences_head a w en rest Hq Ho) as [Hne Hrest].
    assert (Kept a w w2) as HK2.
    { match type of Hfor with
      | ForResult _ _ _ _ _ ?u _ => assert (Kept a w u) as HK
      end.
      { split; [|done]. split; [|done]. unfold occurrences. ws. done. }
      eapply Kept_trans; [exact HK|].
      refine (Kept_for a cfg now _ _ _ _ _ _ _ Hne Hfor). by eapply Kept_idle. }
    eapply Kept_trans; [exact HK2|].
    apply Kept_frame; try done. by eapply Kept_idle.
Qed.

Lemma Kept_processQueue a cfg now w : Idle a w → Kept a w (_processQueue cfg now w).
Proof.
  intros HI. unfold _processQueue.
  destruct (processQueueAt_form cfg 1 now w) as [[-> _] | (_ & _ & HD)].
  - by apply Kept_refl.
  - assert (Kept a w (onService (set_isProcessingQueue true) w)) as HK
      by (by apply Kept_frame).
    eapply Kept_trans; [exact HK|]. eapply Kept_drain; [|exact HD].
    by eapply Kept_idle.
Qed.

Lemma Kept_deliver a w c pr x : Kept a w (snd x) → Kept a w (deliver c pr x).
Proof.
  destruct x as [[o|] w2]; [|done]. intros HK.
  eapply Kept_trans; [exact HK|].
  destruct c; cbn [deliver snd].
  - apply Kept_frame; try done. by eapply Kept_idle.
  - apply Kept_frame; try done. by eapply Kept_idle.
Qed.

Lemma Kept_finish a cfg now c pr r w0 w :
  Kept a w0 w →
  Kept a w0 (deliver c pr (finallyProcessQueue (_processQueue cfg) now (r, w))).
Proof.
  intros HK. apply Kept_deliver. destruct r as [o|]; cbn [finallyProcessQueue snd];
    [|done].
  eapply Kept_trans; [exact HK|]. apply Kept_processQueue. by eapply Kept_idle.
Qed.

Lemma Kept_loop a cfg now w w' :
  Idle a w → LoopResult cfg now w w' → Kept a w w'.
Proof.
  intros HI.
  inversion 1 as [Hq | en rest Hq Hlen | en rest r w2 Hq Hlen Hfor]; subst.
  - by apply Kept_frame.
  - by apply Kept_frame.
  - destruct HI as [Ho Hn].
    destruct (occurrences_head a w en rest Hq Ho) as [Hne Hrest].
    assert (Kept a w w2) as HK2.
    { match type of Hfor with
      | ForResult _ _ _ _ _ ?u _ => assert (Kept a w u) as HK
      end.
      { split; [|done]. split; [|done]. unfold occurrences. ws. done. }
      eapply Kept_trans; [exact HK|].
      refine (Kept_for a cfg now _ _ _ _ _ _ _ Hne Hfor). by eapply Kept_idle. }
    assert (Kept a w (snd (finallyProcessQueue (_processQueue cfg) now (r, w2))))
      as HK3.
    { destruct r as [o|]; cbn [finallyProcessQueue snd]; [|done].
      eapply Kept_trans; [exact HK2|]. apply Kept_processQueue.
      by eapply Kept_idle. }
    eapply Kept_trans; [exact HK3|].
    apply Kept_frame; try done. by eapply Kept_idle.
Qed.

(** A turn leaves a remembered id alone for which nothing is pending. *)
Lemma Kept_step a cfg now l w w' :
  a ∈ sentEmailIds (service w) → Idle a w →
  step cfg now l w = Some w' → Kept a w w'.
Proof.
  intros Hin HI Hstep. apply step_result in Hstep.
  inversion Hstep as
    [ e m Hinv | e Hinv Hdup | e Hinv Hdup Hlen | e r w2 Hinv Hdup Hlen Hfor
    | pr t v Ht Hsl | pr t m d Ht Hsl Hmsg Hat Hd | pr t m r w2 Ht Hsl Hat Hfor
    | pr t Ht Hsl Hat | pr t r w2 Ht Hsl Hat Hfor
    | pr j o w1 Hj Hloop | k Hk ]; subst.
  - by apply Kept_frame.
  - by apply Kept_frame.
  - assert (emailId e ≠ a) as Hne by (intros Heq; by rewrite Heq in Hdup).
    match goal with
    | |- Kept a w (_processQueue cfg now ?u) =>
      assert (Kept a w u) as HK
    end.
    { destruct HI as [Ho Hn]. split; [|done]. split; [|done].
      unfold occurrences in *. ws. rewrite filter_app, length_app, Ho.
      rewrite filter_cons, decide_False by done. done. }
    eapply Kept_trans; [exact HK|]. apply Kept_processQueue.
    by eapply Kept_idle.
  - assert (emailId e ≠ a) as Hne by (intros Heq; by rewrite Heq in Hdup).
    apply Kept_finish.
    match type of Hfor with
    | ForResult _ _ _ _ _ ?u _ => assert (Kept a w u) as HK
    end.
    { apply Kept_frame; try done. ws. by rewrite lookup_insert_ne. }
    eapply Kept_trans; [exact HK|].
    refine (Kept_for a cfg now _ _ _ _ _ _ _ Hne Hfor). by eapply Kept_idle.
  - assert (emailId (t_email t) ≠ a) as Hne by (by eapply (proj2 HI)).
    apply Kept_deliver. cbn [snd]. rewrite onService_recordSuccess.
    match goal with
    | |- Kept a w (_processQueue cfg now ?u) =>
      assert (Kept a w u) as HK
    end.
    { split; [|split].
      - by eapply (Idle_untask a w _ pr HI).
      - ws. by rewrite lookup_insert_ne.
      - done. }
    eapply Kept_trans; [exact HK|]. apply Kept_processQueue.
    by eapply Kept_idle.
  - assert (emailId (t_email t) ≠ a) as Hne by (by eapply (proj2 HI)).
    split; [|split].
    + by eapply (Idle_retask a w _ pr (asleep t (t_currentDelay t * 2) m) HI).
    + done.
    + ws. by apply callsFor_cons.
  - assert (emailId (t_email t) ≠ a) as Hne by (by eapply (proj2 HI)).
    apply Kept_finish. rewrite onService_recordFailure in Hfor.
    match type of Hfor with
    | ForResult _ _ _ _ _ ?u _ => assert (Kept a w u) as HK
    end.
    { split; [|done]. by eapply (Idle_untask a w _ pr HI). }
    eapply Kept_trans; [exact HK|].
    refine (Kept_for a cfg now _ _ _ _ _ _ _ Hne Hfor). by eapply Kept_idle.
  - assert (emailId (t_email t) ≠ a) as Hne by (by eapply (proj2 HI)).
    split; [|split].
    + by eapply (Idle_retask a w _ pr (awake t) HI).
    + done.
    + ws. apply callsFor_cons. by intros p e [= _ <-].
  - assert (emailId (t_email t) ≠ a) as Hne by (by eapply (proj2 HI)).
    apply Kept_finish. rewrite onService_recordFailure in Hfor.
    match type of Hfor with
    | ForResult _ _ _ _ _ ?u _ => assert (Kept a w u) as HK
    end.
    { split; [|done]. by eapply (Idle_untask a w _ pr HI). }
    eapply Kept_trans; [exact HK|].
    refine (Kept_for a cfg now _ _ _ _ _ _ _ Hne Hfor). by eapply Kept_idle.
  - match type of Hloop with
    | LoopResult _ _ ?u _ => assert (Kept a w u) as HK
    end.
    { by apply Kept_frame. }
    eapply Kept_trans; [exact HK|].
    eapply Kept_loop; [|exact Hloop]. by eapply Kept_idle.
  - match goal with
    | |- Kept a w (_processQueue cfg now ?u) =>
      assert (Kept a w u) as HK by (by apply Kept_frame)
    end.
    eapply Kept_trans; [exact HK|]. apply Kept_processQueue.
    by eapply Kept_idle.
Qed.

Lemma Kept_run a cfg sched :
  ∀ w w',
    a ∈ sentEmailIds (service w) → Idle a w →
    run cfg sched w = Some w' → Kept a w w'.
Proof.
  induction sched as [|[now l] sched IH]; intros w w' Hin HI; cbn [run].
  - intros [= <-]. by apply Kept_refl.
  - destruct (step cfg now l w) as [w1|] eqn:Hstep; [|done]. intros Hrun.
    pose proof (Kept_step a cfg now l w w1 Hin HI Hstep) as HK.
    eapply Kept_trans; [exact HK|]. apply IH; [|by eapply Kept_idle|done].
    destruct (Grows_step cfg now l w w1 Hstep) as [Hl _]. by apply Hl.
Qed.

(** X30. A remembered id that has finished stays finished.  Along any
    schedule, an id that [sentEmailIds] holds and whose status is 'sent'
    or 'failed' keeps a status that is 'sent' or 'failed': it never goes
    back to 'processing' and is never dropped.  When, moreover, no entry
    of the queue and no suspended send carries the id, nothing processes
    it again: its status does not change at all, no provider is called
    with an email of that id, and nothing becomes pending for it. *)
Theorem remembered_id_stays_finished :
  ∀ cfg sched w w' a,
    run cfg sched w = Some w' →
    a ∈ sentEmailIds (service w) →
    (getEmailStatus a (service w) = Some sent
     ∨ getEmailStatus a (service w) = Some failed →
     getEmailStatus a (service w') = Some sent
     ∨ getEmailStatus a (service w') = Some failed) ∧
    (occurrences a w = 0%nat → NoTask a w →
     getEmailStatus a (service w') = getEmailStatus a (service w) ∧
     callsFor a (trace w') = callsFor a (trace w) ∧
     occurrences a w' = 0%nat ∧ NoTask a w').
Proof.
  intros cfg sched w w' a Hrun Hin. split.
  - revert w w' Hrun Hin. unfold getEmailStatus.
    induction sched as [|[now l] sched IH]; intros w w'; cbn [run].
    + by intros [= <-].
    + destruct (step cfg now l w) as [w1|] eqn:Hstep; [|done].
      intros Hrun Hin Hst. apply (IH w1 w' Hrun).
      * destruct (Grows_step cfg now l w w1 Hstep) as [Hl _]. by apply Hl.
      * destruct (status_change cfg now l w w1 a Hstep)
          as [-> | [-> | [[-> _] | [_ (e & _ & _ & Hnot)]]]]; auto. done.
  - intros Hocc Hno.
    destruct (Kept_run a cfg sched w w' Hin (conj Hocc Hno) Hrun)
      as ([Hocc' Hno'] & Hst & Hcalls).
    done.
Qed.

Lemma remembered_id_stays_finished_witness :
  (getEmailStatus "m-1"
     (service (worldAfter pairConfig
                 (secondProviderDelivers ++ [(400, CallSendEmail emailOne)])))
   = Some sent
   ∨ getEmailStatus "m-1"
       (service (worldAfter pairConfig
                   (secondProviderDelivers ++ [(400, CallSendEmail emailOne)])))
     = Some failed)
  ∧ callsFor "m-1"
      (trace (worldAfter pairConfig
                (secondProviderDelivers ++ [(400, CallSendEmail emailOne)])))
    = callsFor "m-1" (trace (worldAfter pairConfig secondProviderDelivers)).
Proof.
  destruct (remembered_id_stays_finished pairConfig
              [(400, CallSendEmail emailOne)]
              (worldAfter pairConfig secondProviderDelivers)
              (worldAfter pairConfig
                 (secondProviderDelivers ++ [(400, CallSendEmail emailOne)]))
              "m-1") as [Hfinished Hidle].
  - vm_compute. reflexivity.
  - vm_compute. set_solver.
  - split.
    + apply Hfinished. left. vm_compute. reflexivity.
    + apply Hidle.
      * reflexivity.
      * intros pr t Ht. vm_compute in Ht. discriminate Ht.
Defined.

(** Without the second condition the status can still change: the id of
    A is remembered and its status is 'sent' when the submission of A
    that was queued before is taken off the queue and fails. *)
Example remembered_id_fails_from_the_queue :
  ∃ w w',
    run tightConfig (take 5 queuedAfterRemembered)
      (initialWorld (freshService [providerA])) = Some w ∧
    ("A" ∈ sentEmailIds (service w)) ∧
    getEmailStatus "A" (service w) = Some sent ∧
    run tightConfig (drop 5 queuedAfterRemembered) w = Some w' ∧
    getEmailStatus "A" (service w') = Some failed ∧
    length (callsFor "A" (trace w')) = S (length (callsFor "A" (trace w))).
Proof.
  eexists _, _. split; [vm_compute; reflexivity|].
  split; [vm_compute; set_solver|].
  split; [vm_compute; reflexivity|].
  split; [vm_compute; reflexivity|].
  split; vm_compute; reflexivity.
Qed.

(** ** The pending queue: order, outcome, one pass *)


Lemma served_same w w' :
  emailQueue (service w') = emailQueue (service w) → served w w'.
Proof. by left. Qed.










